(** * Dots and Boxes: the program [main.py], embedded and verified

    The Python program is modelled as pure functions over explicit values.
    - Python ints are [Z]; the bit tests of the box encoding use [Z.land].
    - The board is a list of rows of pairs [(edges, owner)], read and written
      with Python's indexing rules (negative indices wrap, others raise).
    - A call that can raise returns an [outcome]: a value, a Python
      exception, or [OutOfFuel] for the two places whose recursion is not
      structural (the [while] loop of [open_boxes_2] and the search).
    - Every [copy.deepcopy] disappears: values are immutable here.
    - The console is the list of the lines still to be read; the text and
      the images that the program shows are values that the display
      functions return. The mouse and the clock are not modelled. *)

From Stdlib Require Import Ascii ZArith Lia List Bool.
From stdpp Require Import base list relations strings.
Import ListNotations.
Open Scope Z_scope.

(** ** Exceptions and the error monad *)

Inductive PyExn := TypeError | IndexError | ValueError | AttributeError.

Inductive outcome (A : Type) :=
| Ret (a : A)
| Raise (e : PyExn)
| OutOfFuel.
Arguments Ret {A} a.
Arguments Raise {A} e.
Arguments OutOfFuel {A}.

Definition bind {A B} (m : outcome A) (k : A -> outcome B) : outcome B :=
  match m with
  | Ret a => k a
  | Raise e => Raise e
  | OutOfFuel => OutOfFuel
  end.

Notation "'let*' x ':=' m 'in' k" := (bind m (fun x => k))
  (at level 10, x name, m at level 100, k at level 200, only parsing).
Notation "'let*' ' p ':=' m 'in' k" := (bind m (fun x => match x with p => k end))
  (at level 10, p pattern, m at level 100, k at level 200, only parsing).

Fixpoint map_outcome {A B} (f : A -> outcome B) (l : list A) : outcome (list B) :=
  match l with
  | [] => Ret []
  | x :: l' => let* y := f x in let* ys := map_outcome f l' in Ret (y :: ys)
  end.

(** ** Python lists *)

(** [l[i]]: an index in [0, len) is used as it is, one in [-len, 0) counts
    from the end, any other raises IndexError. *)
Definition py_index (len : nat) (i : Z) : option nat :=
  if (0 <=? i) && (i <? Z.of_nat len) then Some (Z.to_nat i)
  else if (i <? 0) && (- Z.of_nat len <=? i) then Some (Z.to_nat (Z.of_nat len + i))
  else None.

Definition getitem {A} (l : list A) (i : Z) : outcome A :=
  match py_index (length l) i with
  | Some n => match l !! n with Some x => Ret x | None => Raise IndexError end
  | None => Raise IndexError
  end.

Definition setitem {A} (l : list A) (i : Z) (x : A) : outcome (list A) :=
  match py_index (length l) i with
  | Some n => Ret (<[n := x]> l)
  | None => Raise IndexError
  end.

(** [range(n)] *)
Definition py_range (n : Z) : list Z := map Z.of_nat (seq 0 (Z.to_nat n)).

(** ** Data model *)

(** The two player symbols ['X'] and ['O']. *)
Inductive Symbol := SymX | SymO.

Definition sym_eqb (a b : Symbol) : bool :=
  match a, b with
  | SymX, SymX | SymO, SymO => true
  | _, _ => false
  end.

(** A box: the segment encoding (8 up, 4 right, 2 down, 1 left) and the
    owner, [None] standing for the blank [' ']. *)
Abbreviation Box := (Z * option Symbol)%type.
Abbreviation Board := (list (list Box)).

(** A direction tuple [d]: own bit, line offset, column offset, mirrored bit
    of the neighbour. *)
Definition Dir : Type := Z * Z * Z * Z.
Definition d0 (d : Dir) : Z := fst (fst (fst d)).
Definition d1 (d : Dir) : Z := snd (fst (fst d)).
Definition d2 (d : Dir) : Z := snd (fst d).
Definition d3 (d : Dir) : Z := snd d.

Definition dir_up : Dir := (8, -1, 0, 2).
Definition dir_left : Dir := (1, 0, -1, 4).
Definition dir_right : Dir := (4, 0, 1, 1).
Definition dir_down : Dir := (2, 1, 0, 8).

Record Game := mkGame {
  board : Board;
  score_min : Z;
  score_max : Z;
  filled_box : bool;
  last_segment : option (Z * Z * Symbol)
}.

(** The class-level configuration [Game.LINES], [Game.COLUMNS], [Game.MIN],
    [Game.VAR]; [Game.MAX] is the other symbol, as [read_symbol] sets it. *)
Record Config := mkConfig {
  LINES : Z;
  COLUMNS : Z;
  MIN : Symbol;
  VAR : Z
}.

Definition MAX (cfg : Config) : Symbol :=
  if sym_eqb (MIN cfg) SymX then SymO else SymX.

(** What [Game.final] returns: [False], ['tie'] or the winner's symbol. *)
Inductive Final := NotFinal | Tie | Winner (s : Symbol).

Definition truthy (f : Final) : bool :=
  match f with NotFinal => false | _ => true end.

(** [float('-inf')], an int, [float('inf')]. *)
Inductive Score := NegInf | Fin (z : Z) | PosInf.

Definition score_ltb (a b : Score) : bool :=
  match a, b with
  | NegInf, NegInf => false
  | NegInf, _ => true
  | Fin _, NegInf => false
  | Fin x, Fin y => x <? y
  | Fin _, PosInf => true
  | PosInf, _ => false
  end.

#[local] Unset Elimination Schemes.
Inductive State := mkState {
  game : Game;
  current_player : Symbol;
  depth : Z;
  score : option Z;
  possible_moves : list State;
  next_state : option State
}.
#[local] Set Elimination Schemes.

(** [State(game, current_player, depth)] *)
Definition new_State (g : Game) (p : Symbol) (dp : Z) : State :=
  mkState g p dp None [] None.

Definition get_box (b : Board) (i j : Z) : outcome Box :=
  let* row := getitem b i in getitem row j.

(** [board[i][j] = v]: the row object is fetched, then updated in place. *)
Definition set_box (b : Board) (i j : Z) (v : Box) : outcome Board :=
  let* row := getitem b i in
  let* row' := setitem row j v in
  setitem b i row'.

Section Engine.

Variable cfg : Config.

(** [Game()] *)
Definition new_Game : Game :=
  mkGame (replicate (Z.to_nat (LINES cfg))
            (replicate (Z.to_nat (COLUMNS cfg)) (0, None)))
         0 0 false None.

Definition in_scope (i j : Z) : bool :=
  (0 <=? i) && (i <? LINES cfg) && (0 <=? j) && (j <? COLUMNS cfg).

Definition complete_box (game : Game) (d i j : Z) (player : Symbol) : outcome Game :=
  let* box := get_box (board game) i j in
  let* b1 := set_box (board game) i j (fst box + d, snd box) in
  let* box1 := get_box b1 i j in
  if Z.land (fst box1) 15 =? 15 then
    let* b2 := set_box b1 i j (fst box1, Some player) in
    if sym_eqb player (MIN cfg) then
      Ret (mkGame b2 (score_min game + 1) (score_max game) true (Some (i, j, player)))
    else
      Ret (mkGame b2 (score_min game) (score_max game + 1) true (Some (i, j, player)))
  else
    Ret (mkGame b1 (score_min game) (score_max game) (filled_box game) (Some (i, j, player))).

(** [add_segment] returns the updated game, or Python's [None] (here the
    inner [None]) when the segment is already there. *)
Definition add_segment (game : Game) (d : Dir) (i j : Z) (player : Symbol)
  : outcome (option Game) :=
  let* box := get_box (board game) i j in
  if Z.land (fst box) (d0 d) =? 0 then
    let* game1 := complete_box game (d0 d) i j player in
    if in_scope (i + d1 d) (j + d2 d) then
      let* game2 := complete_box game1 (d3 d) (i + d1 d) (j + d2 d) player in
      Ret (Some game2)
    else Ret (Some game1)
  else Ret None.

(** The calls of [Game.moves], in the order of its loops. *)
Definition move_slots : list (Dir * Z * Z) :=
  flat_map (fun i =>
      flat_map (fun j => [(dir_up, i, j); (dir_left, i, j)]) (py_range (COLUMNS cfg))
      ++ [(dir_right, i, COLUMNS cfg - 1)])
    (py_range (LINES cfg))
  ++ map (fun j => (dir_down, LINES cfg - 1, j)) (py_range (COLUMNS cfg)).

Definition Game_moves (self : Game) (player : Symbol) : outcome (list (option Game)) :=
  map_outcome (fun '(d, i, j) => add_segment self d i j player) move_slots.

Definition final (self : Game) : Final :=
  if negb (score_min self + score_max self =? LINES cfg * COLUMNS cfg) then NotFinal
  else if score_min self =? score_max self then Tie
  else if score_min self >? score_max self then Winner (MIN cfg)
  else Winner (MAX cfg).

Definition open_boxes_1 (self : Game) (player : Symbol) : Z :=
  if sym_eqb player (MIN cfg) then LINES cfg * COLUMNS cfg - score_max self
  else LINES cfg * COLUMNS cfg - score_min self.

(** One pass of the [for d in ...] loop of [open_boxes_2]: the segment is
    tried from the box of [game.last_segment], which the previous tries may
    have moved. *)
Definition try_direction (player : Symbol) (acc : outcome (Game * Z)) (d : Dir)
  : outcome (Game * Z) :=
  let* '(game, count) := acc in
  match last_segment game with
  | None => Raise TypeError
  | Some (i, j, _) =>
      let* r := add_segment game d i j player in
      match r with
      | Some game' => Ret (game', count + 1)
      | None => Ret (game, count)
      end
  end.

Fixpoint open_boxes_2_loop (fuel : nat) (player : Symbol) (game : Game) (count score : Z)
  : outcome Z :=
  if count =? 1 then
    match fuel with
    | O => OutOfFuel
    | S fuel' =>
        let* '(game', count') :=
          fold_left (try_direction player) [dir_up; dir_left; dir_right; dir_down]
                    (Ret (game, 0)) in
        open_boxes_2_loop fuel' player game' count' (score + 1)
    end
  else Ret score.

Definition last_player_is (self : Game) (player : Symbol) : bool :=
  match last_segment self with
  | Some (_, _, p) => sym_eqb p player
  | None => false
  end.

Definition open_boxes_2 (fuel : nat) (self : Game) (player : Symbol) : outcome Z :=
  let score := if sym_eqb player (MIN cfg) then score_min self else score_max self in
  let count := Z.b2z ((last_player_is self player && filled_box self)
                      || (negb (last_player_is self player) && negb (filled_box self))) in
  open_boxes_2_loop fuel player self count score.

Definition open_boxes (fuel : nat) (self : Game) (player : Symbol) : outcome Z :=
  if VAR cfg =? 1 then Ret (open_boxes_1 self player)
  else open_boxes_2 fuel self player.

Definition estimate_score (fuel : nat) (self : Game) : outcome Z :=
  match final self with
  | Winner s =>
      if sym_eqb s (MAX cfg) then Ret 100000
      else if sym_eqb s (MIN cfg) then Ret (-100000)
      else let* a := open_boxes fuel self (MAX cfg) in
           let* b := open_boxes fuel self (MIN cfg) in Ret (a - b)
  | Tie => Ret 0
  | NotFinal =>
      let* a := open_boxes fuel self (MAX cfg) in
      let* b := open_boxes fuel self (MIN cfg) in Ret (a - b)
  end.

Definition next_player (self : State) : Symbol :=
  if (sym_eqb (current_player self) (MIN cfg) && negb (filled_box (game self)))
     || (sym_eqb (current_player self) (MAX cfg) && filled_box (game self))
  then MAX cfg else MIN cfg.

(** The body of the loop of [State.moves] for one entry of [games]. *)
Definition child_of (self : State) (g : option Game) : list State :=
  match g with
  | Some game =>
      [new_State game
         (if negb (filled_box game) then next_player self else current_player self)
         (depth self - 1)]
  | None => []
  end.

Definition State_moves (self : State) : outcome (list State) :=
  let* games := Game_moves (game self) (current_player self) in
  Ret (flat_map (child_of self) games).

Definition set_score (state : State) (v : Z) : State :=
  mkState (game state) (current_player state) (depth state) (Some v)
          (possible_moves state) (next_state state).

Definition is_leaf (state : State) : bool :=
  (depth state =? 0) || truthy (final (game state)).

(** [max(moves_score, key=lambda x: x.score)]: the first element whose key
    is the largest; comparing a [None] key raises TypeError, an empty list
    raises ValueError. [min] likewise. *)
Fixpoint extremum_loop (better : Z -> Z -> bool) (best : State) (l : list State)
  : outcome State :=
  match l with
  | [] => Ret best
  | x :: l' =>
      match score x, score best with
      | Some kx, Some kb => extremum_loop better (if better kx kb then x else best) l'
      | _, _ => Raise TypeError
      end
  end.

Definition py_max (l : list State) : outcome State :=
  match l with
  | [] => Raise ValueError
  | x :: l' => extremum_loop Z.gtb x l'
  end.

Definition py_min (l : list State) : outcome State :=
  match l with
  | [] => Raise ValueError
  | x :: l' => extremum_loop Z.ltb x l'
  end.

(** [min_max]: [n] bounds the recursion depth, [fuel] the loop of the
    evaluator. *)
Fixpoint min_max (fuel n : nat) (state : State) : outcome State :=
  if is_leaf state then
    let* v := estimate_score fuel (game state) in
    Ret (set_score state v)
  else
    match n with
    | O => OutOfFuel
    | S n' =>
        let* moves := State_moves state in
        let* moves_score := map_outcome (min_max fuel n') moves in
        let* next :=
          (if sym_eqb (current_player state) (MAX cfg)
           then py_max moves_score else py_min moves_score) in
        Ret (mkState (game state) (current_player state) (depth state)
                     (score next) moves_score (Some next))
    end.

(** The local variables of [alpha_beta_state] that one pass of its loop
    updates. *)
Record Window := mkWindow {
  w_alpha : Z;
  w_beta : Z;
  w_current_score : Score;
  w_next_state : option State
}.

(** One pass of the loop body of [alpha_beta_state], after the recursive call
    returned [new_state] with score [s]. *)
Definition alpha_beta_step (is_max : bool) (w : Window) (new_state : State) (s : Z)
  : Window :=
  if is_max then
    let alpha := Z.min (w_alpha w) s in
    if score_ltb (w_current_score w) (Fin s)
    then mkWindow alpha (w_beta w) (Fin s) (Some new_state)
    else mkWindow alpha (w_beta w) (w_current_score w) (w_next_state w)
  else
    let beta := Z.max (w_beta w) s in
    if score_ltb (Fin s) (w_current_score w)
    then mkWindow (w_alpha w) beta (Fin s) (Some new_state)
    else mkWindow (w_alpha w) beta (w_current_score w) (w_next_state w).

(** The loop of [alpha_beta_state] over [state.possible_moves]; [search] is the
    recursive call of [alpha_beta]. It returns the final [next_state] and the
    list of moves, the visited ones as the search left them, the others
    untouched. *)
Fixpoint alpha_beta_loop (search : Z -> Z -> State -> outcome State) (is_max : bool)
    (w : Window) (moves : list State) : outcome (option State * list State) :=
  match moves with
  | [] => Ret (w_next_state w, [])
  | move :: rest =>
      let* new_state := search (w_alpha w) (w_beta w) move in
      match score new_state with
      | None => Raise TypeError
      | Some s =>
          let w' := alpha_beta_step is_max w new_state s in
          if w_alpha w' >=? w_beta w' then Ret (w_next_state w', new_state :: rest)
          else
            let* '(next, rest') := alpha_beta_loop search is_max w' rest in
            Ret (next, new_state :: rest')
      end
  end.

Definition alpha_beta_state (search : Z -> Z -> State -> outcome State)
    (alpha beta : Z) (state : State) : outcome State :=
  let is_max := sym_eqb (current_player state) (MAX cfg) in
  let current_score := if is_max then NegInf else PosInf in
  let* '(next, moves) :=
    alpha_beta_loop search is_max
      (mkWindow alpha beta current_score (next_state state)) (possible_moves state) in
  Ret (mkState (game state) (current_player state) (depth state) (score state)
               moves next).

Fixpoint alpha_beta (fuel n : nat) (alpha beta : Z) (state : State) : outcome State :=
  if is_leaf state then
    let* v := estimate_score fuel (game state) in
    Ret (set_score state v)
  else if alpha >? beta then Ret state
  else
    match n with
    | O => OutOfFuel
    | S n' =>
        let* moves := State_moves state in
        let state1 := mkState (game state) (current_player state) (depth state)
                              (score state) moves (next_state state) in
        let* state2 := alpha_beta_state (alpha_beta fuel n') alpha beta state1 in
        match next_state state2 with
        | None => Raise AttributeError
        | Some next =>
            Ret (mkState (game state2) (current_player state2) (depth state2)
                         (score next) (possible_moves state2) (next_state state2))
        end
    end.

Inductive Direction := horizontal | vertical | non_valid.

Definition bit_clear (b : Board) (i j bit : Z) : outcome bool :=
  let* box := get_box b i j in Ret (Z.land (fst box) bit =? 0).

Definition find_relative_position (line column : Z) (board : Board)
  : outcome Direction :=
  if line =? 2 * LINES cfg then
    let* free := bit_clear board (line / 2 - 1) (column / 2) 2 in
    Ret (if free then horizontal else non_valid)
  else if line mod 2 =? 0 then
    let* free := bit_clear board (line / 2) (column / 2) 8 in
    Ret (if free then horizontal else non_valid)
  else if column =? 2 * COLUMNS cfg then
    let* free := bit_clear board (line / 2) (column / 2 - 1) 4 in
    Ret (if free then vertical else non_valid)
  else
    let* free := bit_clear board (line / 2) (column / 2) 1 in
    Ret (if free then vertical else non_valid).

Definition in_range (x n : Z) : bool := (0 <=? x) && (x <? n).

Definition with_game (state : State) (g : Game) : State :=
  mkState g (current_player state) (depth state) (score state)
          (possible_moves state) (next_state state).

(** [complete_box] on [state.game] when the box is on the board. *)
Definition complete_if_in_scope (g : Game) (d i j : Z) : outcome Game :=
  if in_scope i j then complete_box g d i j (MIN cfg) else Ret g.

Definition check_position (line column : Z) (state : State) : outcome (bool * State) :=
  if in_range line (2 * LINES cfg + 1) && in_range column (2 * COLUMNS cfg + 1)
     && ((line + column) mod 2 =? 1) then
    let* direction := find_relative_position line column (board (game state)) in
    let line := line / 2 in
    let column := column / 2 in
    match direction with
    | horizontal =>
        let* g1 := complete_if_in_scope (game state) 8 line column in
        let* g2 := complete_if_in_scope g1 2 (line - 1) column in
        Ret (true, with_game state g2)
    | vertical =>
        let* g1 := complete_if_in_scope (game state) 1 line column in
        let* g2 := complete_if_in_scope g1 4 line (column - 1) in
        Ret (true, with_game state g2)
    | non_valid => Ret (false, state)
    end
  else Ret (false, state).

End Engine.

(** ** Notions used to state the properties *)

(** The box at an index pair that is on the board. *)
Definition box_at (b : Board) (i j : Z) : Box :=
  match b !! Z.to_nat i with
  | Some row => match row !! Z.to_nat j with Some x => x | None => (0, None) end
  | None => (0, None)
  end.

Definition edges_at (b : Board) (i j : Z) : Z := fst (box_at b i j).
Definition owner_at (b : Board) (i j : Z) : option Symbol := snd (box_at b i j).

(** The board with the box at an index pair on the board replaced. *)
Definition upd (b : Board) (i j : Z) (v : Box) : Board :=
  alter (fun row => <[Z.to_nat j := v]> row) (Z.to_nat i) b.

Fixpoint zsum {A} (f : A -> Z) (l : list A) : Z :=
  match l with
  | [] => 0
  | x :: l' => f x + zsum f l'
  end.

Definition owned (x : Box) : Z :=
  match snd x with Some _ => 1 | None => 0 end.

(** The number of boxes that have an owner. *)
Definition owned_boxes (b : Board) : Z := zsum (zsum owned) b.

(** The sum of the encodings of all boxes: it grows with every segment. *)
Definition edges_total (b : Board) : Z := zsum (zsum fst) b.

Definition all_dirs : list Dir := [dir_up; dir_left; dir_right; dir_down].

Definition is_bit (x : Z) : Prop := x = 8 \/ x = 4 \/ x = 2 \/ x = 1.

Section Notions.

Variable cfg : Config.

(** [LINES] rows of [COLUMNS] boxes. *)
Definition shaped (b : Board) : Prop :=
  length b = Z.to_nat (LINES cfg) /\
  Forall (fun row => length row = Z.to_nat (COLUMNS cfg)) b.

(** Every box has an encoding on four bits, and an owner exactly when the
    four bits are set. *)
Definition boxes_ok (b : Board) : Prop :=
  forall i j, in_scope cfg i j = true ->
    0 <= edges_at b i j <= 15 /\
    (owner_at b i j <> None <-> Z.land (edges_at b i j) 15 = 15).

(** A segment between two boxes is recorded in both of them. *)
Definition mirrored (b : Board) : Prop :=
  forall d i j, In d all_dirs ->
    in_scope cfg i j = true -> in_scope cfg (i + d1 d) (j + d2 d) = true ->
    (Z.land (edges_at b i j) (d0 d) = 0 <->
     Z.land (edges_at b (i + d1 d) (j + d2 d)) (d3 d) = 0).

Definition scores_ok (g : Game) : Prop :=
  0 <= score_min g /\ 0 <= score_max g /\
  score_min g + score_max g = owned_boxes (board g).

Definition last_ok (g : Game) : Prop :=
  match last_segment g with
  | Some (i, j, _) => in_scope cfg i j = true
  | None => True
  end.

Record wf (g : Game) : Prop := mkWf {
  wf_shaped : shaped (board g);
  wf_boxes : boxes_ok (board g);
  wf_mirrored : mirrored (board g);
  wf_scores : scores_ok g;
  wf_last : last_ok g
}.

(** [add_segment] and [complete_box] on a box of the board, without the
    index checks. *)
Definition complete (g : Game) (d i j : Z) (player : Symbol) : Game :=
  let e := edges_at (board g) i j + d in
  if Z.land e 15 =? 15 then
    mkGame (upd (board g) i j (e, Some player))
           (if sym_eqb player (MIN cfg) then score_min g + 1 else score_min g)
           (if sym_eqb player (MIN cfg) then score_max g else score_max g + 1)
           true (Some (i, j, player))
  else
    mkGame (upd (board g) i j (e, owner_at (board g) i j))
           (score_min g) (score_max g) (filled_box g) (Some (i, j, player)).

Definition draw (g : Game) (d : Dir) (i j : Z) (player : Symbol) : Game :=
  let g1 := complete g (d0 d) i j player in
  if in_scope cfg (i + d1 d) (j + d2 d)
  then complete g1 (d3 d) (i + d1 d) (j + d2 d) player
  else g1.

Definition free (g : Game) (d : Dir) (i j : Z) : bool :=
  Z.land (edges_at (board g) i j) (d0 d) =? 0.

(** [(i', j')] is the box on the other side of the segment [d] of [(i, j)]. *)
Definition neighbour (d : Dir) (i j i' j' : Z) : bool :=
  in_scope cfg (i + d1 d) (j + d2 d) && (i + d1 d =? i') && (j + d2 d =? j').

(** What [add_segment] returns for a slot of the board. *)
Definition slot_move (g : Game) (player : Symbol) (s : Dir * Z * Z) : option Game :=
  let '(d, i, j) := s in
  if free g d i j then Some (draw g d i j player) else None.

(** The opponent of a player. *)
Definition other (player : Symbol) : Symbol :=
  if sym_eqb player (MIN cfg) then MAX cfg else MIN cfg.

(** The bounds of the textbook algorithm after a child is scored, [best]
    being the best score so far: [alpha = max(alpha, best)] on a MAX node,
    [beta = min(beta, best)] on a MIN node. *)
Definition textbook_bounds (is_max : bool) (alpha beta best : Z) : Z * Z :=
  if is_max then (Z.max alpha best, beta) else (alpha, Z.min beta best).

(** What a caller reads of the move a search chose: the game, the player
    to move, the depth and the score of [next_state]. *)
Definition chosen (r : State) : option (Game * Symbol * Z * option Z) :=
  option_map (fun c => (game c, current_player c, depth c, score c)) (next_state r).

(** The static evaluations at the leaves of the tree that [min_max] walks
    from a state. *)
Fixpoint leaf_scores (fuel n : nat) (state : State) : list (outcome Z) :=
  if is_leaf cfg state then [estimate_score cfg fuel (game state)]
  else
    match n with
    | O => []
    | S n' =>
        match State_moves cfg state with
        | Ret moves => flat_map (leaf_scores fuel n') moves
        | _ => []
        end
    end.

(** The score of a player, as [open_boxes_2] selects it. *)
Definition player_score (g : Game) (player : Symbol) : Z :=
  if sym_eqb player (MIN cfg) then score_min g else score_max g.

(** *** Segments on the dot lattice

    A segment is addressed, as the human player does it, by a pair
    [(line, column)] of the lattice of [2 * LINES + 1] by [2 * COLUMNS + 1]
    points, exactly one coordinate being odd. *)

Definition on_lattice (line column : Z) : bool :=
  in_range line (2 * LINES cfg + 1) && in_range column (2 * COLUMNS cfg + 1)
  && ((line + column) mod 2 =? 1).

(** The bit [x] of the box [(i, j)], when that box is on the board. *)
Definition bit_set (b : Board) (i j x : Z) : bool :=
  in_scope cfg i j && negb (Z.land (edges_at b i j) x =? 0).

(** A segment is drawn when a box next to it records it: the box below or
    above a horizontal segment, the box right or left of a vertical one. *)
Definition segment_drawn (b : Board) (line column : Z) : bool :=
  if line mod 2 =? 0
  then bit_set b (line / 2) (column / 2) 8 || bit_set b (line / 2 - 1) (column / 2) 2
  else bit_set b (line / 2) (column / 2) 1 || bit_set b (line / 2) (column / 2 - 1) 4.

(** Every box of the board next to the segment records it. *)
Definition segment_on_both (b : Board) (line column : Z) : bool :=
  if line mod 2 =? 0
  then implb (in_scope cfg (line / 2) (column / 2))
             (bit_set b (line / 2) (column / 2) 8)
       && implb (in_scope cfg (line / 2 - 1) (column / 2))
                (bit_set b (line / 2 - 1) (column / 2) 2)
  else implb (in_scope cfg (line / 2) (column / 2))
             (bit_set b (line / 2) (column / 2) 1)
       && implb (in_scope cfg (line / 2) (column / 2 - 1))
                (bit_set b (line / 2) (column / 2 - 1) 4).

(** All the segments of the grid, and those not drawn yet. *)
Definition lattice_segments : list (Z * Z) :=
  List.filter (fun '(line, column) => (line + column) mod 2 =? 1)
    (list_prod (py_range (2 * LINES cfg + 1)) (py_range (2 * COLUMNS cfg + 1))).

Definition drawn_segments (b : Board) : list (Z * Z) :=
  List.filter (fun '(line, column) => segment_drawn b line column) lattice_segments.

Definition undrawn_segments (b : Board) : list (Z * Z) :=
  List.filter (fun '(line, column) => negb (segment_drawn b line column)) lattice_segments.

(** The lattice point of the segment [d] of the box [(i, j)]. *)
Definition slot_segment (s : Dir * Z * Z) : Z * Z :=
  let '(d, i, j) := s in (2 * i + 1 + d1 d, 2 * j + 1 + d2 d).

(** The box and direction from which a lattice point is drawn. *)
Definition slot_of (line column : Z) : Dir * Z * Z :=
  if line =? 2 * LINES cfg then (dir_down, LINES cfg - 1, column / 2)
  else if line mod 2 =? 0 then (dir_up, line / 2, column / 2)
  else if column =? 2 * COLUMNS cfg then (dir_right, line / 2, COLUMNS cfg - 1)
  else (dir_left, line / 2, column / 2).

(** One move of the game: a segment placed through [add_segment] by either
    player, a human move through [check_position], or the reset of
    [filled_box] that [run_algorithm] does after each turn. *)
Inductive step : Game -> Game -> Prop :=
| step_add g d i j player g' :
    In d all_dirs -> in_scope cfg i j = true ->
    add_segment cfg g d i j player = Ret (Some g') ->
    step g g'
| step_human st line column st' :
    check_position cfg line column st = Ret (true, st') ->
    step (game st) (game st')
| step_reset g :
    step g (mkGame (board g) (score_min g) (score_max g) false (last_segment g)).

Inductive reachable : Game -> Prop :=
| reach_new : reachable (new_Game cfg)
| reach_step g g' : reachable g -> step g g' -> reachable g'.

(** [read_lines_and_columns] accepts 2 to 8 dots a side. *)
Definition valid_config : Prop :=
  1 <= LINES cfg <= 7 /\ 1 <= COLUMNS cfg <= 7.

End Notions.

(** ** Example configurations and positions *)

(** The human plays ['X'], the default evaluator ([VAR = 2]) is in use. *)
Definition cfg_1x1 : Config := mkConfig 1 1 SymX 2.
Definition cfg_1x2 : Config := mkConfig 1 2 SymX 2.

(** One line of two boxes after the top segment of the left box is drawn. *)
Definition game_1x2_top : Game :=
  mkGame [[(8, None); (0, None)]] 0 0 false (Some (0, 0, SymX)).

(** The computer plays ['X'] and so moves first. *)
Definition cfg_1x1_O : Config := mkConfig 1 1 SymO 2.

(** One line of two boxes, three sides of the left box drawn, the computer
    (['O']) to move with two plies to search. *)
Definition search_root : State :=
  new_State (mkGame [[(11, None); (0, None)]] 0 0 false (Some (0, 0, SymX))) SymO 2.

(** Its child that closes the left box. *)
Definition search_child : State :=
  new_State (mkGame [[(15, Some SymO); (1, None)]] 0 1 true (Some (0, 0, SymO))) SymO 1.

(** One line of two boxes with every segment drawn but the shared one. *)
Definition game_1x2_shared : Game :=
  mkGame [[(11, None); (14, None)]] 0 0 false (Some (0, 1, SymX)).

(** ** The rest of the program *)

(** The direction that names the same segment from the box on its other
    side. *)
Definition opposite (d : Dir) : Dir := (d3 d, - d1 d, - d2 d, d0 d).

(** [(i, j)] is a pair of indices that Python accepts on a board of the
    configured size: negative ones count from the end. *)
Definition indexable (cfg : Config) (i j : Z) : Prop :=
  - LINES cfg <= i < LINES cfg /\ - COLUMNS cfg <= j < COLUMNS cfg.

(** *** Text and pictures *)

(** A [for] loop whose body updates the local variables [s] and may raise. *)
Fixpoint for_each {A S} (l : list A) (body : S -> A -> outcome S) (s : S) : outcome S :=
  match l with
  | [] => Ret s
  | x :: l' => let* s' := body s x in for_each l' body s'
  end.

(** ['\n'] *)
Definition newline : string := String "010"%char "".

(** The second component of a box as it is stored on the board: [' '], ['X']
    or ['O']. *)
Definition str_of_owner (o : option Symbol) : string :=
  match o with
  | None => " "
  | Some SymX => "X"
  | Some SymO => "O"
  end.

(** The images of [Graphics]: [dot], [horizontal_line], [vertical_line], [x]
    and [o]. *)
Inductive Image := img_dot | img_horizontal_line | img_vertical_line | img_x | img_o.

(** [Graphics.box_length] *)
Definition box_length : Z := 50.

(** [pygame.Rect(left, top, width, height)] *)
Definition Rect : Type := Z * Z * Z * Z.

(** One call of [screen.blit(image, (x, y))]. *)
Definition Blit : Type := Image * (Z * Z).

(** *** The console

    The lines that the user types are a list of strings: [input()] takes the
    first one, and raises EOFError when none is left. A function that reads
    the console returns its value together with the lines that are left. *)
Inductive reading (A : Type) :=
| Got (a : A) (rest : list string)
| EOFError
| Failed (e : PyExn)
| NoFuel.
Arguments Got {A} a rest.
Arguments EOFError {A}.
Arguments Failed {A} e.
Arguments NoFuel {A}.

(** A call that does not read. *)
Definition of_outcome {A} (m : outcome A) (rest : list string) : reading A :=
  match m with
  | Ret a => Got a rest
  | Raise e => Failed e
  | OutOfFuel => NoFuel
  end.

Section Program.

Variable cfg : Config.

(** Python's [int] on a string: [None] stands for its ValueError. *)
Variable py_int : string -> option Z.

(** [Game.__str__] *)
Definition Game_str (self : Game) : outcome string :=
  let* sir :=
    for_each (py_range (LINES cfg)) (fun sir i =>
      let* sir :=
        for_each (py_range (COLUMNS cfg)) (fun sir j =>
          let* box := get_box (board self) i j in
          Ret (sir +:+ (if Z.land (fst box) 8 =? 0 then "* " else "*-"))) sir in
      let sir := sir +:+ ("*" +:+ newline) in
      let* sir :=
        for_each (py_range (COLUMNS cfg)) (fun sir j =>
          let* box := get_box (board self) i j in
          let sir := sir +:+ (if Z.land (fst box) 1 =? 0 then " " else "|") in
          let* box := get_box (board self) i j in
          Ret (sir +:+ str_of_owner (snd box))) sir in
      let* box := get_box (board self) i (COLUMNS cfg - 1) in
      Ret (sir +:+ ((if Z.land (fst box) 4 =? 0 then " " else "|") +:+ newline))) "" in
  let* sir :=
    for_each (py_range (COLUMNS cfg)) (fun sir j =>
      let* box := get_box (board self) (LINES cfg - 1) j in
      Ret (sir +:+ (if Z.land (fst box) 2 =? 0 then "* " else "*-"))) sir in
  Ret (sir +:+ "*").

(** [State.__str__] *)
Definition State_str (self : State) : outcome string := Game_str (game self).

(** [display_box]: the call of [screen.blit] that it makes, if any. The
    conditions are evaluated in the order of the [if] chain, a board index
    only when Python reaches it. *)
Definition display_box (board : Board) (line column : Z) : outcome (option Blit) :=
  let shown (image : Image) : outcome (option Blit) :=
    Ret (Some (image, (column * box_length, line * box_length))) in
  if (line mod 2 =? 0) && (column mod 2 =? 0) then shown img_dot
  else
    let* horizontal :=
      (if line mod 2 =? 0 then
         if line =? 2 * LINES cfg then
           let* clear := bit_clear board (line / 2 - 1) (column / 2) 2 in Ret (negb clear)
         else
           let* clear := bit_clear board (line / 2) (column / 2) 8 in Ret (negb clear)
       else Ret false) in
    if horizontal then shown img_horizontal_line
    else
      let* vertical :=
        (if column mod 2 =? 0 then
           if column =? 2 * COLUMNS cfg then
             let* clear := bit_clear board (line / 2) (column / 2 - 1) 4 in
             Ret (negb clear)
           else
             let* clear := bit_clear board (line / 2) (column / 2) 1 in Ret (negb clear)
         else Ret false) in
      if vertical then shown img_vertical_line
      else
        let* is_x :=
          (if (line mod 2 =? column mod 2) && (column mod 2 =? 1) then
             let* box := get_box board (line / 2) (column / 2) in
             Ret (match snd box with Some SymX => true | _ => false end)
           else Ret false) in
        if is_x then shown img_x
        else
          let* is_o :=
            (if (line mod 2 =? column mod 2) && (column mod 2 =? 1) then
               let* box := get_box board (line / 2) (column / 2) in
               Ret (match snd box with Some SymO => true | _ => false end)
             else Ret false) in
          if is_o then shown img_o else Ret None.

(** [display_game_board]: the areas that it returns, and the images put on
    the screen after it was filled with white, in the order of the calls. *)
Definition display_game_board (board : Board) : outcome (list (list Rect) * list Blit) :=
  for_each (py_range (2 * LINES cfg + 1)) (fun '(boxes, screen) line =>
    let* '(box_line, screen) :=
      for_each (py_range (2 * COLUMNS cfg + 1)) (fun '(box_line, screen) column =>
        let area : Rect :=
          (column * (box_length + 1), line * (box_length + 1), box_length, box_length) in
        let* blit := display_box board line column in
        Ret (box_line ++ [area], screen ++ option_list blit)) ([], screen) in
    Ret (boxes ++ [box_line], screen)) ([], []).

(** [computer_turn]: the search returns the state it was given, updated, and
    [state.game] is then replaced by the game of its [next_state]; reading
    [.game] of a [next_state] that is [None] raises AttributeError. *)
Definition computer_turn (fuel n : nat) (state : State) (algorithm_type : string)
  : outcome State :=
  let* searched :=
    (if String.eqb algorithm_type "1" then min_max cfg fuel n state
     else alpha_beta cfg fuel n (-5000) 5000 state) in
  match next_state searched with
  | None => Raise AttributeError
  | Some next => Ret (with_game searched (game next))
  end.

(** [player_turn]: [Some state] when a segment was accepted, [None] when the
    player typed -1. A line that [int] rejects raises ValueError, which the
    handler catches: the loop starts again with the next line. No call below
    [check_position] raises a ValueError, so the handler sees no other. *)
Fixpoint player_turn (inputs : list string) (state : State) : reading (option State) :=
  match inputs with
  | [] => EOFError
  | s1 :: rest =>
      match py_int s1 with
      | None => player_turn rest state
      | Some line =>
          if line =? -1 then Got None rest
          else
            match rest with
            | [] => EOFError
            | s2 :: rest' =>
                match py_int s2 with
                | None => player_turn rest' state
                | Some column =>
                    if column =? -1 then Got None rest'
                    else
                      match check_position cfg line column state with
                      | Ret (true, state') => Got (Some state') rest'
                      | Ret (false, state') => player_turn rest' state'
                      | Raise e => Failed e
                      | OutOfFuel => NoFuel
                      end
                end
            end
      end
  end.

(** [print_if_final] *)
Definition print_if_final (state : State) : bool := truthy (final cfg (game state)).

(** The last two statements of the loop of [run_algorithm]:
    [state.current_player = state.next_player()] and
    [state.game.filled_box = False]. *)
Definition end_of_turn (state : State) : State :=
  mkState (mkGame (board (game state)) (score_min (game state)) (score_max (game state))
                  false (last_segment (game state)))
          (next_player cfg state) (depth state) (score state)
          (possible_moves state) (next_state state).

(** [run_algorithm] with [game_type] false, the game played on the console;
    with [game_type] true the turn of the human is [player_turn_graphic],
    which waits for the mouse and is not part of this model.
    It returns the two counters; the third component is the state object as
    the loop leaves it, which [main] reads afterwards. [turns] bounds the
    passes of the [while] loop. The clock and the text printed are left out.
    After a turn of the computer the fields [score], [possible_moves] and
    [next_state] hold what the search left (in Python the game of that
    [next_state] is the object [state.game] itself); a search from a state
    that is not a leaf replaces all three before it reads any of them. *)
Fixpoint run_algorithm (turns fuel n : nat) (algorithm_type : string)
    (inputs : list string) (state : State) (player_moves computer_moves : Z)
  : reading (Z * Z * State) :=
  match turns with
  | O => NoFuel
  | S turns' =>
      let moved : reading (option State * Z * Z) :=
        if sym_eqb (current_player state) (MIN cfg) then
          match player_turn inputs state with
          | Got played rest => Got (played, player_moves + 1, computer_moves) rest
          | EOFError => EOFError
          | Failed e => Failed e
          | NoFuel => NoFuel
          end
        else
          of_outcome
            (let* played := computer_turn fuel n state algorithm_type in
             Ret (Some played, player_moves, computer_moves + 1))
            inputs in
      match moved with
      | Got (None, player_moves, computer_moves) rest =>
          Got (player_moves, computer_moves, state) rest
      | Got (Some state, player_moves, computer_moves) rest =>
          match (let* boxes := display_game_board (board (game state)) in
                 State_str state) with
          | Ret _ =>
              let final := print_if_final state in
              let state := end_of_turn state in
              if final then Got (player_moves, computer_moves, state) rest
              else run_algorithm turns' fuel n algorithm_type rest state
                                 player_moves computer_moves
          | Raise e => Failed e
          | OutOfFuel => NoFuel
          end
      | EOFError => EOFError
      | Failed e => Failed e
      | NoFuel => NoFuel
      end
  end.

(** [read_difficulty] *)
Fixpoint read_difficulty (inputs : list string) : reading Z :=
  match inputs with
  | [] => EOFError
  | difficulty :: rest =>
      if String.eqb difficulty "1" then Got 1 rest
      else if String.eqb difficulty "2" then Got 2 rest
      else if String.eqb difficulty "3" then Got 3 rest
      else read_difficulty rest
  end.

(** [read_game_type]: true for the graphical interface. *)
Fixpoint read_game_type (inputs : list string) : reading bool :=
  match inputs with
  | [] => EOFError
  | game_type :: rest =>
      if String.eqb game_type "yes" then Got true rest
      else if String.eqb game_type "no" then Got false rest
      else read_game_type rest
  end.

(** [read_lines_and_columns]: the values that it gives to [Game.LINES] and
    [Game.COLUMNS]. *)
Fixpoint read_lines_and_columns (inputs : list string) : reading (Z * Z) :=
  match inputs with
  | [] => EOFError
  | s1 :: rest =>
      match py_int s1 with
      | None => read_lines_and_columns rest
      | Some lines =>
          match rest with
          | [] => EOFError
          | s2 :: rest' =>
              match py_int s2 with
              | None => read_lines_and_columns rest'
              | Some columns =>
                  if (lines <? 2) || (columns <? 2) then read_lines_and_columns rest'
                  else if (lines >? 8) || (columns >? 8) then read_lines_and_columns rest'
                  else Got (lines - 1, columns - 1) rest'
              end
          end
      end
  end.

End Program.

(** *** The picture of a game

    What the two displays are expected to show at the point [(line, column)]
    of the lattice: a dot where both coordinates are even, a segment where
    one is odd and the segment is drawn, the owner of a box where both are
    odd. *)

Section Picture.

Variable cfg : Config.

Definition picture_char (b : Board) (line column : Z) : ascii :=
  if line mod 2 =? 0 then
    if column mod 2 =? 0 then "*"%char
    else if segment_drawn cfg b line column then "-"%char else " "%char
  else
    if column mod 2 =? 0 then
      if segment_drawn cfg b line column then "|"%char else " "%char
    else
      match owner_at b (line / 2) (column / 2) with
      | None => " "%char
      | Some SymX => "X"%char
      | Some SymO => "O"%char
      end.

(** The lines of the text picture, from the top. *)
Definition picture (b : Board) : list string :=
  map (fun line =>
         String.string_of_list_ascii
           (map (picture_char b line) (py_range (2 * COLUMNS cfg + 1))))
      (py_range (2 * LINES cfg + 1)).

Definition picture_image (b : Board) (line column : Z) : option Image :=
  if line mod 2 =? 0 then
    if column mod 2 =? 0 then Some img_dot
    else if segment_drawn cfg b line column then Some img_horizontal_line else None
  else
    if column mod 2 =? 0 then
      if segment_drawn cfg b line column then Some img_vertical_line else None
    else
      match owner_at b (line / 2) (column / 2) with
      | None => None
      | Some SymX => Some img_x
      | Some SymO => Some img_o
      end.

End Picture.

(** An instance of [int] for the examples: decimal numerals with an optional
    minus sign. *)
Fixpoint digits (s : string) (acc : Z) : option Z :=
  match s with
  | EmptyString => Some acc
  | String c s' =>
      match Ascii.is_nat c with
      | Some d => digits s' (10 * acc + Z.of_nat d)
      | None => None
      end
  end.

Definition decimal (s : string) : option Z :=
  match s with
  | EmptyString => None
  | String "-"%char EmptyString => None
  | String "-"%char s' => option_map Z.opp (digits s' 0)
  | _ => digits s 0
  end.

(** A call returns or raises IndexError: it raises nothing else and does not
    depend on a bound of the model. *)
Definition index_error_only {A} (m : outcome A) : Prop :=
  match m with
  | Ret _ => True
  | Raise e => e = IndexError
  | OutOfFuel => False
  end.

(** The condition under which the loop of [open_boxes_2] is entered: the
    player is the one to move after the last segment. *)
Definition to_move (g : Game) (player : Symbol) : bool :=
  (last_player_is g player && filled_box g)
  || (negb (last_player_is g player) && negb (filled_box g)).

(** * Lemmas *)

Lemma sym_eqb_eq a b : sym_eqb a b = true <-> a = b.
Proof. destruct a, b; simpl; split; congruence. Qed.

Lemma sym_eqb_refl a : sym_eqb a a = true.
Proof. by destruct a. Qed.

Lemma MIN_MAX_neq cfg : sym_eqb (MAX cfg) (MIN cfg) = false.
Proof. unfold MAX. by destruct (MIN cfg). Qed.

Lemma MAX_MIN_neq cfg : sym_eqb (MIN cfg) (MAX cfg) = false.
Proof. unfold MAX. by destruct (MIN cfg). Qed.

Lemma sym_MIN_or_MAX cfg p : p = MIN cfg \/ p = MAX cfg.
Proof. unfold MAX. destruct p, (MIN cfg); simpl; auto. Qed.

Lemma bind_Ret {A B} (m : outcome A) (k : A -> outcome B) b :
  bind m k = Ret b <-> exists a, m = Ret a /\ k a = Ret b.
Proof.
  destruct m; simpl; split; try (intros (? & ? & ?)); try congruence; eauto.
Qed.

Lemma map_outcome_total {A B} (f : A -> outcome B) (g : A -> B) l :
  (forall x, In x l -> f x = Ret (g x)) -> map_outcome f l = Ret (map g l).
Proof.
  induction l as [|x l IH]; simpl; intros H; [done|].
  rewrite H by auto. simpl. rewrite IH by auto. done.
Qed.

(** ** Indexing a board that has its shape *)

Lemma py_index_nonneg len i :
  0 <= i < Z.of_nat len -> py_index len i = Some (Z.to_nat i).
Proof.
  intros H. unfold py_index.
  destruct (Z.leb_spec 0 i), (Z.ltb_spec i (Z.of_nat len)); simpl; try lia. done.
Qed.

Lemma getitem_lookup {A} (l : list A) i x :
  0 <= i -> l !! Z.to_nat i = Some x -> getitem l i = Ret x.
Proof.
  intros Hi Hl. unfold getitem.
  assert (Z.to_nat i < length l)%nat by (apply lookup_lt_is_Some; eauto).
  rewrite py_index_nonneg by lia. by rewrite Hl.
Qed.

Lemma setitem_lookup {A} (l : list A) i x y :
  0 <= i -> l !! Z.to_nat i = Some x -> setitem l i y = Ret (<[Z.to_nat i := y]> l).
Proof.
  intros Hi Hl. unfold setitem.
  assert (Z.to_nat i < length l)%nat by (apply lookup_lt_is_Some; eauto).
  by rewrite py_index_nonneg by lia.
Qed.

Section BoardLemmas.

Variable cfg : Config.

Lemma in_scope_iff i j :
  in_scope cfg i j = true <-> 0 <= i < LINES cfg /\ 0 <= j < COLUMNS cfg.
Proof. unfold in_scope. rewrite !andb_true_iff. lia. Qed.

Lemma in_scope_false i j :
  in_scope cfg i j = false <-> ~ (0 <= i < LINES cfg /\ 0 <= j < COLUMNS cfg).
Proof. rewrite <- in_scope_iff. destruct (in_scope cfg i j); split; congruence. Qed.

Lemma shaped_lookup b i j :
  shaped cfg b -> in_scope cfg i j = true ->
  exists row x, b !! Z.to_nat i = Some row /\ row !! Z.to_nat j = Some x /\
                length row = Z.to_nat (COLUMNS cfg).
Proof.
  intros [Hl Hr] Hs. apply in_scope_iff in Hs.
  destruct (lookup_lt_is_Some_2 b (Z.to_nat i)) as [row Hrow]; [lia|].
  assert (Hlen : length row = Z.to_nat (COLUMNS cfg)).
  { rewrite Forall_forall in Hr. apply Hr. eapply list_elem_of_lookup_2; eauto. }
  destruct (lookup_lt_is_Some_2 row (Z.to_nat j)) as [x Hx]; [lia|].
  eauto.
Qed.

Lemma get_box_in_scope b i j :
  shaped cfg b -> in_scope cfg i j = true -> get_box b i j = Ret (box_at b i j).
Proof.
  intros Hb Hs. destruct (shaped_lookup _ _ _ Hb Hs) as (row & x & Hr & Hx & _).
  apply in_scope_iff in Hs. unfold get_box, box_at.
  rewrite (getitem_lookup b i row) by (lia || done). simpl.
  rewrite (getitem_lookup row j x) by (lia || done). by rewrite Hr, Hx.
Qed.

Lemma set_box_in_scope b i j v :
  shaped cfg b -> in_scope cfg i j = true -> set_box b i j v = Ret (upd b i j v).
Proof.
  intros Hb Hs. destruct (shaped_lookup _ _ _ Hb Hs) as (row & x & Hr & Hx & _).
  apply in_scope_iff in Hs. unfold set_box, upd.
  rewrite (getitem_lookup b i row) by (lia || done). simpl.
  rewrite (setitem_lookup row j x v) by (lia || done). simpl.
  rewrite (setitem_lookup b i row) by (lia || done). f_equal.
  apply list_eq. intros n. rewrite list_lookup_alter, list_lookup_insert.
  repeat case_decide; subst; try lia; try by rewrite ?Hr.
  destruct H. split; [done|]. apply lookup_lt_is_Some; eauto.
Qed.

Lemma shaped_upd b i j v : shaped cfg b -> shaped cfg (upd b i j v).
Proof.
  intros [Hl Hr]. split; unfold upd; [by rewrite length_alter|].
  rewrite Forall_forall in *. intros row Hin.
  apply list_elem_of_lookup in Hin as [n Hn].
  rewrite list_lookup_alter in Hn. case_decide; subst.
  - destruct (b !! Z.to_nat i) as [r|] eqn:E; simplify_eq/=.
    rewrite length_insert. eapply Hr, list_elem_of_lookup_2; eauto.
  - eapply Hr, list_elem_of_lookup_2; eauto.
Qed.

Lemma box_at_upd b i j v i' j' :
  shaped cfg b -> in_scope cfg i j = true -> 0 <= i' -> 0 <= j' ->
  box_at (upd b i j v) i' j' = if (i =? i') && (j =? j') then v else box_at b i' j'.
Proof.
  intros Hb Hs Hi' Hj'. destruct (shaped_lookup _ _ _ Hb Hs) as (row & x & Hr & Hx & _).
  apply in_scope_iff in Hs. unfold box_at, upd.
  rewrite list_lookup_alter.
  destruct (Z.eqb_spec i i') as [->|Hne]; simpl.
  - rewrite decide_True by done. rewrite Hr. simpl.
    rewrite list_lookup_insert.
    destruct (Z.eqb_spec j j') as [->|Hne].
    + rewrite decide_True; [done|]. split; [done|]. apply lookup_lt_is_Some; eauto.
    + rewrite decide_False; [done|]. intros [? _]. lia.
  - rewrite decide_False by lia. done.
Qed.

End BoardLemmas.

(** ** Bits of the segment encoding *)

Ltac by_cases16 e :=
  let H := fresh in
  assert (H : e = 0 \/ e = 1 \/ e = 2 \/ e = 3 \/ e = 4 \/ e = 5 \/ e = 6 \/ e = 7 \/
              e = 8 \/ e = 9 \/ e = 10 \/ e = 11 \/ e = 12 \/ e = 13 \/ e = 14 \/ e = 15)
    by lia;
  repeat (destruct H as [H|H]); subst e.

Lemma land_add_bit e d x :
  0 <= e <= 15 -> is_bit d -> is_bit x -> Z.land e d = 0 ->
  0 <= e + d <= 15 /\
  Z.land (e + d) x = (if x =? d then d else Z.land e x).
Proof.
  intros He Hd Hx H0.
  by_cases16 e; destruct Hd as [-> | [-> | [-> | ->]]]; try discriminate H0;
    destruct Hx as [-> | [-> | [-> | ->]]]; (split; [lia|reflexivity]).
Qed.

Lemma land_15_full e : 0 <= e <= 15 -> (Z.land e 15 = 15 <-> e = 15).
Proof. intros He. by_cases16 e; vm_compute; split; congruence. Qed.

Lemma land_bit_full d : is_bit d -> Z.land 15 d = d.
Proof. by intros [-> | [-> | [-> | ->]]]. Qed.

Lemma not_full_free e :
  0 <= e <= 15 -> e <> 15 ->
  Z.land e 8 = 0 \/ Z.land e 1 = 0 \/ Z.land e 4 = 0 \/ Z.land e 2 = 0.
Proof. intros He Hne. by_cases16 e; vm_compute; tauto. Qed.

Lemma dir_cases d :
  In d all_dirs -> d = dir_up \/ d = dir_left \/ d = dir_right \/ d = dir_down.
Proof. simpl. intuition. Qed.

Lemma dir_bits d : In d all_dirs -> is_bit (d0 d) /\ is_bit (d3 d).
Proof.
  intros H. apply dir_cases in H as [-> | [-> | [-> | ->]]]; vm_compute; tauto.
Qed.

(** ** Counting owned boxes *)

Lemma zsum_insert {A} (f : A -> Z) l n x y :
  l !! n = Some x -> zsum f (<[n := y]> l) = zsum f l - f x + f y.
Proof.
  revert n. induction l as [|a l IH]; intros [|n] H; simplify_eq/=; [lia|].
  rewrite (IH n) by done. lia.
Qed.

Lemma zsum_alter {A} (f : A -> Z) (h : A -> A) l n x :
  l !! n = Some x -> zsum f (alter h n l) = zsum f l - f x + f (h x).
Proof.
  revert n. induction l as [|a l IH]; intros [|n] H; simplify_eq/=; [lia|].
  rewrite (IH n) by done. lia.
Qed.

Lemma zsum_bounds {A} (f : A -> Z) l lo hi :
  (forall x, x ∈ l -> lo <= f x <= hi) ->
  lo * Z.of_nat (length l) <= zsum f l <= hi * Z.of_nat (length l).
Proof.
  induction l as [|a l IH]; intros H; simpl; [lia|].
  specialize (IH (fun x Hx => H x (list_elem_of_further _ _ _ Hx))).
  specialize (H a (list_elem_of_here _ _)). lia.
Qed.

Lemma owned_range x : 0 <= owned x <= 1.
Proof. unfold owned. destruct (snd x); lia. Qed.

Section Invariant.

Variable cfg : Config.

Lemma owned_boxes_upd b i j v :
  shaped cfg b -> in_scope cfg i j = true ->
  owned_boxes (upd b i j v) = owned_boxes b - owned (box_at b i j) + owned v.
Proof.
  intros Hb Hs. destruct (shaped_lookup _ _ _ _ Hb Hs) as (row & x & Hr & Hx & _).
  unfold owned_boxes, upd, box_at. rewrite (zsum_alter _ _ _ _ row) by done.
  rewrite (zsum_insert _ _ _ x) by done. rewrite Hr, Hx. lia.
Qed.

Lemma owned_boxes_bounds b :
  shaped cfg b ->
  0 <= owned_boxes b <= Z.of_nat (Z.to_nat (LINES cfg)) * Z.of_nat (Z.to_nat (COLUMNS cfg)).
Proof.
  intros [Hl Hr]. unfold owned_boxes.
  pose proof (zsum_bounds (zsum owned) b 0 (Z.of_nat (Z.to_nat (COLUMNS cfg)))) as H.
  rewrite Hl in H. rewrite Forall_forall in Hr.
  assert (forall row, row ∈ b ->
            0 <= zsum owned row <= Z.of_nat (Z.to_nat (COLUMNS cfg))) as Hrow.
  { intros row Hin. pose proof (zsum_bounds owned row 0 1 (fun x _ => owned_range x)).
    rewrite (Hr row Hin) in *. lia. }
  specialize (H Hrow). lia.
Qed.

(** *** The calls on a box of the board never raise *)

Lemma complete_box_in_scope g d i j p :
  shaped cfg (board g) -> in_scope cfg i j = true ->
  complete_box cfg g d i j p = Ret (complete cfg g d i j p).
Proof.
  intros Hb Hs. unfold complete_box, complete, edges_at, owner_at.
  rewrite (get_box_in_scope cfg) by done. simpl.
  rewrite (set_box_in_scope cfg) by done. simpl.
  pose proof Hs as Hs'. apply in_scope_iff in Hs'.
  rewrite (get_box_in_scope cfg) by (done || by apply shaped_upd). simpl.
  rewrite (box_at_upd cfg) by (done || lia). rewrite !Z.eqb_refl. simpl.
  destruct (_ =? 15); [|done].
  rewrite (set_box_in_scope cfg) by (done || by apply shaped_upd). simpl.
  assert (upd (upd (board g) i j (fst (box_at (board g) i j) + d, snd (box_at (board g) i j)))
              i j (fst (box_at (board g) i j) + d, Some p)
          = upd (board g) i j (fst (box_at (board g) i j) + d, Some p)) as ->.
  { unfold upd. rewrite list_alter_alter_eq. apply list_alter_ext; [|done].
    intros row _. simpl. apply list_insert_insert_eq. }
  by destruct (sym_eqb p (MIN cfg)).
Qed.

Lemma complete_shaped g d i j p :
  shaped cfg (board g) -> shaped cfg (board (complete cfg g d i j p)).
Proof.
  intros Hb. unfold complete. destruct (_ =? 15); simpl; by apply shaped_upd.
Qed.

Lemma add_segment_in_scope g d i j p :
  shaped cfg (board g) -> in_scope cfg i j = true ->
  add_segment cfg g d i j p =
    Ret (if free g d i j then Some (draw cfg g d i j p) else None).
Proof.
  intros Hb Hs. unfold add_segment, free, draw, edges_at.
  rewrite (get_box_in_scope cfg) by done. simpl.
  destruct (_ =? 0); [|done].
  rewrite (complete_box_in_scope) by done. simpl.
  destruct (in_scope cfg (i + d1 d) (j + d2 d)) eqn:Hn; [|done].
  rewrite (complete_box_in_scope) by (done || by apply complete_shaped). done.
Qed.

(** *** What one call changes *)

Lemma complete_edges g bit i j p i' j' :
  shaped cfg (board g) -> in_scope cfg i j = true -> 0 <= i' -> 0 <= j' ->
  edges_at (board (complete cfg g bit i j p)) i' j' =
    if (i =? i') && (j =? j') then edges_at (board g) i j + bit
    else edges_at (board g) i' j'.
Proof.
  intros Hb Hs Hi Hj. unfold complete, edges_at.
  destruct (_ =? 15); simpl; rewrite (box_at_upd cfg) by done;
    by destruct ((i =? i') && (j =? j')).
Qed.

Lemma complete_owner g bit i j p i' j' :
  shaped cfg (board g) -> in_scope cfg i j = true -> 0 <= i' -> 0 <= j' ->
  owner_at (board (complete cfg g bit i j p)) i' j' =
    if (i =? i') && (j =? j') then
      (if Z.land (edges_at (board g) i j + bit) 15 =? 15 then Some p
       else owner_at (board g) i j)
    else owner_at (board g) i' j'.
Proof.
  intros Hb Hs Hi Hj. unfold complete, owner_at.
  destruct (_ =? 15); simpl; rewrite (box_at_upd cfg) by done;
    by destruct ((i =? i') && (j =? j')).
Qed.

Lemma free_not_full b i j bit :
  boxes_ok cfg b -> in_scope cfg i j = true -> is_bit bit ->
  Z.land (edges_at b i j) bit = 0 ->
  edges_at b i j <> 15 /\ owner_at b i j = None.
Proof.
  intros Hok Hs Hbit Hfree. destruct (Hok i j Hs) as [Hr Ho].
  assert (edges_at b i j <> 15) as Hne.
  { intros E. rewrite E, land_bit_full in Hfree by done.
    destruct Hbit as [-> | [-> | [-> | ->]]]; discriminate. }
  split; [done|]. destruct (owner_at b i j); [|done].
  destruct Hne. apply land_15_full; [done|]. by apply Ho.
Qed.

Lemma complete_boxes_ok g bit i j p :
  shaped cfg (board g) -> boxes_ok cfg (board g) -> in_scope cfg i j = true ->
  is_bit bit -> Z.land (edges_at (board g) i j) bit = 0 ->
  boxes_ok cfg (board (complete cfg g bit i j p)).
Proof.
  intros Hb Hok Hs Hbit Hfree i' j' Hs'.
  pose proof Hs' as Hr. apply in_scope_iff in Hr.
  rewrite complete_edges, complete_owner by (done || lia).
  destruct (Z.eqb_spec i i') as [<-|]; simpl; [|by apply Hok].
  destruct (Z.eqb_spec j j') as [<-|]; simpl; [|by apply Hok].
  destruct (free_not_full _ _ _ _ Hok Hs Hbit Hfree) as [Hne Hnone].
  destruct (Hok i j Hs) as [Hrange _].
  destruct (land_add_bit _ _ 8 Hrange Hbit ltac:(unfold is_bit; tauto) Hfree) as [Hr' _].
  split; [done|].
  destruct (Z.eqb_spec (Z.land (edges_at (board g) i j + bit) 15) 15) as [E|E].
  - split; [done|congruence].
  - rewrite Hnone. split; congruence.
Qed.

Lemma complete_scores g bit i j p :
  shaped cfg (board g) -> boxes_ok cfg (board g) -> scores_ok g ->
  in_scope cfg i j = true -> is_bit bit -> Z.land (edges_at (board g) i j) bit = 0 ->
  scores_ok (complete cfg g bit i j p).
Proof.
  intros Hb Hok (Hmin & Hmax & Hsum) Hs Hbit Hfree.
  destruct (free_not_full _ _ _ _ Hok Hs Hbit Hfree) as [Hne Hnone].
  unfold complete, scores_ok.
  destruct (_ =? 15); simpl; rewrite owned_boxes_upd by done;
    unfold owned, owner_at in *; rewrite Hnone; simpl;
    destruct (sym_eqb p (MIN cfg)); lia.
Qed.

Lemma complete_score_sum g bit i j p :
  let g' := complete cfg g bit i j p in
  (score_min g' = score_min g /\ score_max g' = score_max g
   /\ filled_box g' = filled_box g)
  \/ (filled_box g' = true /\
      score_min g' = score_min g + (if sym_eqb p (MIN cfg) then 1 else 0) /\
      score_max g' = score_max g + (if sym_eqb p (MIN cfg) then 0 else 1)).
Proof.
  unfold complete. destruct (_ =? 15); simpl; [right|left; done].
  destruct (sym_eqb p (MIN cfg)); split; (done || lia).
Qed.

Lemma draw_shaped g d i j p :
  shaped cfg (board g) -> shaped cfg (board (draw cfg g d i j p)).
Proof.
  intros Hb. unfold draw. destruct (in_scope cfg _ _); by repeat apply complete_shaped.
Qed.

Lemma dir_offset d : In d all_dirs -> d1 d <> 0 \/ d2 d <> 0.
Proof. intros H. apply dir_cases in H as [-> | [-> | [-> | ->]]]; cbn; lia. Qed.

Lemma draw_edges g d i j p i' j' :
  shaped cfg (board g) -> In d all_dirs -> in_scope cfg i j = true ->
  0 <= i' -> 0 <= j' ->
  edges_at (board (draw cfg g d i j p)) i' j' =
    edges_at (board g) i' j'
    + (if (i =? i') && (j =? j') then d0 d else 0)
    + (if neighbour cfg d i j i' j' then d3 d else 0).
Proof.
  intros Hb Hd Hs Hi Hj. unfold draw, neighbour.
  pose proof (dir_offset d Hd) as Hoff.
  destruct (in_scope cfg (i + d1 d) (j + d2 d)) eqn:Hn; simpl.
  - pose proof Hn as Hn'. apply in_scope_iff in Hn'.
    rewrite complete_edges by (done || by apply complete_shaped).
    rewrite !complete_edges by (done || lia).
    destruct (Z.eqb_spec (i + d1 d) i'), (Z.eqb_spec (j + d2 d) j'),
             (Z.eqb_spec i i'), (Z.eqb_spec j j'),
             (Z.eqb_spec i (i + d1 d)), (Z.eqb_spec j (j + d2 d)); simpl;
      subst; rewrite ?Z.add_0_r; (done || lia || congruence).
  - rewrite complete_edges by done.
    destruct (Z.eqb_spec i i'), (Z.eqb_spec j j'); simpl; subst; lia.
Qed.

Lemma neighbour_true d i j i' j' :
  neighbour cfg d i j i' j' = true <->
  in_scope cfg (i + d1 d) (j + d2 d) = true /\ i + d1 d = i' /\ j + d2 d = j'.
Proof. unfold neighbour. rewrite !andb_true_iff, !Z.eqb_eq. tauto. Qed.

Lemma draw_free g d i j p i' j' x :
  shaped cfg (board g) -> boxes_ok cfg (board g) -> mirrored cfg (board g) ->
  In d all_dirs -> in_scope cfg i j = true -> free g d i j = true ->
  in_scope cfg i' j' = true -> is_bit x ->
  0 <= edges_at (board (draw cfg g d i j p)) i' j' <= 15 /\
  (Z.land (edges_at (board (draw cfg g d i j p)) i' j') x = 0 <->
   Z.land (edges_at (board g) i' j') x = 0
   /\ ~ (i = i' /\ j = j' /\ x = d0 d)
   /\ ~ (neighbour cfg d i j i' j' = true /\ x = d3 d)).
Proof.
  intros Hb Hok Hmir Hd Hs Hfree Hs' Hx.
  unfold free in Hfree. apply Z.eqb_eq in Hfree.
  pose proof (dir_offset d Hd) as Hoff.
  destruct (dir_bits d Hd) as [Hb0 Hb3].
  assert (d0 d <> 0 /\ d3 d <> 0) as [Hz0 Hz3].
  { split; [destruct Hb0 as [-> | [-> | [-> | ->]]]
           |destruct Hb3 as [-> | [-> | [-> | ->]]]]; discriminate. }
  pose proof Hs' as Hr'. apply in_scope_iff in Hr'.
  rewrite draw_edges by (done || lia).
  destruct (neighbour cfg d i j i' j') eqn:Hnb.
  - apply neighbour_true in Hnb as (Hn & Ei & Ej).
    replace ((i =? i') && (j =? j')) with false
      by (symmetry; apply andb_false_iff; lia).
    rewrite Z.add_0_r. subst i' j'.
    destruct (Hok _ _ Hs') as [Hrange _].
    assert (Z.land (edges_at (board g) (i + d1 d) (j + d2 d)) (d3 d) = 0) as Hfree'
      by (by apply (Hmir d i j Hd Hs Hn)).
    destruct (land_add_bit _ _ x Hrange Hb3 Hx Hfree') as [Hr2 ->].
    split; [done|]. destruct (Z.eqb_spec x (d3 d)) as [->|Hne].
    + split; [done|]. intros (_ & _ & H). destruct H. done.
    + split; [|tauto]. intros H. split; [done|]. split; [lia|tauto].
  - destruct (Z.eqb_spec i i') as [<-|Hi]; simpl.
    + destruct (Z.eqb_spec j j') as [<-|Hj]; simpl.
      * rewrite Z.add_0_r. destruct (Hok _ _ Hs) as [Hrange _].
        destruct (land_add_bit _ _ x Hrange Hb0 Hx Hfree) as [Hr2 ->].
        split; [done|]. destruct (Z.eqb_spec x (d0 d)) as [->|Hne].
        -- split; [done|]. intros (_ & H & _). destruct H. done.
        -- split; [|tauto]. intros H. split; [done|]. split; [tauto|].
           intros [? _]. done.
      * rewrite !Z.add_0_r. split; [by apply Hok|].
        split; [|tauto]. intros H. split; [done|]. split; [lia|]. intros [? _]. done.
    + rewrite !Z.add_0_r. split; [by apply Hok|].
      split; [|tauto]. intros H. split; [done|]. split; [lia|]. intros [? _]. done.
Qed.

(** *** The invariant is kept by every segment placed on a free slot *)

Lemma draw_first_free g d i j p :
  shaped cfg (board g) -> mirrored cfg (board g) -> In d all_dirs ->
  in_scope cfg i j = true -> free g d i j = true ->
  in_scope cfg (i + d1 d) (j + d2 d) = true ->
  Z.land (edges_at (board (complete cfg g (d0 d) i j p)) (i + d1 d) (j + d2 d)) (d3 d) = 0.
Proof.
  intros Hb Hmir Hd Hs Hfree Hn. pose proof Hn as Hn'. apply in_scope_iff in Hn'.
  rewrite complete_edges by (done || lia).
  pose proof (dir_offset d Hd).
  replace ((i =? i + d1 d) && (j =? j + d2 d)) with false
    by (symmetry; apply andb_false_iff; lia).
  apply (Hmir d i j Hd Hs Hn). by apply Z.eqb_eq.
Qed.

Lemma draw_boxes_ok g d i j p :
  shaped cfg (board g) -> boxes_ok cfg (board g) -> mirrored cfg (board g) ->
  In d all_dirs -> in_scope cfg i j = true -> free g d i j = true ->
  boxes_ok cfg (board (draw cfg g d i j p)).
Proof.
  intros Hb Hok Hmir Hd Hs Hfree. destruct (dir_bits d Hd) as [Hb0 Hb3].
  assert (boxes_ok cfg (board (complete cfg g (d0 d) i j p))) as Hok1.
  { apply complete_boxes_ok; try done. by apply Z.eqb_eq. }
  unfold draw. destruct (in_scope cfg (i + d1 d) (j + d2 d)) eqn:Hn; [|done].
  apply complete_boxes_ok; try done; [by apply complete_shaped|].
  by apply draw_first_free.
Qed.

Lemma draw_scores g d i j p :
  shaped cfg (board g) -> boxes_ok cfg (board g) -> mirrored cfg (board g) ->
  scores_ok g -> In d all_dirs -> in_scope cfg i j = true -> free g d i j = true ->
  scores_ok (draw cfg g d i j p).
Proof.
  intros Hb Hok Hmir Hsc Hd Hs Hfree. destruct (dir_bits d Hd) as [Hb0 Hb3].
  assert (scores_ok (complete cfg g (d0 d) i j p)) as Hsc1.
  { apply complete_scores; try done. by apply Z.eqb_eq. }
  unfold draw. destruct (in_scope cfg (i + d1 d) (j + d2 d)) eqn:Hn; [|done].
  apply complete_scores; try done; [by apply complete_shaped| |by apply draw_first_free].
  apply complete_boxes_ok; try done. by apply Z.eqb_eq.
Qed.

Lemma draw_mirrored g d i j p :
  shaped cfg (board g) -> boxes_ok cfg (board g) -> mirrored cfg (board g) ->
  In d all_dirs -> in_scope cfg i j = true -> free g d i j = true ->
  mirrored cfg (board (draw cfg g d i j p)).
Proof.
  intros Hb Hok Hmir Hd Hs Hfree d' i' j' Hd' Hs' Hn'.
  destruct (dir_bits d' Hd') as [Hb0 Hb3].
  destruct (draw_free g d i j p i' j' (d0 d') Hb Hok Hmir Hd Hs Hfree Hs' Hb0) as [_ ->].
  destruct (draw_free g d i j p _ _ (d3 d') Hb Hok Hmir Hd Hs Hfree Hn' Hb3) as [_ ->].
  rewrite (Hmir d' i' j' Hd' Hs' Hn'). rewrite !neighbour_true.
  apply in_scope_iff in Hs, Hs', Hn'. rewrite !in_scope_iff.
  apply dir_cases in Hd as [-> | [-> | [-> | ->]]];
    apply dir_cases in Hd' as [-> | [-> | [-> | ->]]];
    unfold d0, d1, d2, d3 in *; simpl in *; lia.
Qed.

Lemma complete_last g bit i j p :
  last_segment (complete cfg g bit i j p) = Some (i, j, p).
Proof. unfold complete. by destruct (_ =? 15). Qed.

Lemma draw_wf g d i j p :
  wf cfg g -> In d all_dirs -> in_scope cfg i j = true -> free g d i j = true ->
  wf cfg (draw cfg g d i j p).
Proof.
  intros [Hb Hok Hmir Hsc Hl] Hd Hs Hfree. split.
  - by apply draw_shaped.
  - by apply draw_boxes_ok.
  - by apply draw_mirrored.
  - by apply draw_scores.
  - unfold last_ok, draw.
    destruct (in_scope cfg (i + d1 d) (j + d2 d)) eqn:Hn; by rewrite complete_last.
Qed.

Lemma draw_score_sum g d i j p :
  let g' := draw cfg g d i j p in
  score_min g <= score_min g' /\ score_max g <= score_max g' /\
  score_min g' + score_max g' <= score_min g + score_max g + 2 /\
  (if sym_eqb p (MIN cfg) then score_max g' = score_max g
   else score_min g' = score_min g).
Proof.
  unfold draw.
  pose proof (complete_score_sum g (d0 d) i j p) as H1.
  destruct (in_scope cfg (i + d1 d) (j + d2 d)).
  - pose proof (complete_score_sum (complete cfg g (d0 d) i j p) (d3 d)
                  (i + d1 d) (j + d2 d) p) as H2.
    simpl in *. destruct (sym_eqb p (MIN cfg)); lia.
  - simpl in *. destruct (sym_eqb p (MIN cfg)); lia.
Qed.

Lemma new_Game_lookup i j :
  in_scope cfg i j = true -> box_at (board (new_Game cfg)) i j = (0, None).
Proof.
  intros Hs. apply in_scope_iff in Hs. unfold box_at, new_Game. simpl.
  rewrite lookup_replicate_2 by lia. by rewrite lookup_replicate_2 by lia.
Qed.

Lemma zsum_replicate {A} (f : A -> Z) n x : f x = 0 -> zsum f (replicate n x) = 0.
Proof. intros H. induction n; simpl; lia. Qed.

Lemma new_Game_wf : wf cfg (new_Game cfg).
Proof.
  split.
  - split; simpl; [by rewrite length_replicate|].
    apply Forall_replicate. by rewrite length_replicate.
  - intros i j Hs. unfold edges_at, owner_at. rewrite new_Game_lookup by done.
    simpl. split; [lia|]. split; [done|discriminate].
  - intros d i j Hd Hs Hn. unfold edges_at. rewrite !new_Game_lookup by done.
    simpl. done.
  - repeat split; simpl; try lia. unfold owned_boxes.
    symmetry. apply zsum_replicate. by apply zsum_replicate.
  - done.
Qed.

End Invariant.

(** ** The human move *)

Ltac zdiv := Z.div_mod_to_equations; lia.
Ltac simpl_dirs := cbn [d0 d1 d2 d3 dir_up dir_left dir_right dir_down fst snd] in *.

Section Human.

Variable cfg : Config.
Hypothesis Hcfg : valid_config cfg.

Lemma on_lattice_iff line column :
  on_lattice cfg line column = true <->
  0 <= line <= 2 * LINES cfg /\ 0 <= column <= 2 * COLUMNS cfg /\
  (line + column) mod 2 = 1.
Proof.
  unfold on_lattice, in_range. rewrite !andb_true_iff, Z.eqb_eq. lia.
Qed.

Lemma slot_of_in_scope line column :
  on_lattice cfg line column = true ->
  let '(d, i, j) := slot_of cfg line column in
  In d all_dirs /\ in_scope cfg i j = true /\ slot_segment (d, i, j) = (line, column).
Proof using Hcfg.
  intros H. apply on_lattice_iff in H. destruct Hcfg as [HL HC]. unfold slot_of.
  destruct (Z.eqb_spec line (2 * LINES cfg));
    [|destruct (Z.eqb_spec (line mod 2) 0);
      [|destruct (Z.eqb_spec column (2 * COLUMNS cfg))]];
    (split; [simpl; tauto|]); rewrite in_scope_iff; unfold slot_segment;
    (split; [zdiv|]); cbn; f_equal; zdiv.
Qed.

Lemma bit_clear_in_scope b i j x :
  shaped cfg b -> in_scope cfg i j = true ->
  bit_clear b i j x = Ret (Z.land (edges_at b i j) x =? 0).
Proof. intros Hb Hs. unfold bit_clear. by rewrite (get_box_in_scope cfg). Qed.

Lemma complete_if_in_scope_eq g d i j :
  shaped cfg (board g) ->
  complete_if_in_scope cfg g d i j =
    Ret (if in_scope cfg i j then complete cfg g d i j (MIN cfg) else g).
Proof.
  intros Hb. unfold complete_if_in_scope.
  destruct (in_scope cfg i j) eqn:Hs; [|done]. by apply complete_box_in_scope.
Qed.

Lemma check_position_lattice st line column :
  shaped cfg (board (game st)) -> on_lattice cfg line column = true ->
  check_position cfg line column st =
    Ret (let '(d, i, j) := slot_of cfg line column in
         if free (game st) d i j
         then (true, with_game st (draw cfg (game st) d i j (MIN cfg)))
         else (false, st)).
Proof using Hcfg.
  intros Hb Hl. unfold check_position. fold (on_lattice cfg line column). rewrite Hl.
  apply on_lattice_iff in Hl. destruct Hcfg as [HL HC].
  unfold find_relative_position, slot_of, free, draw.
  destruct (Z.eqb_spec line (2 * LINES cfg)) as [E1|E1].
  - assert (line / 2 = LINES cfg) as -> by zdiv.
    assert (in_scope cfg (LINES cfg - 1) (column / 2) = true) as Hs
      by (apply in_scope_iff; zdiv).
    rewrite bit_clear_in_scope by done. simpl.
    destruct (_ =? 0); simpl; [|done].
    rewrite complete_if_in_scope_eq by done.
    replace (in_scope cfg (LINES cfg) (column / 2)) with false
      by (symmetry; apply in_scope_false; lia). simpl.
    rewrite complete_if_in_scope_eq by done. rewrite Hs. simpl. simpl_dirs.
    replace (in_scope cfg (LINES cfg - 1 + 1) (column / 2 + 0)) with false
      by (symmetry; apply in_scope_false; lia). done.
  - destruct (Z.eqb_spec (line mod 2) 0) as [E2|E2].
    + assert (in_scope cfg (line / 2) (column / 2) = true) as Hs
        by (apply in_scope_iff; zdiv).
      rewrite bit_clear_in_scope by done. simpl.
      destruct (_ =? 0); simpl; [|done].
      rewrite complete_if_in_scope_eq by done. rewrite Hs. simpl. simpl_dirs.
      rewrite complete_if_in_scope_eq by (by apply complete_shaped). simpl. simpl_dirs.
      rewrite Z.add_0_r. replace (line / 2 + -1) with (line / 2 - 1) by lia.
      by destruct (in_scope cfg (line / 2 - 1) (column / 2)).
    + destruct (Z.eqb_spec column (2 * COLUMNS cfg)) as [E3|E3].
      * assert (column / 2 = COLUMNS cfg) as -> by zdiv.
        assert (in_scope cfg (line / 2) (COLUMNS cfg - 1) = true) as Hs
          by (apply in_scope_iff; zdiv).
        rewrite bit_clear_in_scope by done. simpl.
        destruct (_ =? 0); simpl; [|done].
        rewrite complete_if_in_scope_eq by done.
        replace (in_scope cfg (line / 2) (COLUMNS cfg)) with false
          by (symmetry; apply in_scope_false; lia). simpl.
        rewrite complete_if_in_scope_eq by done. rewrite Hs. simpl. simpl_dirs.
        replace (in_scope cfg (line / 2 + 0) (COLUMNS cfg - 1 + 1)) with false
          by (symmetry; apply in_scope_false; lia). done.
      * assert (in_scope cfg (line / 2) (column / 2) = true) as Hs
          by (apply in_scope_iff; zdiv).
        rewrite bit_clear_in_scope by done. simpl.
        destruct (_ =? 0); simpl; [|done].
        rewrite complete_if_in_scope_eq by done. rewrite Hs. simpl. simpl_dirs.
        rewrite complete_if_in_scope_eq by (by apply complete_shaped). simpl. simpl_dirs.
        rewrite Z.add_0_r. replace (column / 2 + -1) with (column / 2 - 1) by lia.
        by destruct (in_scope cfg (line / 2) (column / 2 - 1)).
Qed.

Lemma check_position_off st line column :
  on_lattice cfg line column = false ->
  check_position cfg line column st = Ret (false, st).
Proof.
  intros Hl. unfold check_position. fold (on_lattice cfg line column). by rewrite Hl.
Qed.

End Human.

(** ** Reachable games *)

Section Reachable.

Variable cfg : Config.
Hypothesis Hcfg : valid_config cfg.

Lemma step_cases g g' :
  shaped cfg (board g) -> step cfg g g' ->
  (exists d i j p, In d all_dirs /\ in_scope cfg i j = true /\ free g d i j = true /\
                   add_segment cfg g d i j p = Ret (Some g') /\ g' = draw cfg g d i j p)
  \/ g' = mkGame (board g) (score_min g) (score_max g) false (last_segment g).
Proof using Hcfg.
  intros Hb Hstep. destruct Hstep as [g d i j p g' Hd Hs Hadd|st line column st' Hc|g].
  - left. exists d, i, j, p. rewrite add_segment_in_scope in Hadd |- * by done.
    destruct (free g d i j); simplify_eq. done.
  - left. destruct (on_lattice cfg line column) eqn:Hl.
    + rewrite check_position_lattice in Hc by done.
      pose proof (slot_of_in_scope cfg Hcfg line column Hl) as Hslot.
      destruct (slot_of cfg line column) as [[d i] j]. destruct Hslot as (Hd & Hs & _).
      exists d, i, j, (MIN cfg). rewrite add_segment_in_scope by done.
      destruct (free (game st) d i j); simplify_eq. done.
    + rewrite check_position_off in Hc by done. simplify_eq.
  - by right.
Qed.

Lemma step_wf g g' : wf cfg g -> step cfg g g' -> wf cfg g'.
Proof using Hcfg.
  intros Hwf Hstep.
  destruct (step_cases g g' (wf_shaped _ _ Hwf) Hstep)
    as [(d & i & j & p & Hd & Hs & Hfree & _ & ->)| ->].
  - by apply draw_wf.
  - destruct Hwf as [? ? ? ? ?]. by split.
Qed.

Lemma reachable_wf g : reachable cfg g -> wf cfg g.
Proof using Hcfg.
  induction 1 as [|g g' _ IH Hstep]; [apply new_Game_wf|]. by eapply step_wf.
Qed.

End Reachable.

(** C6. Every game reachable from the empty board keeps the invariant: a box
    has an owner exactly when its four bits are set, the two scores add up to
    the number of owned boxes, which is at most [LINES * COLUMNS], and a
    move that raises the sum of the scores is a segment placed by
    [add_segment]. *)
Theorem reachable_invariant cfg g :
  valid_config cfg -> reachable cfg g ->
  (forall i j, in_scope cfg i j = true ->
     (owner_at (board g) i j <> None <-> Z.land (edges_at (board g) i j) 15 = 15)) /\
  score_min g + score_max g = owned_boxes (board g) /\
  owned_boxes (board g) <= LINES cfg * COLUMNS cfg /\
  (forall g', step cfg g g' ->
     score_min g + score_max g <= score_min g' + score_max g' /\
     (score_min g + score_max g < score_min g' + score_max g' ->
      exists d i j p, add_segment cfg g d i j p = Ret (Some g'))).
Proof.
  intros Hcfg Hr. pose proof (reachable_wf cfg Hcfg g Hr) as [Hb Hok Hmir Hsc Hl].
  split; [|split; [|split]].
  - intros i j Hs. by apply Hok.
  - apply Hsc.
  - pose proof (owned_boxes_bounds cfg _ Hb). destruct Hcfg. lia.
  - intros g' Hstep.
    destruct (step_cases cfg Hcfg g g' Hb Hstep)
      as [(d & i & j & p & Hd & Hs & Hfree & Hadd & ->)| ->].
    + pose proof (draw_score_sum cfg g d i j p) as H. simpl in H.
      split; [lia|]. intros _. eauto.
    + simpl. split; lia.
Qed.

Lemma reachable_invariant_witness :
  valid_config cfg_1x2 /\ reachable cfg_1x2 game_1x2_top /\
  score_min game_1x2_top + score_max game_1x2_top = owned_boxes (board game_1x2_top).
Proof.
  assert (valid_config cfg_1x2) as Hcfg by (unfold valid_config; simpl; lia).
  assert (reachable cfg_1x2 game_1x2_top) as Hr.
  { apply (reach_step cfg_1x2 (new_Game cfg_1x2)); [apply reach_new|].
    apply (step_add cfg_1x2 _ dir_up 0 0 SymX); [simpl; tauto|reflexivity|reflexivity]. }
  split; [exact Hcfg|]. split; [exact Hr|].
  exact (proj1 (proj2 (reachable_invariant cfg_1x2 game_1x2_top Hcfg Hr))).
Defined.

(** ** Completing boxes *)

Lemma complete_box_scores cfg g d i j p g' :
  complete_box cfg g d i j p = Ret g' ->
  (score_min g' = score_min g /\ score_max g' = score_max g) \/
  (score_min g' + score_max g' = score_min g + score_max g + 1 /\
   score_min g <= score_min g' /\ score_max g <= score_max g').
Proof.
  unfold complete_box. intros H.
  apply bind_Ret in H as (box & _ & H). apply bind_Ret in H as (b1 & _ & H).
  apply bind_Ret in H as (box1 & _ & H).
  destruct (_ =? 15).
  - apply bind_Ret in H as (b2 & _ & H).
    destruct (sym_eqb p (MIN cfg)); simplify_eq; simpl; right; lia.
  - simplify_eq. simpl. by left.
Qed.

Lemma add_segment_scores cfg g d i j p g' :
  add_segment cfg g d i j p = Ret (Some g') ->
  exists k, (k = 0 \/ k = 1 \/ k = 2) /\
    score_min g' + score_max g' = score_min g + score_max g + k /\
    score_min g <= score_min g' /\ score_max g <= score_max g'.
Proof.
  unfold add_segment. intros H. apply bind_Ret in H as (box & _ & H).
  destruct (_ =? 0); [|discriminate].
  apply bind_Ret in H as (g1 & H1 & H). apply complete_box_scores in H1.
  destruct (in_scope cfg _ _).
  - apply bind_Ret in H as (g2 & H2 & H). apply complete_box_scores in H2.
    simplify_eq. exists (score_min g' + score_max g' - score_min g - score_max g). lia.
  - simplify_eq. exists (score_min g' + score_max g' - score_min g - score_max g). lia.
Qed.

(** C5. When a segment lies between two boxes that both have their three
    other segments drawn, [add_segment] for player [P] gives both boxes to
    [P], adds exactly 2 to the score of [P] and sets [filled_box]; and a
    single call of [add_segment], on any game, completes zero, one or two
    boxes. *)
Theorem shared_segment_completes_both cfg g d i j P :
  shaped cfg (board g) -> In d all_dirs ->
  in_scope cfg i j = true -> in_scope cfg (i + d1 d) (j + d2 d) = true ->
  edges_at (board g) i j = 15 - d0 d ->
  edges_at (board g) (i + d1 d) (j + d2 d) = 15 - d3 d ->
  (exists g', add_segment cfg g d i j P = Ret (Some g') /\
     owner_at (board g') i j = Some P /\
     owner_at (board g') (i + d1 d) (j + d2 d) = Some P /\
     player_score cfg g' P = player_score cfg g P + 2 /\
     score_min g' + score_max g' = score_min g + score_max g + 2 /\
     filled_box g' = true) /\
  (forall g0 d' i' j' p' g1,
     add_segment cfg g0 d' i' j' p' = Ret (Some g1) ->
     exists k, (k = 0 \/ k = 1 \/ k = 2) /\
       score_min g1 + score_max g1 = score_min g0 + score_max g0 + k /\
       score_min g0 <= score_min g1 /\ score_max g0 <= score_max g1).
Proof.
  intros Hb Hd Hs Hn He Hen. split; [|intros; by eapply add_segment_scores].
  pose proof (dir_offset d Hd) as Hoff.
  pose proof Hs as Hs'. pose proof Hn as Hn'. apply in_scope_iff in Hs', Hn'.
  exists (draw cfg g d i j P).
  assert (free g d i j = true) as Hfree.
  { unfold free. rewrite He.
    apply dir_cases in Hd as [-> | [-> | [-> | ->]]]; reflexivity. }
  rewrite add_segment_in_scope, Hfree by done. split; [done|].
  unfold draw. rewrite Hn.
  set (g1 := complete cfg g (d0 d) i j P).
  assert (shaped cfg (board g1)) as Hb1 by (by apply complete_shaped).
  assert (edges_at (board g1) (i + d1 d) (j + d2 d) = 15 - d3 d) as He1.
  { unfold g1. rewrite complete_edges by (done || lia).
    replace ((i =? i + d1 d) && (j =? j + d2 d)) with false
      by (symmetry; apply andb_false_iff; lia). done. }
  assert (owner_at (board g1) i j = Some P) as Ho1.
  { unfold g1. rewrite complete_owner by (done || lia).
    rewrite !Z.eqb_refl. simpl. rewrite He.
    replace (15 - d0 d + d0 d) with 15 by lia. done. }
  assert (score_min g1 + score_max g1 = score_min g + score_max g + 1 /\
          player_score cfg g1 P = player_score cfg g P + 1 /\
          filled_box g1 = true) as (Hsum1 & Hp1 & Hf1).
  { unfold g1, complete, player_score. rewrite He.
    replace (15 - d0 d + d0 d) with 15 by lia. simpl.
    destruct (sym_eqb P (MIN cfg)); simpl; lia. }
  split; [|split].
  - rewrite complete_owner by (done || lia).
    replace ((i + d1 d =? i) && (j + d2 d =? j)) with false
      by (symmetry; apply andb_false_iff; lia). done.
  - rewrite complete_owner by (done || lia).
    rewrite !Z.eqb_refl. simpl. rewrite He1.
    replace (15 - d3 d + d3 d) with 15 by lia. done.
  - unfold complete at 1 2 3 4. unfold player_score in *. rewrite He1.
    replace (15 - d3 d + d3 d) with 15 by lia. simpl.
    destruct (sym_eqb P (MIN cfg)); simpl; lia.
Qed.

Lemma shared_segment_completes_both_witness :
  exists g', add_segment cfg_1x2 game_1x2_shared dir_left 0 1 SymO = Ret (Some g') /\
    owner_at (board g') 0 1 = Some SymO /\
    owner_at (board g') 0 0 = Some SymO /\
    player_score cfg_1x2 g' SymO = player_score cfg_1x2 game_1x2_shared SymO + 2 /\
    score_min g' + score_max g' =
      score_min game_1x2_shared + score_max game_1x2_shared + 2 /\
    filled_box g' = true.
Proof.
  refine (proj1 (shared_segment_completes_both cfg_1x2 game_1x2_shared dir_left 0 1 SymO
                   _ _ _ _ _ _)).
  - split; [reflexivity|]. repeat constructor.
  - simpl. tauto.
  - reflexivity.
  - reflexivity.
  - reflexivity.
  - reflexivity.
Defined.

(** ** The move generator *)

Lemma extremum_loop_no_ValueError better best l :
  extremum_loop better best l <> Raise ValueError.
Proof.
  revert best. induction l as [|x l IH]; simpl; intros best; [done|].
  destruct (score x), (score best); (done || apply IH).
Qed.

Lemma in_py_range x n : In x (py_range n) <-> 0 <= x < n.
Proof.
  unfold py_range. rewrite in_map_iff. split.
  - intros (k & <- & Hk). apply in_seq in Hk. lia.
  - intros H. exists (Z.to_nat x). rewrite in_seq. lia.
Qed.

Lemma zsum_lt_exists {A} (f : A -> Z) l hi :
  (forall x, x ∈ l -> f x <= hi) -> zsum f l < hi * Z.of_nat (length l) ->
  exists n x, l !! n = Some x /\ f x < hi.
Proof.
  induction l as [|a l IH]; simpl; intros Hle Hlt; [lia|].
  destruct (Z_lt_dec (f a) hi) as [Ha|Ha].
  - by exists 0%nat, a.
  - destruct IH as (n & x & Hn & Hx).
    + intros x Hx. apply Hle. by apply list_elem_of_further.
    + pose proof (Hle a (list_elem_of_here _ _)). lia.
    + by exists (S n), x.
Qed.

Section Moves.

Variable cfg : Config.
Hypothesis Hcfg : valid_config cfg.

Lemma in_move_slots d i j :
  In (d, i, j) (move_slots cfg) <->
  in_scope cfg i j = true /\
  (d = dir_up \/ d = dir_left \/ (d = dir_right /\ j = COLUMNS cfg - 1)
   \/ (d = dir_down /\ i = LINES cfg - 1)).
Proof using Hcfg.
  destruct Hcfg as [HL HC]. unfold move_slots.
  rewrite in_app_iff, in_flat_map, in_map_iff, in_scope_iff. split.
  - intros [(i' & Hi & H)|(j' & E & Hj)].
    + apply in_py_range in Hi. apply in_app_iff in H as [H|[H|[]]].
      * apply in_flat_map in H as (j' & Hj & [H|[H|[]]]); apply in_py_range in Hj;
          simplify_eq; split; (lia || tauto).
      * simplify_eq. split; [lia|tauto].
    + apply in_py_range in Hj. simplify_eq. split; [lia|tauto].
  - intros [Hs [->|[->|[[-> ->]|[-> ->]]]]].
    + left. exists i. rewrite in_py_range, in_app_iff, in_flat_map. split; [lia|].
      left. exists j. rewrite in_py_range. simpl. split; [lia|tauto].
    + left. exists i. rewrite in_py_range, in_app_iff, in_flat_map. split; [lia|].
      left. exists j. rewrite in_py_range. simpl. split; [lia|tauto].
    + left. exists i. rewrite in_py_range, in_app_iff. split; [lia|].
      right. simpl. tauto.
    + right. exists j. rewrite in_py_range. split; [done|lia].
Qed.

Lemma move_slots_in_scope s :
  In s (move_slots cfg) -> In (fst (fst s)) all_dirs /\ in_scope cfg (snd (fst s)) (snd s) = true.
Proof using Hcfg.
  destruct s as [[d i] j]. rewrite in_move_slots. simpl. intuition.
Qed.

Lemma Game_moves_shaped g player :
  shaped cfg (board g) ->
  Game_moves cfg g player = Ret (map (slot_move cfg g player) (move_slots cfg)).
Proof using Hcfg.
  intros Hb. unfold Game_moves. apply map_outcome_total.
  intros [[d i] j] Hin. apply move_slots_in_scope in Hin as [_ Hs]. simpl in Hs.
  by apply add_segment_in_scope.
Qed.

Lemma State_moves_shaped st :
  shaped cfg (board (game st)) ->
  State_moves cfg st =
    Ret (flat_map (child_of cfg st)
           (map (slot_move cfg (game st) (current_player st)) (move_slots cfg))).
Proof using Hcfg.
  intros Hb. unfold State_moves. by rewrite Game_moves_shaped.
Qed.

Lemma unowned_box g :
  wf cfg g -> score_min g + score_max g < LINES cfg * COLUMNS cfg ->
  exists i j, in_scope cfg i j = true /\ owner_at (board g) i j = None.
Proof using Hcfg.
  intros [[Hl Hr] Hok Hmir (_ & _ & Hsum) _] Hlt. destruct Hcfg as [HL HC].
  rewrite Hsum in Hlt. unfold owned_boxes in Hlt. rewrite Forall_forall in Hr.
  destruct (zsum_lt_exists (zsum owned) (board g) (COLUMNS cfg)) as (n & row & Hn & Hrow).
  { intros row Hin. pose proof (zsum_bounds owned row 0 1 (fun x _ => owned_range x)).
    rewrite (Hr row Hin) in *. lia. }
  { rewrite Hl. lia. }
  destruct (zsum_lt_exists owned row 1) as (m & x & Hm & Hx).
  { intros x _. apply owned_range. }
  { rewrite (Hr row) by (by eapply list_elem_of_lookup_2). lia. }
  exists (Z.of_nat n), (Z.of_nat m).
  apply lookup_lt_Some in Hn as Hn', Hm as Hm'.
  rewrite (Hr row) in Hm' by (by eapply list_elem_of_lookup_2).
  split; [apply in_scope_iff; lia|].
  unfold owner_at, box_at. rewrite !Nat2Z.id, Hn, Hm.
  unfold owned in Hx. destruct (snd x); [lia|done].
Qed.

Lemma free_slot_exists g :
  wf cfg g -> score_min g + score_max g < LINES cfg * COLUMNS cfg ->
  exists d i j, In (d, i, j) (move_slots cfg) /\ free g d i j = true.
Proof using Hcfg.
  intros Hwf Hlt. destruct (unowned_box g Hwf Hlt) as (i & j & Hs & Hnone).
  destruct Hwf as [Hb Hok Hmir _ _]. destruct (Hok i j Hs) as [Hrange Hown].
  assert (edges_at (board g) i j <> 15) as Hne.
  { intros E. rewrite Hnone, E in Hown. by apply Hown. }
  pose proof Hs as Hs'. apply in_scope_iff in Hs'.
  destruct (not_full_free _ Hrange Hne) as [H|[H|[H|H]]].
  - exists dir_up, i, j. rewrite in_move_slots. unfold free. simpl_dirs.
    rewrite H. tauto.
  - exists dir_left, i, j. rewrite in_move_slots. unfold free. simpl_dirs.
    rewrite H. tauto.
  - destruct (Z.eq_dec j (COLUMNS cfg - 1)) as [->|Hj].
    + exists dir_right, i, (COLUMNS cfg - 1). rewrite in_move_slots. unfold free.
      simpl_dirs. rewrite H. tauto.
    + assert (in_scope cfg (i + d1 dir_right) (j + d2 dir_right) = true) as Hn
        by (apply in_scope_iff; simpl_dirs; lia).
      pose proof (Hmir dir_right i j ltac:(simpl; tauto) Hs Hn) as Hm.
      simpl_dirs. apply Hm in H. rewrite Z.add_0_r in *.
      exists dir_left, i, (j + 1). rewrite in_move_slots. unfold free. simpl_dirs.
      rewrite H. tauto.
  - destruct (Z.eq_dec i (LINES cfg - 1)) as [->|Hi].
    + exists dir_down, (LINES cfg - 1), j. rewrite in_move_slots. unfold free.
      simpl_dirs. rewrite H. tauto.
    + assert (in_scope cfg (i + d1 dir_down) (j + d2 dir_down) = true) as Hn
        by (apply in_scope_iff; simpl_dirs; lia).
      pose proof (Hmir dir_down i j ltac:(simpl; tauto) Hs Hn) as Hm.
      simpl_dirs. apply Hm in H. rewrite Z.add_0_r in *.
      exists dir_up, (i + 1), j. rewrite in_move_slots. unfold free. simpl_dirs.
      rewrite H. tauto.
Qed.

End Moves.

(** ** Lists without duplicates *)

Lemma NoDup_app_In {A} (l1 l2 : list A) :
  NoDup l1 -> NoDup l2 -> (forall a, In a l1 -> In a l2 -> False) -> NoDup (l1 ++ l2).
Proof.
  induction 1 as [|a l1 Ha H1 IH]; simpl; intros H2 Hd; [done|].
  constructor.
  - rewrite list_elem_of_In, in_app_iff. rewrite list_elem_of_In in Ha.
    intros [?|?]; [done|]. eapply Hd; eauto.
  - apply IH; [done|]. intros x ? ?. eapply Hd; eauto.
Qed.

Lemma NoDup_flat_map_In {A B} (f : A -> list B) l :
  NoDup l -> (forall x, In x l -> NoDup (f x)) ->
  (forall x y z, In x l -> In y l -> In z (f x) -> In z (f y) -> x = y) ->
  NoDup (flat_map f l).
Proof.
  induction 1 as [|a l Ha Hl IH]; simpl; intros Hf Hd; [constructor|].
  apply NoDup_app_In.
  - apply Hf. auto.
  - apply IH; [intros; apply Hf; auto|]. intros x y z ? ? ? ?. eapply Hd; eauto.
  - intros z Hz1 Hz2. apply in_flat_map in Hz2 as (y & Hy & Hz2).
    assert (a = y) as -> by (eapply Hd; eauto).
    apply Ha. by apply list_elem_of_In.
Qed.

Lemma NoDup_map_In {A B} (f : A -> B) l :
  NoDup l -> (forall x y, In x l -> In y l -> f x = f y -> x = y) -> NoDup (map f l).
Proof.
  induction 1 as [|a l Ha Hl IH]; simpl; intros Hinj; constructor.
  - rewrite list_elem_of_In, in_map_iff. intros (y & E & Hy).
    assert (a = y) as -> by (apply Hinj; auto). apply Ha. by apply list_elem_of_In.
  - apply IH. intros; apply Hinj; auto.
Qed.

Lemma NoDup_py_range n : NoDup (py_range n).
Proof.
  unfold py_range. apply NoDup_map_In; [apply NoDup_seq|]. intros; lia.
Qed.

Lemma NoDup_filter_bool {A} (f : A -> bool) l : NoDup l -> NoDup (List.filter f l).
Proof.
  induction 1 as [|a l Ha Hl IH]; simpl; [constructor|].
  destruct (f a); [|done]. constructor; [|done].
  rewrite list_elem_of_In, filter_In. rewrite list_elem_of_In in Ha. tauto.
Qed.

Lemma NoDup_list_prod {A B} (l : list A) (k : list B) :
  NoDup l -> NoDup k -> NoDup (list_prod l k).
Proof.
  intros Hl Hk. induction Hl as [|a l Ha Hl IH]; simpl; [constructor|].
  apply NoDup_app_In; [|done|].
  - apply NoDup_map_In; [done|]. intros; congruence.
  - intros [x y] H1 H2. apply in_map_iff in H1 as (? & [= <- <-] & _).
    apply in_prod_iff in H2 as [H2 _]. apply Ha. by apply list_elem_of_In.
Qed.

Lemma Forall2_map_same {A B C} (P : B -> C -> Prop) (f : A -> B) (h : A -> C) l :
  (forall x, In x l -> P (f x) (h x)) -> Forall2 P (map f l) (map h l).
Proof. induction l; simpl; intros H; constructor; auto. Qed.

Lemma length_flat_map_const {A B} (f : A -> list B) l k :
  (forall x, length (f x) = k) -> length (flat_map f l) = (k * length l)%nat.
Proof.
  intros H. induction l as [|a l IH]; simpl; [lia|].
  rewrite length_app, H, IH. lia.
Qed.

Lemma filter_split_length {A} (f : A -> bool) l :
  (length (List.filter f l) + length (List.filter (fun x => negb (f x)) l) = length l)%nat.
Proof. induction l as [|a l IH]; simpl; [done|]. destruct (f a); simpl; lia. Qed.

Lemma flat_map_option_filter {A B C} (f : B -> C) (h : A -> option B) (keep : A -> bool)
    (k : A -> B) (l : list A) :
  (forall x, h x = if keep x then Some (k x) else None) ->
  flat_map (fun o => match o with Some y => [f y] | None => [] end) (map h l)
  = map (fun x => f (k x)) (List.filter keep l).
Proof.
  intros H. induction l as [|a l IH]; simpl; [done|].
  rewrite H. destruct (keep a); simpl; by rewrite IH.
Qed.

(** ** Segments *)

Lemma orb_swap4 a x b y : a || x || (b || y) = a || b || (x || y).
Proof. by destruct a, x, b, y. Qed.

Section Segments.

Variable cfg : Config.
Hypothesis Hcfg : valid_config cfg.

Lemma bit_set_draw g d i j p i' j' x :
  wf cfg g -> In d all_dirs -> in_scope cfg i j = true -> free g d i j = true ->
  is_bit x ->
  bit_set cfg (board (draw cfg g d i j p)) i' j' x =
    bit_set cfg (board g) i' j' x
    || (in_scope cfg i' j'
        && (((i =? i') && (j =? j') && (x =? d0 d))
            || (neighbour cfg d i j i' j' && (x =? d3 d)))).
Proof.
  intros [Hb Hok Hmir _ _] Hd Hs Hfree Hx. unfold bit_set.
  destruct (in_scope cfg i' j') eqn:Hs'; simpl; [|done].
  destruct (draw_free cfg g d i j p i' j' x Hb Hok Hmir Hd Hs Hfree Hs' Hx) as [_ Hiff].
  apply eq_true_iff_eq.
  rewrite negb_true_iff, Z.eqb_neq, Hiff, !orb_true_iff, !andb_true_iff,
    negb_true_iff, Z.eqb_neq, !Z.eqb_eq.
  destruct (Z.eq_dec (Z.land (edges_at (board g) i' j') x) 0), (Z.eq_dec i i'),
    (Z.eq_dec j j'), (Z.eq_dec x (d0 d)), (Z.eq_dec x (d3 d)),
    (neighbour cfg d i j i' j'); intuition congruence.
Qed.

Lemma segment_drawn_draw g d i j p line column :
  wf cfg g -> In d all_dirs -> in_scope cfg i j = true -> free g d i j = true ->
  (line + column) mod 2 = 1 ->
  segment_drawn cfg (board (draw cfg g d i j p)) line column =
    segment_drawn cfg (board g) line column
    || ((line =? 2 * i + 1 + d1 d) && (column =? 2 * j + 1 + d2 d)).
Proof.
  intros Hwf Hd Hs Hfree Hodd. unfold segment_drawn.
  destruct (Z.eqb_spec (line mod 2) 0) as [Hpar|Hpar];
    rewrite !bit_set_draw by (done || unfold is_bit; tauto);
    rewrite orb_swap4; f_equal; apply eq_true_iff_eq;
    rewrite ?orb_true_iff, ?andb_true_iff, ?orb_true_iff, ?andb_true_iff,
      ?neighbour_true, ?in_scope_iff, ?Z.eqb_eq;
    apply in_scope_iff in Hs;
    apply dir_cases in Hd as [-> | [-> | [-> | ->]]]; simpl_dirs; zdiv.
Qed.

Lemma segment_drawn_slot g line column :
  wf cfg g -> on_lattice cfg line column = true ->
  segment_drawn cfg (board g) line column =
    (let '(d, i, j) := slot_of cfg line column in negb (free g d i j)).
Proof using Hcfg.
  intros [Hb Hok Hmir _ _] Hl. apply on_lattice_iff in Hl. destruct Hcfg as [HL HC].
  unfold segment_drawn, slot_of, free, bit_set.
  destruct (Z.eqb_spec line (2 * LINES cfg)) as [E1|E1].
  - replace (line mod 2 =? 0) with true by (symmetry; apply Z.eqb_eq; zdiv).
    replace (in_scope cfg (line / 2) (column / 2)) with false
      by (symmetry; apply in_scope_false; zdiv).
    replace (line / 2 - 1) with (LINES cfg - 1) by zdiv.
    replace (in_scope cfg (LINES cfg - 1) (column / 2)) with true
      by (symmetry; apply in_scope_iff; zdiv). done.
  - destruct (Z.eqb_spec (line mod 2) 0) as [E2|E2].
    + assert (in_scope cfg (line / 2) (column / 2) = true) as Hs
        by (apply in_scope_iff; zdiv).
      rewrite Hs. simpl_dirs. simpl.
      destruct (in_scope cfg (line / 2 - 1) (column / 2)) eqn:Hn; simpl;
        [|by rewrite orb_false_r].
      pose proof (Hmir dir_up (line / 2) (column / 2) ltac:(simpl; tauto) Hs) as Hm.
      simpl_dirs. rewrite Z.add_0_r in Hm. specialize (Hm Hn).
      destruct (Z.eqb_spec (Z.land (edges_at (board g) (line / 2) (column / 2)) 8) 0),
               (Z.eqb_spec (Z.land (edges_at (board g) (line / 2 - 1) (column / 2)) 2) 0);
        simpl; tauto.
    + destruct (Z.eqb_spec column (2 * COLUMNS cfg)) as [E3|E3].
      * replace (in_scope cfg (line / 2) (column / 2)) with false
          by (symmetry; apply in_scope_false; zdiv).
        replace (column / 2 - 1) with (COLUMNS cfg - 1) by zdiv.
        replace (in_scope cfg (line / 2) (COLUMNS cfg - 1)) with true
          by (symmetry; apply in_scope_iff; zdiv). done.
      * assert (in_scope cfg (line / 2) (column / 2) = true) as Hs
          by (apply in_scope_iff; zdiv).
        rewrite Hs. simpl_dirs. simpl.
        destruct (in_scope cfg (line / 2) (column / 2 - 1)) eqn:Hn; simpl;
          [|by rewrite orb_false_r].
        pose proof (Hmir dir_left (line / 2) (column / 2) ltac:(simpl; tauto) Hs) as Hm.
        simpl_dirs. rewrite Z.add_0_r in Hm. specialize (Hm Hn).
        destruct (Z.eqb_spec (Z.land (edges_at (board g) (line / 2) (column / 2)) 1) 0),
                 (Z.eqb_spec (Z.land (edges_at (board g) (line / 2) (column / 2 - 1)) 4) 0);
          simpl; tauto.
Qed.

Lemma slot_of_in_move_slots line column :
  on_lattice cfg line column = true -> In (slot_of cfg line column) (move_slots cfg).
Proof using Hcfg.
  intros Hl. pose proof (slot_of_in_scope cfg Hcfg line column Hl) as H.
  unfold slot_of in *.
  destruct (line =? 2 * LINES cfg); [|destruct (line mod 2 =? 0);
    [|destruct (column =? 2 * COLUMNS cfg)]];
    apply (in_move_slots cfg Hcfg); tauto.
Qed.

Lemma slot_of_segment d i j :
  In (d, i, j) (move_slots cfg) ->
  on_lattice cfg (2 * i + 1 + d1 d) (2 * j + 1 + d2 d) = true /\
  slot_of cfg (2 * i + 1 + d1 d) (2 * j + 1 + d2 d) = (d, i, j).
Proof using Hcfg.
  intros H. apply (in_move_slots cfg Hcfg) in H as [Hs H]. apply in_scope_iff in Hs.
  rewrite on_lattice_iff. unfold slot_of.
  destruct H as [->|[->|[[-> ->]|[-> ->]]]]; simpl_dirs;
    (split; [zdiv|]);
    repeat match goal with
           | |- context [Z.eqb ?a ?b] => destruct (Z.eqb_spec a b)
           end;
    try (exfalso; zdiv); repeat f_equal; zdiv.
Qed.

Lemma NoDup_move_slots : NoDup (move_slots cfg).
Proof.
  unfold move_slots. apply NoDup_app_In.
  - apply NoDup_flat_map_In; [apply NoDup_py_range| |].
    + intros i _. apply NoDup_app_In.
      * apply NoDup_flat_map_In; [apply NoDup_py_range| |].
        -- intros j _.
           repeat (constructor; [rewrite list_elem_of_In; simpl; intuition discriminate|]).
           constructor.
        -- intros j j' z _ _ Hz Hz'. simpl in *. intuition congruence.
      * repeat (constructor; [rewrite list_elem_of_In; simpl; intuition discriminate|]).
        constructor.
      * intros z Hz [<-|[]]. apply in_flat_map in Hz as (j & _ & Hz).
        simpl in Hz. intuition discriminate.
    + intros i i' z _ _ Hz Hz'.
      assert (forall k, In z (flat_map (fun j => [(dir_up, k, j); (dir_left, k, j)])
                                (py_range (COLUMNS cfg))
                              ++ [(dir_right, k, COLUMNS cfg - 1)]) ->
                        snd (fst z) = k) as Hk.
      { intros k Hin. apply in_app_iff in Hin as [Hin|[<-|[]]]; [|done].
        apply in_flat_map in Hin as (j & _ & [<-|[<-|[]]]); done. }
      rewrite <- (Hk i Hz). by apply Hk.
  - apply NoDup_map_In; [apply NoDup_py_range|]. intros; congruence.
  - intros z Hz Hz'. apply in_map_iff in Hz' as (j & <- & _).
    apply in_flat_map in Hz as (i & _ & Hz). apply in_app_iff in Hz as [Hz|[Hz|[]]].
    + apply in_flat_map in Hz as (j' & _ & [Hz|[Hz|[]]]); discriminate.
    + discriminate.
Qed.

Lemma segment_on_both_drawn g line column :
  wf cfg g -> on_lattice cfg line column = true ->
  segment_on_both cfg (board g) line column = segment_drawn cfg (board g) line column.
Proof using Hcfg.
  intros [Hb Hok Hmir _ _] Hl. apply on_lattice_iff in Hl. destruct Hcfg as [HL HC].
  unfold segment_on_both, segment_drawn, bit_set.
  destruct (Z.eqb_spec (line mod 2) 0) as [E|E].
  - destruct (in_scope cfg (line / 2) (column / 2)) eqn:H1,
             (in_scope cfg (line / 2 - 1) (column / 2)) eqn:H2; simpl.
    + pose proof (Hmir dir_up (line / 2) (column / 2) ltac:(simpl; tauto) H1) as Hm.
      simpl_dirs. rewrite Z.add_0_r in Hm. specialize (Hm H2).
      destruct (Z.eqb_spec (Z.land (edges_at (board g) (line / 2) (column / 2)) 8) 0),
               (Z.eqb_spec (Z.land (edges_at (board g) (line / 2 - 1) (column / 2)) 2) 0);
        simpl; tauto.
    + by rewrite andb_true_r, orb_false_r.
    + done.
    + apply in_scope_false in H1, H2. zdiv.
  - destruct (in_scope cfg (line / 2) (column / 2)) eqn:H1,
             (in_scope cfg (line / 2) (column / 2 - 1)) eqn:H2; simpl.
    + pose proof (Hmir dir_left (line / 2) (column / 2) ltac:(simpl; tauto) H1) as Hm.
      simpl_dirs. rewrite Z.add_0_r in Hm. specialize (Hm H2).
      destruct (Z.eqb_spec (Z.land (edges_at (board g) (line / 2) (column / 2)) 1) 0),
               (Z.eqb_spec (Z.land (edges_at (board g) (line / 2) (column / 2 - 1)) 4) 0);
        simpl; tauto.
    + by rewrite andb_true_r, orb_false_r.
    + done.
    + apply in_scope_false in H1, H2. zdiv.
Qed.

Lemma odd_sum line column :
  (line + column) mod 2 = 1 <-> Z.odd line <> Z.odd column.
Proof.
  rewrite Zmod_odd, Z.odd_add.
  destruct (Z.odd line), (Z.odd column); simpl; split; (congruence || lia).
Qed.

Lemma in_lattice_segments line column :
  In (line, column) (lattice_segments cfg) <-> on_lattice cfg line column = true.
Proof.
  unfold lattice_segments. rewrite filter_In, in_prod_iff, !in_py_range, on_lattice_iff.
  rewrite Z.eqb_eq. lia.
Qed.

Lemma NoDup_lattice_segments : NoDup (lattice_segments cfg).
Proof. apply NoDup_filter_bool, NoDup_list_prod; apply NoDup_py_range. Qed.

Lemma length_move_slots :
  Z.of_nat (length (move_slots cfg)) =
    2 * LINES cfg * COLUMNS cfg + LINES cfg + COLUMNS cfg.
Proof using Hcfg.
  destruct Hcfg as [HL HC]. unfold move_slots.
  rewrite length_app, length_map.
  rewrite (length_flat_map_const _ _ (2 * Z.to_nat (COLUMNS cfg) + 1)).
  - unfold py_range. rewrite !length_map, !length_seq. nia.
  - intros i. rewrite length_app, (length_flat_map_const _ _ 2) by done.
    unfold py_range. rewrite length_map, length_seq. simpl. lia.
Qed.

Lemma segments_of_slots :
  map slot_segment (move_slots cfg) ≡ₚ lattice_segments cfg.
Proof using Hcfg.
  apply NoDup_Permutation.
  - apply NoDup_map_In; [apply NoDup_move_slots|].
    intros [[d i] j] [[d' i'] j'] Hx Hy E. simpl in E.
    destruct (slot_of_segment _ _ _ Hx) as [_ <-].
    destruct (slot_of_segment _ _ _ Hy) as [_ <-]. injection E as -> ->. done.
  - apply NoDup_lattice_segments.
  - intros [l c]. rewrite !list_elem_of_In, in_map_iff, in_lattice_segments. split.
    + intros ([[d i] j] & E & Hin). simpl in E. simplify_eq.
      by apply slot_of_segment.
    + intros Hl. exists (slot_of cfg l c). split; [|by apply slot_of_in_move_slots].
      pose proof (slot_of_in_scope cfg Hcfg l c Hl) as H.
      destruct (slot_of cfg l c) as [[d i] j]. tauto.
Qed.

(** The slots that [Game.moves] turns into a move. *)
Lemma State_moves_free_slots st :
  shaped cfg (board (game st)) ->
  State_moves cfg st =
    Ret (map (fun s : Dir * Z * Z =>
                let game := draw cfg (game st) (fst (fst s)) (snd (fst s)) (snd s)
                                 (current_player st) in
                new_State game
                  (if negb (filled_box game) then next_player cfg st
                   else current_player st)
                  (depth st - 1))
             (List.filter (fun s => free (game st) (fst (fst s)) (snd (fst s)) (snd s))
                          (move_slots cfg))).
Proof using Hcfg.
  intros Hb. rewrite State_moves_shaped by done. f_equal.
  unfold child_of.
  apply (flat_map_option_filter
           (fun game => new_State game
                          (if negb (filled_box game) then next_player cfg st
                           else current_player st)
                          (depth st - 1))
           (slot_move cfg (game st) (current_player st))
           (fun s => free (game st) (fst (fst s)) (snd (fst s)) (snd s))
           (fun s => draw cfg (game st) (fst (fst s)) (snd (fst s)) (snd s)
                          (current_player st))).
  intros [[d i] j]. done.
Qed.

Lemma free_slot_undrawn g d i j :
  wf cfg g -> In (d, i, j) (move_slots cfg) ->
  segment_drawn cfg (board g) (2 * i + 1 + d1 d) (2 * j + 1 + d2 d) = negb (free g d i j).
Proof using Hcfg.
  intros Hwf Hin. destruct (slot_of_segment _ _ _ Hin) as [Hl Hslot].
  rewrite segment_drawn_slot by done. by rewrite Hslot.
Qed.

Lemma free_segments_undrawn g :
  wf cfg g ->
  map slot_segment
      (List.filter (fun s => free g (fst (fst s)) (snd (fst s)) (snd s)) (move_slots cfg))
  ≡ₚ undrawn_segments cfg (board g).
Proof using Hcfg.
  intros Hwf. apply NoDup_Permutation.
  - apply NoDup_map_In; [apply NoDup_filter_bool, NoDup_move_slots|].
    intros [[d i] j] [[d' i'] j'] Hx Hy E. simpl in E.
    apply filter_In in Hx as [Hx _], Hy as [Hy _].
    destruct (slot_of_segment _ _ _ Hx) as [_ <-].
    destruct (slot_of_segment _ _ _ Hy) as [_ <-]. injection E as -> ->. done.
  - apply NoDup_filter_bool, NoDup_lattice_segments.
  - intros [l c]. unfold undrawn_segments.
    rewrite !list_elem_of_In, in_map_iff, filter_In, in_lattice_segments. split.
    + intros ([[d i] j] & E & Hin). apply filter_In in Hin as [Hin Hfree].
      simpl in E, Hfree. simplify_eq.
      rewrite free_slot_undrawn, Hfree by done. split; [|done]. by apply slot_of_segment.
    + intros [Hl Hd]. exists (slot_of cfg l c).
      pose proof (slot_of_in_move_slots l c Hl) as Hin.
      pose proof (slot_of_in_scope cfg Hcfg l c Hl) as H.
      rewrite segment_drawn_slot in Hd by done.
      destruct (slot_of cfg l c) as [[d i] j]. split; [tauto|].
      apply filter_In. split; [done|]. simpl. by destruct (free g d i j).
Qed.

End Segments.

(** C4. On a board with [E] segments of which [D] are drawn, the move
    generator returns exactly [E - D] states. They correspond one to one to
    the undrawn segments: each state is what [add_segment] makes of the
    input game for one segment that was not drawn, and differs from the
    input in that segment alone. On the empty board of one box there are
    four of them, one for each edge. *)
Theorem moves_enumerate_undrawn cfg st :
  valid_config cfg -> wf cfg (game st) ->
  exists moves segs,
    State_moves cfg st = Ret moves /\
    Z.of_nat (length (lattice_segments cfg)) =
      2 * LINES cfg * COLUMNS cfg + LINES cfg + COLUMNS cfg /\
    Z.of_nat (length moves) =
      Z.of_nat (length (lattice_segments cfg))
      - Z.of_nat (length (drawn_segments cfg (board (game st)))) /\
    segs ≡ₚ undrawn_segments cfg (board (game st)) /\ NoDup segs /\
    Forall2 (fun seg child =>
               (exists d i j,
                  add_segment cfg (game st) d i j (current_player st)
                  = Ret (Some (game child))) /\
               segment_drawn cfg (board (game st)) (fst seg) (snd seg) = false /\
               forall l c, on_lattice cfg l c = true ->
                 segment_drawn cfg (board (game child)) l c =
                   segment_drawn cfg (board (game st)) l c
                   || ((l =? fst seg) && (c =? snd seg)))
            segs moves /\
    (forall human policy p dp,
       exists four,
         State_moves (mkConfig 1 1 human policy)
                     (new_State (new_Game (mkConfig 1 1 human policy)) p dp) = Ret four /\
         map (fun s => board (game s)) four =
           [[[(8, None)]]; [[(1, None)]]; [[(4, None)]]; [[(2, None)]]]).
Proof.
  intros Hcfg Hwf. pose proof (wf_shaped _ _ Hwf) as Hb.
  rewrite State_moves_free_slots by done.
  set (slots := List.filter _ (move_slots cfg)).
  pose proof (free_segments_undrawn cfg Hcfg _ Hwf) as Hperm. fold slots in Hperm.
  eexists. exists (map slot_segment slots).
  split; [done|]. split; [|split; [|split; [done|split; [|split]]]].
  - rewrite <- (Permutation_length (segments_of_slots cfg Hcfg)), length_map.
    by apply length_move_slots.
  - rewrite length_map, <- (length_map slot_segment), (Permutation_length Hperm).
    unfold undrawn_segments, drawn_segments.
    pose proof (filter_split_length
                  (fun '(line, column) => segment_drawn cfg (board (game st)) line column)
                  (lattice_segments cfg)) as H.
    rewrite (filter_ext
               (fun '(line, column) =>
                  negb (segment_drawn cfg (board (game st)) line column))
               (fun x => negb ((fun '(line, column) =>
                  segment_drawn cfg (board (game st)) line column) x)))
      by (by intros [? ?]).
    lia.
  - rewrite Hperm. apply NoDup_filter_bool, NoDup_lattice_segments.
  - apply Forall2_map_same. intros [[d i] j] Hin.
    apply filter_In in Hin as [Hin Hfree]. simpl in Hfree |- *.
    destruct (move_slots_in_scope cfg Hcfg _ Hin) as [Hd Hs]. simpl in Hd, Hs.
    split; [|split].
    + exists d, i, j. by rewrite add_segment_in_scope, Hfree.
    + by rewrite free_slot_undrawn, Hfree.
    + intros l c Hl. apply on_lattice_iff in Hl as (_ & _ & Hl).
      by apply segment_drawn_draw.
  - intros human policy p dp. eexists. split; [reflexivity|reflexivity].
Qed.

Lemma moves_enumerate_undrawn_witness :
  exists moves,
    State_moves cfg_1x2 (new_State game_1x2_top SymO 2) = Ret moves /\
    Z.of_nat (length moves) =
      Z.of_nat (length (lattice_segments cfg_1x2))
      - Z.of_nat (length (drawn_segments cfg_1x2 (board game_1x2_top))).
Proof.
  assert (valid_config cfg_1x2) as Hcfg by (unfold valid_config; simpl; lia).
  assert (wf cfg_1x2 game_1x2_top) as Hwf.
  { apply (draw_wf cfg_1x2 (new_Game cfg_1x2) dir_up 0 0 SymX);
      [apply new_Game_wf|simpl; tauto|reflexivity|reflexivity]. }
  destruct (moves_enumerate_undrawn cfg_1x2 (new_State game_1x2_top SymO 2) Hcfg Hwf)
    as (moves & segs & H1 & _ & H2 & _).
  exists moves. split; [exact H1|exact H2].
Defined.

(** C8. [check_position] accepts a pair of lattice coordinates exactly when
    the pair is in [0, 2 * LINES] x [0, 2 * COLUMNS], one of its two
    coordinates is odd and the segment it addresses is not drawn. When it
    accepts, the segment is recorded in every box next to it and no other
    segment changes; when it rejects, the state is returned as it was. *)
Theorem check_position_spec cfg st line column :
  valid_config cfg -> wf cfg (game st) ->
  exists ok st',
    check_position cfg line column st = Ret (ok, st') /\
    (ok = true <->
       0 <= line <= 2 * LINES cfg /\ 0 <= column <= 2 * COLUMNS cfg /\
       Z.odd line <> Z.odd column /\
       segment_drawn cfg (board (game st)) line column = false) /\
    (ok = true ->
       st' = with_game st (game st') /\ wf cfg (game st') /\
       segment_on_both cfg (board (game st')) line column = true /\
       forall l c, on_lattice cfg l c = true ->
         segment_drawn cfg (board (game st')) l c =
           segment_drawn cfg (board (game st)) l c || ((l =? line) && (c =? column))) /\
    (ok = false -> st' = st).
Proof.
  intros Hcfg Hwf. destruct (on_lattice cfg line column) eqn:Hl.
  - rewrite check_position_lattice by (done || apply Hwf).
    pose proof (segment_drawn_slot cfg Hcfg _ _ _ Hwf Hl) as Hdrawn.
    pose proof (slot_of_in_scope cfg Hcfg line column Hl) as Hslot.
    destruct (slot_of cfg line column) as [[d i] j].
    destruct Hslot as (Hd & Hs & Hseg). simpl in Hseg.
    pose proof Hl as Hl'. apply on_lattice_iff in Hl' as (Hr1 & Hr2 & Hodd).
    destruct (free (game st) d i j) eqn:Hfree; simpl in Hdrawn.
    + exists true, (with_game st (draw cfg (game st) d i j (MIN cfg))).
      split; [done|]. split; [by rewrite <- odd_sum|]. split; [|done].
      intros _. pose proof (draw_wf cfg _ d i j (MIN cfg) Hwf Hd Hs Hfree) as Hwf'.
      assert (forall l c, on_lattice cfg l c = true ->
                segment_drawn cfg (board (draw cfg (game st) d i j (MIN cfg))) l c =
                segment_drawn cfg (board (game st)) l c || ((l =? line) && (c =? column)))
        as Hall.
      { intros l c Hlc. apply on_lattice_iff in Hlc as (_ & _ & Hlc).
        rewrite segment_drawn_draw by done. by simplify_eq. }
      simpl. split; [done|]. split; [done|]. split; [|done].
      rewrite segment_on_both_drawn, Hall, !Z.eqb_refl by done. apply orb_true_r.
    + exists false, st. split; [done|]. split; [|done]. split; [done|].
      intros (_ & _ & _ & H). congruence.
  - rewrite check_position_off by done. exists false, st.
    split; [done|]. split; [|done]. split; [done|].
    intros (H1 & H2 & H3 & _). apply odd_sum in H3.
    assert (on_lattice cfg line column = true) by (by apply on_lattice_iff). congruence.
Qed.

Lemma check_position_spec_witness :
  exists ok st',
    check_position cfg_1x2 1 2 (new_State game_1x2_top SymX 3) = Ret (ok, st') /\
    (ok = true <->
       0 <= 1 <= 2 * LINES cfg_1x2 /\ 0 <= 2 <= 2 * COLUMNS cfg_1x2 /\
       Z.odd 1 <> Z.odd 2 /\
       segment_drawn cfg_1x2 (board game_1x2_top) 1 2 = false).
Proof.
  assert (valid_config cfg_1x2) as Hcfg by (unfold valid_config; simpl; lia).
  assert (wf cfg_1x2 game_1x2_top) as Hwf.
  { apply (draw_wf cfg_1x2 (new_Game cfg_1x2) dir_up 0 0 SymX);
      [apply new_Game_wf|simpl; tauto|reflexivity|reflexivity]. }
  destruct (check_position_spec cfg_1x2 (new_State game_1x2_top SymX 3) 1 2 Hcfg Hwf)
    as (ok & st' & H1 & H2 & _).
  exists ok, st'. split; [exact H1|exact H2].
Defined.

(** C10. From a reachable game that is not final (the scores add up to less
    than [LINES * COLUMNS]) [State.moves] returns at least one state, so the
    [max] and [min] of [min_max] and the loop of [alpha_beta_state] get a
    non-empty list. *)
Theorem nonterminal_has_move cfg st :
  valid_config cfg -> reachable cfg (game st) ->
  score_min (game st) + score_max (game st) < LINES cfg * COLUMNS cfg ->
  exists moves, State_moves cfg st = Ret moves /\ moves <> [] /\
    final cfg (game st) = NotFinal /\
    (forall scored, length scored = length moves ->
       py_max scored <> Raise ValueError /\ py_min scored <> Raise ValueError).
Proof.
  intros Hcfg Hr Hlt. pose proof (reachable_wf cfg Hcfg _ Hr) as Hwf.
  rewrite State_moves_shaped by (done || apply Hwf).
  eexists. split; [done|].
  assert (forall A B (l : list A) (k : list B), l <> [] -> length k = length l -> k <> [])
    as Hne by (intros A B [|] [|]; simpl; congruence).
  assert (forall scored, scored <> [] ->
            py_max scored <> Raise ValueError /\ py_min scored <> Raise ValueError) as Hpy.
  { intros [|x l] Hx; [done|]. simpl. split; apply extremum_loop_no_ValueError. }
  cut (flat_map (child_of cfg st)
         (map (slot_move cfg (game st) (current_player st)) (move_slots cfg)) <> []
       /\ final cfg (game st) = NotFinal).
  { intros [H1 H2]. split; [done|]. split; [done|]. intros scored Hlen.
    apply Hpy. by eapply Hne. }
  split.
  - destruct (free_slot_exists cfg Hcfg _ Hwf Hlt) as (d & i & j & Hin & Hfree).
    intros E.
    assert (In (new_State (draw cfg (game st) d i j (current_player st))
                  (if negb (filled_box (draw cfg (game st) d i j (current_player st)))
                   then next_player cfg st else current_player st)
                  (depth st - 1))
               (flat_map (child_of cfg st)
                  (map (slot_move cfg (game st) (current_player st)) (move_slots cfg)))) as H.
    { apply in_flat_map. exists (Some (draw cfg (game st) d i j (current_player st))).
      split; [|simpl; tauto].
      apply in_map_iff. exists (d, i, j). simpl. by rewrite Hfree. }
    rewrite E in H. destruct H.
  - unfold final. destruct (Z.eqb_spec (score_min (game st) + score_max (game st))
                              (LINES cfg * COLUMNS cfg)); [lia|done].
Qed.

Lemma nonterminal_has_move_witness :
  exists moves,
    State_moves cfg_1x2 (new_State (new_Game cfg_1x2) SymX 3) = Ret moves /\ moves <> [].
Proof.
  destruct (nonterminal_has_move cfg_1x2 (new_State (new_Game cfg_1x2) SymX 3))
    as (moves & H1 & H2 & _).
  - unfold valid_config. simpl. lia.
  - apply reach_new.
  - reflexivity.
  - exists moves. split; [exact H1|exact H2].
Defined.

(** ** The static evaluator *)

Section Evaluator.

Variable cfg : Config.
Hypothesis Hcfg : valid_config cfg.

Lemma edges_total_upd b i j v :
  shaped cfg b -> in_scope cfg i j = true ->
  edges_total (upd b i j v) = edges_total b - fst (box_at b i j) + fst v.
Proof.
  intros Hb Hs. destruct (shaped_lookup _ _ _ _ Hb Hs) as (row & x & Hr & Hx & _).
  unfold edges_total, upd, box_at. rewrite (zsum_alter _ _ _ _ row) by done.
  rewrite (zsum_insert _ _ _ x) by done. rewrite Hr, Hx. lia.
Qed.

Lemma edges_total_complete g bit i j p :
  shaped cfg (board g) -> in_scope cfg i j = true ->
  edges_total (board (complete cfg g bit i j p)) = edges_total (board g) + bit.
Proof.
  intros Hb Hs. unfold complete, edges_at.
  destruct (_ =? 15); simpl; rewrite edges_total_upd by done; simpl; lia.
Qed.

Lemma edges_total_draw g d i j p :
  shaped cfg (board g) -> In d all_dirs -> in_scope cfg i j = true ->
  edges_total (board g) + 1 <= edges_total (board (draw cfg g d i j p)).
Proof.
  intros Hb Hd Hs. unfold draw.
  assert (1 <= d0 d /\ 1 <= d3 d) as [H0 H3]
    by (apply dir_cases in Hd as [-> | [-> | [-> | ->]]]; simpl_dirs; lia).
  destruct (in_scope cfg (i + d1 d) (j + d2 d)) eqn:Hn.
  - rewrite !edges_total_complete by (done || by apply complete_shaped). lia.
  - rewrite edges_total_complete by done. lia.
Qed.

Lemma edges_total_bound b :
  shaped cfg b -> boxes_ok cfg b ->
  0 <= edges_total b <= 15 * (LINES cfg * COLUMNS cfg).
Proof using Hcfg.
  intros [Hl Hr] Hok. destruct Hcfg as [HL HC]. unfold edges_total.
  rewrite Forall_forall in Hr.
  assert (forall row, row ∈ b -> 0 <= zsum fst row <= 15 * COLUMNS cfg) as Hrow.
  { intros row Hin. pose proof (Hr row Hin) as Hlen.
    apply list_elem_of_lookup in Hin as [n Hn]. apply lookup_lt_Some in Hn as Hn'.
    pose proof (zsum_bounds fst row 0 15) as H. rewrite Hlen in H.
    assert (forall x, x ∈ row -> 0 <= fst x <= 15) as Hx.
    { intros x Hin. apply list_elem_of_lookup in Hin as [m Hm].
      apply lookup_lt_Some in Hm as Hm'. rewrite Hlen in Hm'.
      assert (in_scope cfg (Z.of_nat n) (Z.of_nat m) = true) as Hs
        by (apply in_scope_iff; lia).
      destruct (Hok _ _ Hs) as [Hrange _]. unfold edges_at, box_at in Hrange.
      by rewrite !Nat2Z.id, Hn, Hm in Hrange. }
    specialize (H Hx). lia. }
  pose proof (zsum_bounds (zsum fst) b 0 (15 * COLUMNS cfg) Hrow) as H.
  rewrite Hl in H. lia.
Qed.

(** One pass over the four directions. *)
Lemma try_direction_wf player g count d :
  wf cfg g -> last_segment g <> None -> In d all_dirs ->
  exists g' count',
    try_direction cfg player (Ret (g, count)) d = Ret (g', count') /\
    wf cfg g' /\ last_segment g' <> None /\
    count <= count' <= count + 1 /\
    edges_total (board g) + (count' - count) <= edges_total (board g').
Proof.
  intros Hwf Hlast Hd. unfold try_direction. simpl.
  pose proof (wf_last _ _ Hwf) as Hl. unfold last_ok in Hl.
  destruct (last_segment g) as [[[i j] q]|] eqn:E; [|done].
  rewrite add_segment_in_scope by (done || apply Hwf). simpl.
  destruct (free g d i j) eqn:Hfree.
  - exists (draw cfg g d i j player), (count + 1). split; [done|].
    pose proof (draw_wf cfg g d i j player Hwf Hd Hl Hfree) as Hwf'.
    split; [done|]. split.
    + unfold draw.
      destruct (in_scope cfg (i + d1 d) (j + d2 d)); by rewrite complete_last.
    + pose proof (edges_total_draw g d i j player (wf_shaped _ _ Hwf) Hd Hl). lia.
  - exists g, count. rewrite E. split; [done|]. split; [done|]. split; [done|]. lia.
Qed.

Lemma four_directions_wf player g :
  wf cfg g -> last_segment g <> None ->
  exists g' count',
    fold_left (try_direction cfg player) [dir_up; dir_left; dir_right; dir_down]
              (Ret (g, 0)) = Ret (g', count') /\
    wf cfg g' /\ last_segment g' <> None /\
    0 <= count' <= 4 /\
    edges_total (board g) + count' <= edges_total (board g').
Proof.
  intros Hwf Hlast. cbn [fold_left].
  destruct (try_direction_wf player g 0 dir_up Hwf Hlast) as (g1 & c1 & -> & W1 & L1 & R1 & E1);
    [simpl; tauto|].
  destruct (try_direction_wf player g1 c1 dir_left W1 L1) as (g2 & c2 & -> & W2 & L2 & R2 & E2);
    [simpl; tauto|].
  destruct (try_direction_wf player g2 c2 dir_right W2 L2) as (g3 & c3 & -> & W3 & L3 & R3 & E3);
    [simpl; tauto|].
  destruct (try_direction_wf player g3 c3 dir_down W3 L3) as (g4 & c4 & -> & W4 & L4 & R4 & E4);
    [simpl; tauto|].
  exists g4, c4. split; [done|]. split; [done|]. split; [done|]. lia.
Qed.

(** The loop of [open_boxes_2] stops: every pass that lets it go on has
    drawn a segment. *)
Lemma open_boxes_2_loop_bound fuel player g count score :
  wf cfg g -> last_segment g <> None ->
  (forall v, open_boxes_2_loop cfg fuel player g count score = Ret v ->
     score <= v <= score + 15 * (LINES cfg * COLUMNS cfg) - edges_total (board g) + 1) /\
  (15 * (LINES cfg * COLUMNS cfg) - edges_total (board g) + 1 <= Z.of_nat fuel ->
   exists v, open_boxes_2_loop cfg fuel player g count score = Ret v).
Proof using Hcfg.
  revert g count score. induction fuel as [|fuel IH]; intros g count score Hwf Hlast;
    pose proof (edges_total_bound _ (wf_shaped _ _ Hwf) (wf_boxes _ _ Hwf)) as Hb;
    simpl; destruct (Z.eqb_spec count 1) as [->|Hc].
  - split; [done|lia].
  - split; [intros v [= <-]; lia|eauto].
  - destruct (four_directions_wf player g Hwf Hlast) as (g' & c' & Hpass & W & L & R & E).
    simpl in Hpass. rewrite Hpass. simpl.
    destruct (IH g' c' (score + 1) W L) as [IH1 IH2].
    pose proof (edges_total_bound _ (wf_shaped _ _ W) (wf_boxes _ _ W)) as Hb'.
    destruct (Z.eq_dec c' 1) as [->|Hc'].
    + split.
      * intros v Hv. apply IH1 in Hv. lia.
      * intros Hf. apply IH2. lia.
    + assert (open_boxes_2_loop cfg fuel player g' c' (score + 1) = Ret (score + 1)) as ->.
      { destruct fuel; simpl; by destruct (Z.eqb_spec c' 1). }
      split; [intros v [= <-]; lia|eauto].
  - split; [intros v [= <-]; lia|eauto].
Qed.

Lemma open_boxes_2_loop_fresh fuel player g count score v :
  last_segment g = None ->
  open_boxes_2_loop cfg fuel player g count score = Ret v -> v = score.
Proof.
  intros Hlast. destruct fuel as [|fuel]; simpl; destruct (count =? 1); try congruence.
  rewrite Hlast. simpl. discriminate.
Qed.

Lemma open_boxes_2_bound fuel g player :
  wf cfg g ->
  (forall v, open_boxes_2 cfg fuel g player = Ret v ->
     player_score cfg g player <= v
     <= player_score cfg g player + 15 * (LINES cfg * COLUMNS cfg) + 1) /\
  (last_segment g <> None -> 15 * (LINES cfg * COLUMNS cfg) + 1 <= Z.of_nat fuel ->
   exists v, open_boxes_2 cfg fuel g player = Ret v).
Proof using Hcfg.
  intros Hwf. unfold open_boxes_2. fold (player_score cfg g player).
  pose proof (edges_total_bound _ (wf_shaped _ _ Hwf) (wf_boxes _ _ Hwf)) as Hb.
  destruct Hcfg as [HL HC].
  destruct (last_segment g) as [s|] eqn:Hlast.
  - destruct (open_boxes_2_loop_bound fuel player g
                (Z.b2z (last_player_is g player && filled_box g
                        || negb (last_player_is g player) && negb (filled_box g)))
                (player_score cfg g player) Hwf) as [H1 H2]; [congruence|].
    split.
    + intros v Hv. apply H1 in Hv. nia.
    + intros _ Hf. apply H2. nia.
  - split; [|done]. intros v Hv. apply open_boxes_2_loop_fresh in Hv; [|done]. nia.
Qed.

Lemma open_boxes_bound fuel g player :
  wf cfg g ->
  (forall v, open_boxes cfg fuel g player = Ret v ->
     0 <= v <= 16 * (LINES cfg * COLUMNS cfg) + 1) /\
  (VAR cfg = 1 \/
   (last_segment g <> None /\ 15 * (LINES cfg * COLUMNS cfg) + 1 <= Z.of_nat fuel) ->
   exists v, open_boxes cfg fuel g player = Ret v).
Proof using Hcfg.
  intros Hwf. destruct (wf_scores _ _ Hwf) as (Hmin & Hmax & Hsum).
  pose proof (owned_boxes_bounds cfg _ (wf_shaped _ _ Hwf)) as Hown.
  destruct (open_boxes_2_bound fuel g player Hwf) as [H1 H2].
  assert (0 <= player_score cfg g player <= LINES cfg * COLUMNS cfg) as Hp.
  { unfold player_score. destruct Hcfg. destruct (sym_eqb player (MIN cfg)); lia. }
  unfold open_boxes. destruct (Z.eqb_spec (VAR cfg) 1) as [E|E].
  - split; [|eauto]. intros v [= <-]. unfold open_boxes_1. destruct Hcfg.
    destruct (sym_eqb player (MIN cfg)); lia.
  - split.
    + intros v Hv. apply H1 in Hv. lia.
    + intros [?|[? ?]]; [done|]. by apply H2.
Qed.

Lemma estimate_score_final fuel g :
  final cfg g <> NotFinal -> exists v, estimate_score cfg fuel g = Ret v.
Proof.
  intros H. unfold estimate_score.
  destruct (final cfg g) as [| |s] eqn:Hf; [done|eauto|].
  assert (s = MIN cfg \/ s = MAX cfg) as [-> | ->].
  { unfold final in Hf. destruct (negb _); [done|]. destruct (_ =? _); [done|].
    destruct (_ >? _); injection Hf as <-; auto. }
  - rewrite MAX_MIN_neq, sym_eqb_refl. eauto.
  - rewrite sym_eqb_refl. eauto.
Qed.

Lemma estimate_score_returns fuel g :
  wf cfg g ->
  final cfg g <> NotFinal \/ VAR cfg = 1 \/
  (last_segment g <> None /\ 15 * (LINES cfg * COLUMNS cfg) + 1 <= Z.of_nat fuel) ->
  exists v, estimate_score cfg fuel g = Ret v.
Proof using Hcfg.
  intros Hwf [H|H]; [by apply estimate_score_final|].
  destruct (final cfg g) eqn:Hf; try (apply estimate_score_final; congruence).
  unfold estimate_score. rewrite Hf.
  destruct (open_boxes_bound fuel g (MAX cfg) Hwf) as [_ [a ->]]; [done|].
  destruct (open_boxes_bound fuel g (MIN cfg) Hwf) as [_ [b ->]]; [done|].
  simpl. eauto.
Qed.

End Evaluator.

(** C7. [estimate_score] returns 100000 on a final state that MAX wins,
    -100000 on one that MIN wins and 0 on a tie, a state being final exactly
    when the scores add up to [LINES * COLUMNS]; on any other state it is the
    estimate of MAX minus the estimate of MIN. On a well-formed game the
    estimates of both policies stay far below the two sentinels, and the
    evaluator returns whenever the game has a last segment and the loop of
    [open_boxes_2] has fuel for [15 * LINES * COLUMNS + 1] passes. *)
Theorem estimate_score_spec cfg fuel g :
  (final cfg g <> NotFinal <-> score_min g + score_max g = LINES cfg * COLUMNS cfg) /\
  (score_min g + score_max g = LINES cfg * COLUMNS cfg ->
     (score_max g > score_min g -> estimate_score cfg fuel g = Ret 100000) /\
     (score_min g > score_max g -> estimate_score cfg fuel g = Ret (-100000)) /\
     (score_min g = score_max g -> estimate_score cfg fuel g = Ret 0)) /\
  (score_min g + score_max g <> LINES cfg * COLUMNS cfg ->
     estimate_score cfg fuel g =
       (let* a := open_boxes cfg fuel g (MAX cfg) in
        let* b := open_boxes cfg fuel g (MIN cfg) in
        Ret (a - b)) /\
     (valid_config cfg -> wf cfg g ->
        (forall v, estimate_score cfg fuel g = Ret v -> -100000 < v < 100000) /\
        (VAR cfg = 1 \/
         (last_segment g <> None /\
          15 * (LINES cfg * COLUMNS cfg) + 1 <= Z.of_nat fuel) ->
         exists v, estimate_score cfg fuel g = Ret v))).
Proof.
  unfold estimate_score, final.
  destruct (Z.eqb_spec (score_min g + score_max g) (LINES cfg * COLUMNS cfg)) as [E|E];
    simpl.
  - split; [|split; [|done]].
    + destruct (_ =? _); [|destruct (_ >? _)]; split; (done || congruence).
    + intros _. destruct (Z.eqb_spec (score_min g) (score_max g)) as [E'|E'].
      { repeat split; (done || lia). }
      destruct (Z.gtb_spec (score_min g) (score_max g)).
      * rewrite MAX_MIN_neq, sym_eqb_refl. repeat split; (done || lia).
      * rewrite sym_eqb_refl. repeat split; (done || lia).
  - split; [split; [done|lia]|]. split; [done|]. intros _. split; [done|].
    intros Hcfg Hwf.
    destruct (open_boxes_bound cfg Hcfg fuel g (MAX cfg) Hwf) as [A1 A2].
    destruct (open_boxes_bound cfg Hcfg fuel g (MIN cfg) Hwf) as [B1 B2].
    split.
    + intros v Hv. apply bind_Ret in Hv as (a & Ha & Hv).
      apply bind_Ret in Hv as (b & Hb & [= <-]).
      apply A1 in Ha. apply B1 in Hb. destruct Hcfg. nia.
    + intros H. destruct (A2 H) as [a ->]. destruct (B2 H) as [b ->]. simpl. eauto.
Qed.

Lemma estimate_score_spec_witness :
  (forall v, estimate_score cfg_1x2 736 game_1x2_top = Ret v -> -100000 < v < 100000) /\
  exists v, estimate_score cfg_1x2 736 game_1x2_top = Ret v.
Proof.
  assert (valid_config cfg_1x2) as Hcfg by (unfold valid_config; simpl; lia).
  assert (wf cfg_1x2 game_1x2_top) as Hwf.
  { apply (draw_wf cfg_1x2 (new_Game cfg_1x2) dir_up 0 0 SymX);
      [apply new_Game_wf|simpl; tauto|reflexivity|reflexivity]. }
  destruct (estimate_score_spec cfg_1x2 736 game_1x2_top) as (_ & _ & H).
  destruct H as [_ H]; [simpl; lia|].
  destruct (H Hcfg Hwf) as [H1 H2]. split; [exact H1|].
  apply H2. right. split; [discriminate|simpl; lia].
Defined.

(** ** Whose turn it is in a child *)

Section Turn.

Variable cfg : Config.
Hypothesis Hcfg : valid_config cfg.

Lemma complete_filled g bit i j p :
  let g' := complete cfg g bit i j p in
  filled_box g' =
    filled_box g || (score_min g + score_max g <? score_min g' + score_max g').
Proof.
  unfold complete. destruct (_ =? 15); simpl.
  - destruct (sym_eqb p (MIN cfg));
      replace (_ <? _) with true by (symmetry; apply Z.ltb_lt; lia);
      by rewrite orb_true_r.
  - rewrite Z.ltb_irrefl. by rewrite orb_false_r.
Qed.

Lemma draw_filled g d i j p :
  let g' := draw cfg g d i j p in
  filled_box g' =
    filled_box g || (score_min g + score_max g <? score_min g' + score_max g').
Proof.
  unfold draw. pose proof (complete_filled g (d0 d) i j p) as H1.
  pose proof (complete_score_sum cfg g (d0 d) i j p) as S1.
  destruct (in_scope cfg (i + d1 d) (j + d2 d)); [|done].
  pose proof (complete_filled (complete cfg g (d0 d) i j p) (d3 d) (i + d1 d) (j + d2 d) p)
    as H2.
  pose proof (complete_score_sum cfg (complete cfg g (d0 d) i j p) (d3 d)
                (i + d1 d) (j + d2 d) p) as S2.
  simpl in *. rewrite H2, H1.
  repeat match goal with
         | |- context [Z.ltb ?a ?b] => destruct (Z.ltb_spec a b)
         end; destruct (filled_box g), (sym_eqb p (MIN cfg)); simpl; (done || lia).
Qed.

(** What [State.moves] does at every node: the turn stays with the current
    player when the move closed a box, and also when the game of the parent
    already had [filled_box] set. *)
Lemma child_player_rule st moves child :
  shaped cfg (board (game st)) ->
  State_moves cfg st = Ret moves -> In child moves ->
  current_player child =
    if filled_box (game st)
       || (score_min (game st) + score_max (game st)
           <? score_min (game child) + score_max (game child))
    then current_player st
    else other cfg (current_player st).
Proof using Hcfg.
  intros Hb Hm Hin. rewrite State_moves_free_slots in Hm by done.
  injection Hm as <-. apply in_map_iff in Hin as ([[d i] j] & <- & _). simpl.
  rewrite draw_filled. simpl.
  destruct (filled_box (game st)) eqn:Hf; simpl; [done|].
  destruct (_ <? _); simpl; [done|].
  unfold next_player, other. rewrite Hf. simpl.
  rewrite andb_true_r, andb_false_r, orb_false_r. done.
Qed.

End Turn.

(** C1. Below a node that closed a box the player of a child is not
    decided by the move of the child alone. [search_child] is the child of
    [search_root] in which ['O'] closes the left box: its game has
    [filled_box] set, every game copied from it inherits the flag, and its
    three children keep the turn with ['O'] although none of them closes a
    box. *)
Theorem turn_kept_without_completion :
  reachable cfg_1x2 (game search_root) /\
  In search_child
     (match State_moves cfg_1x2 search_root with Ret l => l | _ => [] end) /\
  exists moves,
    State_moves cfg_1x2 search_child = Ret moves /\
    length moves = 3%nat /\
    Forall (fun m =>
              score_min (game m) = score_min (game search_child) /\
              score_max (game m) = score_max (game search_child) /\
              owned_boxes (board (game m)) = owned_boxes (board (game search_child)) /\
              current_player m = current_player search_child /\
              current_player m <> other cfg_1x2 (current_player search_child))
           moves.
Proof.
  split; [|split; [vm_compute; tauto|]].
  - (* 'X' draws the top, 'O' the left side, 'X' the bottom of the left box *)
    apply (reach_step cfg_1x2
             (mkGame [[(9, None); (0, None)]] 0 0 false (Some (0, 0, SymO))));
      [|apply (step_add cfg_1x2 _ dir_down 0 0 SymX); [simpl; tauto|reflexivity|reflexivity]].
    apply (reach_step cfg_1x2 game_1x2_top);
      [|apply (step_add cfg_1x2 _ dir_left 0 0 SymO); [simpl; tauto|reflexivity|reflexivity]].
    apply (reach_step cfg_1x2 (new_Game cfg_1x2));
      [|apply (step_add cfg_1x2 _ dir_up 0 0 SymX); [simpl; tauto|reflexivity|reflexivity]].
    apply reach_new.
  - eexists. split; [vm_compute; reflexivity|]. split; [reflexivity|].
    repeat constructor; discriminate.
Qed.

(** ** The bounds of the alpha-beta search *)

(** The loop body of [alpha_beta_state] never narrows the window. *)
Lemma alpha_beta_step_widens is_max w new_state s :
  w_alpha (alpha_beta_step is_max w new_state s) <= w_alpha w /\
  w_beta w <= w_beta (alpha_beta_step is_max w new_state s).
Proof.
  unfold alpha_beta_step. destruct is_max; destruct (score_ltb _ _); simpl; lia.
Qed.

(** C3. [alpha_beta_state] takes [min(alpha, score)] on a MAX node and
    [max(beta, score)] on a MIN node, not [max] and [min]. On the empty board
    of one box, searched two plies deep by the computer from the window
    (-5000, 5000), every leaf scores 1. After the first child of the root the
    textbook bound is [alpha = 1] and the code keeps -5000; after the first
    leaf of the second child the textbook bounds meet ([1 >= 1]) and the loop
    would stop there, but the code goes on and scores all three leaves. *)
Theorem alpha_beta_bounds_not_narrowed :
  exists r a b l1 l2 l3 rest,
    alpha_beta cfg_1x1_O 736 2 (-5000) 5000 (new_State (new_Game cfg_1x1_O) SymX 2) = Ret r /\
    possible_moves r = a :: b :: rest /\ score a = Some 1 /\
    possible_moves b = [l1; l2; l3] /\
    score l1 = Some 1 /\ score l2 = Some 1 /\ score l3 = Some 1 /\
    (* the bounds after the first child of the root *)
    w_alpha (alpha_beta_step true (mkWindow (-5000) 5000 NegInf None) a 1) = -5000 /\
    textbook_bounds true (-5000) 5000 1 = (1, 5000) /\
    (* the bounds in the second child after its first leaf *)
    w_beta (alpha_beta_step false (mkWindow (-5000) 5000 PosInf None) l1 1) = 5000 /\
    textbook_bounds false 1 5000 1 = (1, 1).
Proof.
  do 7 eexists. split; [vm_compute; reflexivity|].
  repeat split; reflexivity.
Qed.

(** ** Leaves of the search *)

(** Where the search of a leaf does return. On a state that is final or has
    depth 0 both searches return the state with its score set to the static
    evaluation and nothing else changed, whenever the evaluator returns:
    that is the case for every final state, and at depth 0 for every
    well-formed game that has a last segment. *)
Lemma leaf_search_degenerate cfg fuel n alpha beta state :
  is_leaf cfg state = true ->
  min_max cfg fuel n state =
    (let* v := estimate_score cfg fuel (game state) in Ret (set_score state v)) /\
  alpha_beta cfg fuel n alpha beta state = min_max cfg fuel n state /\
  (forall v, estimate_score cfg fuel (game state) = Ret v ->
     exists r, min_max cfg fuel n state = Ret r /\
       score r = Some v /\ game r = game state /\
       possible_moves r = possible_moves state /\ next_state r = next_state state) /\
  (forall g p d r, state = new_State g p d -> min_max cfg fuel n state = Ret r ->
     possible_moves r = [] /\ next_state r = None) /\
  (final cfg (game state) <> NotFinal ->
   exists r, min_max cfg fuel n state = Ret r) /\
  (valid_config cfg -> wf cfg (game state) ->
   VAR cfg = 1 \/
   (last_segment (game state) <> None /\
    15 * (LINES cfg * COLUMNS cfg) + 1 <= Z.of_nat fuel) ->
   exists r, min_max cfg fuel n state = Ret r).
Proof.
  intros Hleaf.
  assert (min_max cfg fuel n state =
            (let* v := estimate_score cfg fuel (game state) in Ret (set_score state v)))
    as Hmm by (destruct n; simpl; by rewrite Hleaf).
  assert (alpha_beta cfg fuel n alpha beta state = min_max cfg fuel n state) as Hab
    by (destruct n; simpl; by rewrite Hleaf).
  split; [done|]. split; [done|]. rewrite Hmm. split; [|split; [|split]].
  - intros v ->. simpl. eauto 10.
  - intros g p d r -> Hr. apply bind_Ret in Hr as (v & _ & [= <-]). done.
  - intros H. destruct (estimate_score_final cfg fuel _ H) as [v ->]. simpl. eauto.
  - intros Hcfg Hwf H.
    destruct (estimate_score_returns cfg Hcfg fuel _ Hwf (or_intror H)) as [v ->].
    simpl. eauto.
Qed.

Lemma leaf_search_degenerate_witness :
  exists r, min_max cfg_1x2 736 0 (new_State game_1x2_top SymO 0) = Ret r /\
    score r = Some 1 /\ game r = game_1x2_top /\
    possible_moves r = [] /\ next_state r = None.
Proof.
  destruct (leaf_search_degenerate cfg_1x2 736 0 (-5000) 5000
              (new_State game_1x2_top SymO 0)) as (_ & _ & H & _); [reflexivity|].
  apply (H 1). reflexivity.
Defined.

(** C9. A search at depth 0 is not always free of errors. On the game that
    [Game()] makes, which has no last segment, the state
    [State(Game(), 'X', 0)] is a leaf that is not final; under the default
    policy ([VAR = 2]) the evaluator indexes the board with the [None] of
    [last_segment] and raises TypeError, and [min_max] and [alpha_beta]
    raise it too instead of returning the state with its static score. *)
Theorem leaf_search_raises_without_last_segment :
  is_leaf cfg_1x1 (new_State (new_Game cfg_1x1) SymX 0) = true /\
  final cfg_1x1 (new_Game cfg_1x1) = NotFinal /\
  last_segment (new_Game cfg_1x1) = None /\
  (forall fuel, estimate_score cfg_1x1 (S fuel) (new_Game cfg_1x1) = Raise TypeError) /\
  (forall fuel n,
     min_max cfg_1x1 (S fuel) n (new_State (new_Game cfg_1x1) SymX 0) = Raise TypeError) /\
  (forall fuel n alpha beta,
     alpha_beta cfg_1x1 (S fuel) n alpha beta (new_State (new_Game cfg_1x1) SymX 0)
     = Raise TypeError).
Proof.
  split; [reflexivity|]. split; [reflexivity|]. split; [reflexivity|].
  split; [intros fuel; reflexivity|].
  split; [intros fuel n; destruct n; reflexivity|].
  intros fuel n alpha beta. destruct n; reflexivity.
Qed.

(** ** Minimax and alpha-beta choose the same move *)

Lemma Forall2_In_r {A B} (P : A -> B -> Prop) l k y :
  Forall2 P l k -> In y k -> exists x, In x l /\ P x y.
Proof.
  induction 1 as [|x y' l k Hxy _ IH]; simpl; [done|].
  intros [->|Hin]; [eauto|]. destruct (IH Hin) as (x' & ? & ?). eauto.
Qed.

Lemma map_outcome_Forall2 {A B} (f : A -> outcome B) l rs :
  map_outcome f l = Ret rs -> Forall2 (fun x y => f x = Ret y) l rs.
Proof.
  revert rs. induction l as [|x l IH]; simpl; intros rs H.
  - injection H as <-. constructor.
  - apply bind_Ret in H as (y & Hy & H). apply bind_Ret in H as (ys & Hys & [= <-]).
    constructor; auto.
Qed.

Lemma extremum_loop_in better best l x :
  extremum_loop better best l = Ret x -> x = best \/ In x l.
Proof.
  revert best. induction l as [|y l IH]; simpl; intros best H.
  - injection H as <-. auto.
  - destruct (score y), (score best); try discriminate.
    apply IH in H as [->|H]; [|auto]. destruct (better _ _); auto.
Qed.

Lemma extremum_loop_const better best l k :
  (forall z, better z z = false) ->
  score best = Some k -> Forall (fun r => score r = Some k) l ->
  extremum_loop better best l = Ret best.
Proof.
  intros Hirr Hb Hl. induction Hl as [|y l Hy Hl IH]; simpl; [done|].
  by rewrite Hy, Hb, Hirr.
Qed.

Section Agreement.

Variable cfg : Config.
Variable fuel : nat.

Lemma min_max_frame n state r :
  min_max cfg fuel n state = Ret r ->
  game r = game state /\ current_player r = current_player state /\
  depth r = depth state.
Proof.
  destruct n; simpl; destruct (is_leaf cfg state); intros H; try discriminate.
  - apply bind_Ret in H as (v & _ & [= <-]). done.
  - apply bind_Ret in H as (v & _ & [= <-]). done.
  - apply bind_Ret in H as (moves & _ & H). apply bind_Ret in H as (rs & _ & H).
    apply bind_Ret in H as (next & _ & [= <-]). done.
Qed.

Lemma alpha_beta_frame n alpha beta state r :
  alpha_beta cfg fuel n alpha beta state = Ret r ->
  game r = game state /\ current_player r = current_player state /\
  depth r = depth state.
Proof.
  destruct n; simpl; destruct (is_leaf cfg state); intros H.
  - apply bind_Ret in H as (v & _ & [= <-]). done.
  - destruct (alpha >? beta); [by injection H as <-|discriminate].
  - apply bind_Ret in H as (v & _ & [= <-]). done.
  - destruct (alpha >? beta); [by injection H as <-|].
    apply bind_Ret in H as (moves & _ & H). apply bind_Ret in H as (st2 & H2 & H).
    unfold alpha_beta_state in H2. apply bind_Ret in H2 as ([nx ms] & _ & [= <-]).
    simpl in H. destruct nx; [|discriminate]. by injection H as <-.
Qed.

Lemma min_max_scored n state r :
  min_max cfg fuel n state = Ret r -> exists v, score r = Some v.
Proof.
  revert state r. induction n as [|n IH]; intros state r; simpl;
    destruct (is_leaf cfg state); intros H; try discriminate.
  - apply bind_Ret in H as (v & _ & [= <-]). simpl. eauto.
  - apply bind_Ret in H as (v & _ & [= <-]). simpl. eauto.
  - apply bind_Ret in H as (moves & _ & H). apply bind_Ret in H as (rs & Hrs & H).
    apply bind_Ret in H as (next & Hnext & [= <-]). simpl.
    apply map_outcome_Forall2 in Hrs.
    assert (In next rs) as Hin.
    { destruct (sym_eqb _ _); destruct rs as [|x rs']; try discriminate;
        apply extremum_loop_in in Hnext as [->|?]; simpl; auto. }
    destruct (Forall2_In_r _ _ _ _ Hrs Hin) as (m & _ & Hm). by eapply IH.
Qed.

(** The fold that the loop of [alpha_beta_state] performs when it is never
    cut off, seen through its [next_state]: it is the first extremum. *)
Lemma step_fold_extremum (is_max : bool) l w best k x :
  w_current_score w = Fin k -> w_next_state w = Some best -> score best = Some k ->
  Forall (fun r => exists v, score r = Some v) l ->
  extremum_loop (if is_max then Z.gtb else Z.ltb) best l = Ret x ->
  w_next_state
    (fold_left (fun w r => alpha_beta_step is_max w r (default 0 (score r))) l w)
  = Some x.
Proof.
  intros Hcs Hnx Hb Hl. revert w best k Hcs Hnx Hb.
  induction Hl as [|y l [v Hy] Hl IH]; simpl; intros w best k Hcs Hnx Hb H.
  - injection H as <-. done.
  - rewrite Hy, Hb in H. rewrite Hy. simpl.
    unfold alpha_beta_step at 2. rewrite Hcs. simpl.
    destruct is_max; simpl.
    + rewrite Z.gtb_ltb in H. destruct (k <? v); eapply IH; eauto.
    + destruct (v <? k); eapply IH; eauto.
Qed.

Lemma alpha_beta_first_step (is_max : bool) alpha beta nx r v :
  alpha_beta_step is_max
    (mkWindow alpha beta (if is_max then NegInf else PosInf) nx) r v
  = mkWindow (if is_max then Z.min alpha v else alpha)
             (if is_max then beta else Z.max beta v) (Fin v) (Some r).
Proof. by destruct is_max. Qed.

Lemma alpha_beta_loop_full search is_max moves rs w :
  Forall2 (fun m r => forall a b, a < b -> search a b m = Ret r) moves rs ->
  Forall (fun r => exists v, score r = Some v) rs ->
  w_alpha w < w_beta w ->
  alpha_beta_loop search is_max w moves =
    Ret (w_next_state
           (fold_left (fun w r => alpha_beta_step is_max w r (default 0 (score r))) rs w),
         rs).
Proof.
  intros H. revert w. induction H as [|m r moves rs Hm _ IH]; intros w Hsc Hw; simpl.
  - done.
  - apply Forall_cons in Hsc as [[v Hv] Hsc].
    rewrite Hm by done. simpl. rewrite Hv. simpl.
    pose proof (alpha_beta_step_widens is_max w r v) as [Ha Hb].
    destruct (Z.geb_spec (w_alpha (alpha_beta_step is_max w r v))
                         (w_beta (alpha_beta_step is_max w r v))); [lia|].
    rewrite IH by (done || lia). done.
Qed.

(** With [alpha < beta] the window stays open and alpha-beta returns the
    state that minimax returns. *)
Lemma alpha_beta_open_window n state alpha beta r :
  alpha < beta ->
  min_max cfg fuel n state = Ret r -> alpha_beta cfg fuel n alpha beta state = Ret r.
Proof.
  revert state alpha beta r. induction n as [|n IH]; intros state alpha beta r Hw; simpl;
    destruct (is_leaf cfg state); intros H; try done.
  apply bind_Ret in H as (moves & Hmoves & H). apply bind_Ret in H as (rs & Hrs & H).
  apply bind_Ret in H as (next & Hnext & [= <-]).
  replace (alpha >? beta) with false by (symmetry; rewrite Z.gtb_ltb; apply Z.ltb_ge; lia).
  rewrite Hmoves. simpl. unfold alpha_beta_state. simpl.
  apply map_outcome_Forall2 in Hrs.
  assert (Forall (fun r => exists v, score r = Some v) rs) as Hsc.
  { apply Forall_forall. intros y Hy. apply list_elem_of_In in Hy.
    destruct (Forall2_In_r _ _ _ _ Hrs Hy) as (m & _ & Hm). by eapply min_max_scored. }
  rewrite (alpha_beta_loop_full _ _ moves rs); [|eapply Forall2_impl; eauto|done|done].
  simpl.
  assert (w_next_state
            (fold_left
               (fun w r => alpha_beta_step (sym_eqb (current_player state) (MAX cfg)) w r
                             (default 0 (score r)))
               rs
               (mkWindow alpha beta
                  (if sym_eqb (current_player state) (MAX cfg) then NegInf else PosInf)
                  (next_state state)))
          = Some next) as ->; [|done].
  set (is_max := sym_eqb (current_player state) (MAX cfg)) in *.
  destruct rs as [|r1 rs']; [by destruct is_max|].
  apply Forall_cons in Hsc as [[v1 Hv1] Hsc]. cbn [fold_left]. rewrite Hv1.
  cbn [default]. rewrite alpha_beta_first_step.
  apply (step_fold_extremum is_max rs' _ r1 v1); try done.
  by destruct is_max.
Qed.

(** With [alpha = beta] and every leaf scoring that value, the loop stops
    after the first move, which is also the move minimax chooses. *)
Lemma alpha_beta_point_window n state k r :
  min_max cfg fuel n state = Ret r ->
  Forall (fun o => forall v, o = Ret v -> v = k) (leaf_scores cfg fuel n state) ->
  score r = Some k /\
  exists r', alpha_beta cfg fuel n k k state = Ret r' /\
             score r' = Some k /\ chosen r' = chosen r.
Proof.
  revert state r. induction n as [|n IH]; intros state r; simpl;
    destruct (is_leaf cfg state) eqn:Hleaf; intros H Hl; try discriminate.
  - apply bind_Ret in H as (v & Hv & [= <-]).
    apply Forall_cons in Hl as [Hl _]. pose proof (Hl v Hv) as ->.
    rewrite Hv. simpl. eauto.
  - apply bind_Ret in H as (v & Hv & [= <-]).
    apply Forall_cons in Hl as [Hl _]. pose proof (Hl v Hv) as ->.
    rewrite Hv. simpl. eauto.
  - apply bind_Ret in H as (moves & Hmoves & H). apply bind_Ret in H as (rs & Hrs & H).
    apply bind_Ret in H as (next & Hnext & [= <-]).
    rewrite Hmoves in Hl |- *. simpl. apply Forall_flat_map in Hl.
    apply map_outcome_Forall2 in Hrs.
    set (is_max := sym_eqb (current_player state) (MAX cfg)) in *.
    destruct Hrs as [|m1 r1 moves' rs' H1 Hrs]; [by destruct is_max|].
    apply Forall_cons in Hl as [Hl1 Hl].
    destruct (IH m1 r1 H1 Hl1) as (Hs1 & r1' & Hab1 & Hs1' & _).
    assert (Forall (fun r => score r = Some k) rs') as Hall.
    { clear -IH Hrs Hl. induction Hrs as [|m y ms ys Hm _ IHrs]; [constructor|].
      apply Forall_cons in Hl as [Hlm Hl]. constructor; [|by apply IHrs].
      by destruct (IH m y Hm Hlm). }
    assert (next = r1) as ->.
    { assert (extremum_loop (if is_max then Z.gtb else Z.ltb) r1 rs' = Ret next) as Hx
        by (by destruct is_max).
      rewrite (extremum_loop_const _ r1 rs' k) in Hx; [congruence| |done|done].
      intros z. destruct is_max; [rewrite Z.gtb_ltb|]; apply Z.ltb_irrefl. }
    split; [done|].
    rewrite Z.gtb_ltb, Z.ltb_irrefl. unfold alpha_beta_state. simpl.
    rewrite Hab1. simpl. rewrite Hs1'. fold is_max. rewrite alpha_beta_first_step.
    simpl.
    replace ((if is_max then k `min` k else k) >=? (if is_max then k else k `max` k))
      with true by (symmetry; destruct is_max; apply Z.geb_le; lia).
    simpl. eexists. split; [done|]. simpl. split; [done|].
    unfold chosen. simpl.
    destruct (min_max_frame _ _ _ H1) as (-> & -> & ->).
    destruct (alpha_beta_frame _ _ _ _ _ Hab1) as (-> & -> & ->).
    by rewrite Hs1, Hs1'.
Qed.

End Agreement.

(** ** The search returns *)

Lemma extremum_loop_returns better best l :
  (exists v, score best = Some v) -> Forall (fun r => exists v, score r = Some v) l ->
  exists x, extremum_loop better best l = Ret x.
Proof.
  intros Hb Hl. revert best Hb. induction Hl as [|y l [v Hy] _ IH]; simpl; intros best Hb.
  - eauto.
  - destruct Hb as [k Hb]. rewrite Hy, Hb. apply IH. destruct (better v k); eauto.
Qed.

Lemma map_outcome_returns {A B} (f : A -> outcome B) l :
  (forall x, In x l -> exists y, f x = Ret y) -> exists ys, map_outcome f l = Ret ys.
Proof.
  induction l as [|x l IH]; simpl; intros H; [eauto|].
  destruct (H x) as [y ->]; [auto|]. destruct IH as [ys ->]; [auto|]. simpl. eauto.
Qed.

Section Totality.

Variable cfg : Config.
Hypothesis Hcfg : valid_config cfg.
Variable fuel : nat.
Hypothesis Hfuel : 15 * (LINES cfg * COLUMNS cfg) + 1 <= Z.of_nat fuel.

(** On a well-formed game [min_max] returns, given a recursion bound [n] of
    at least the depth: every leaf below the root has a last segment, and
    every node that is not final has a move. *)
Lemma min_max_returns n state :
  wf cfg (game state) -> 0 <= depth state <= Z.of_nat n ->
  0 < depth state \/ final cfg (game state) <> NotFinal \/ VAR cfg = 1
  \/ last_segment (game state) <> None ->
  exists r, min_max cfg fuel n state = Ret r.
Proof using Hcfg Hfuel.
  revert state. induction n as [|n IH]; intros state Hwf Hd Hroot.
  - assert (is_leaf cfg state = true) as Hleaf
      by (unfold is_leaf; replace (depth state) with 0 by lia; done).
    simpl. rewrite Hleaf.
    destruct (estimate_score_returns cfg Hcfg fuel _ Hwf) as [v ->]; [|simpl; eauto].
    destruct Hroot as [?|[?|[?|?]]]; [lia|tauto|tauto|tauto].
  - simpl. destruct (is_leaf cfg state) eqn:Hleaf.
    + destruct (estimate_score_returns cfg Hcfg fuel _ Hwf) as [v ->]; [|simpl; eauto].
      unfold is_leaf in Hleaf. apply orb_true_iff in Hleaf as [Hz|Hf].
      * apply Z.eqb_eq in Hz. destruct Hroot as [?|[?|[?|?]]]; [lia|tauto|tauto|tauto].
      * left. by destruct (final cfg (game state)).
    + unfold is_leaf in Hleaf. apply orb_false_iff in Hleaf as [Hz Hf].
      apply Z.eqb_neq in Hz.
      assert (final cfg (game state) = NotFinal) as Hnf
        by (by destruct (final cfg (game state))).
      pose proof (wf_shaped _ _ Hwf) as Hb.
      rewrite State_moves_free_slots by done. simpl.
      set (slots := List.filter _ (move_slots cfg)).
      set (mk := fun s : Dir * Z * Z => new_State _ _ _).
      destruct (map_outcome_returns (min_max cfg fuel n) (map mk slots)) as [rs Hrs].
      { intros child Hin. apply in_map_iff in Hin as ([[d i] j] & <- & Hin).
        apply filter_In in Hin as [Hin Hfree]. simpl in Hfree.
        destruct (move_slots_in_scope cfg Hcfg _ Hin) as [Hdir Hs]. simpl in Hdir, Hs.
        apply IH; simpl.
        - by apply draw_wf.
        - lia.
        - right. right. right. unfold draw.
          destruct (in_scope cfg (i + d1 d) (j + d2 d)); by rewrite complete_last. }
      rewrite Hrs. simpl. apply map_outcome_Forall2 in Hrs as Hall.
      assert (Forall (fun r => exists v, score r = Some v) rs) as Hsc.
      { apply Forall_forall. intros y Hy. apply list_elem_of_In in Hy.
        destruct (Forall2_In_r _ _ _ _ Hall Hy) as (m & _ & Hm).
        by eapply min_max_scored. }
      assert (slots <> []) as Hne.
      { destruct (wf_scores _ _ Hwf) as (_ & _ & Hsum).
        pose proof (owned_boxes_bounds cfg _ Hb) as Hown.
        assert (score_min (game state) + score_max (game state)
                < LINES cfg * COLUMNS cfg) as Hlt.
        { unfold final in Hnf.
          destruct (Z.eqb_spec (score_min (game state) + score_max (game state))
                      (LINES cfg * COLUMNS cfg)) as [E|E]; simpl in Hnf.
          - destruct (_ =? _); [done|]. by destruct (_ >? _).
          - destruct Hcfg. lia. }
        destruct (free_slot_exists cfg Hcfg _ Hwf Hlt) as (d & i & j & Hin & Hfree).
        intros E. assert (In (d, i, j) slots) as H by (apply filter_In; by split).
        rewrite E in H. destruct H. }
      destruct rs as [|r1 rs'].
      { apply Forall2_length in Hall. rewrite length_map in Hall.
        destruct slots; [done|discriminate]. }
      apply Forall_cons in Hsc as [Hs1 Hsc].
      destruct (sym_eqb (current_player state) (MAX cfg)); simpl.
      * destruct (extremum_loop_returns Z.gtb r1 rs' Hs1 Hsc) as [x ->]. simpl. eauto.
      * destruct (extremum_loop_returns Z.ltb r1 rs' Hs1 Hsc) as [x ->]. simpl. eauto.
Qed.

(** Hence so does [alpha_beta] from an open window. *)
Lemma alpha_beta_returns n state alpha beta :
  alpha < beta ->
  wf cfg (game state) -> 0 <= depth state <= Z.of_nat n ->
  0 < depth state \/ final cfg (game state) <> NotFinal \/ VAR cfg = 1
  \/ last_segment (game state) <> None ->
  exists r, alpha_beta cfg fuel n alpha beta state = Ret r
            /\ min_max cfg fuel n state = Ret r.
Proof using Hcfg Hfuel.
  intros Hw Hwf Hd Hroot. destruct (min_max_returns n state Hwf Hd Hroot) as [r Hr].
  exists r. split; [by apply alpha_beta_open_window|done].
Qed.

End Totality.

(** C2. Whenever minimax returns a choice, alpha-beta started with a window
    [alpha <= beta] that contains every leaf score returns the same score and
    chooses the same child with the same score. With [alpha < beta], the
    caller's window (-5000, 5000) included, this holds whatever the leaf
    scores are. *)
Theorem alpha_beta_agrees_with_min_max cfg fuel n state alpha beta r :
  alpha < beta \/
  (alpha = beta /\
   Forall (fun o => forall v, o = Ret v -> alpha <= v <= beta)
          (leaf_scores cfg fuel n state)) ->
  min_max cfg fuel n state = Ret r ->
  exists r',
    alpha_beta cfg fuel n alpha beta state = Ret r' /\
    score r' = score r /\ chosen r' = chosen r.
Proof.
  intros [Hw|[-> Hl]] H.
  - exists r. split; [by apply alpha_beta_open_window|done].
  - destruct (alpha_beta_point_window cfg fuel n state beta r H) as (Hs & r' & Hab & Hs' & Hc).
    + eapply Forall_impl; [exact Hl|]. intros o Ho v Hv. specialize (Ho v Hv). lia.
    + exists r'. split; [done|]. split; [congruence|done].
Qed.

Lemma alpha_beta_agrees_with_min_max_witness :
  exists r r',
    min_max cfg_1x2 736 2 search_root = Ret r /\
    alpha_beta cfg_1x2 736 2 (-5000) 5000 search_root = Ret r' /\
    score r' = score r /\ chosen r' = chosen r.
Proof.
  assert (exists r, min_max cfg_1x2 736 2 search_root = Ret r) as [r Hr]
    by (eexists; vm_compute; reflexivity).
  destruct (alpha_beta_agrees_with_min_max cfg_1x2 736 2 search_root (-5000) 5000 r)
    as (r' & H1 & H2 & H3); [left; lia|exact Hr|].
  exists r, r'. repeat split; assumption.
Defined.

(** * Further properties of the code *)

(** ** Indices that are not on the board *)

Lemma py_index_valid len i :
  - Z.of_nat len <= i < Z.of_nat len ->
  py_index len i = Some (Z.to_nat (i mod Z.of_nat len)).
Proof.
  intros H. unfold py_index.
  destruct (Z.leb_spec 0 i), (Z.ltb_spec i (Z.of_nat len)); simpl; try lia.
  - by rewrite Z.mod_small by lia.
  - destruct (Z.ltb_spec i 0), (Z.leb_spec (- Z.of_nat len) i); simpl; try lia.
    do 2 f_equal.
    rewrite <- (Z.mod_small (Z.of_nat len + i) (Z.of_nat len)) by lia.
    rewrite <- (Z_mod_plus_full i 1 (Z.of_nat len)). f_equal. lia.
Qed.

Lemma py_index_invalid len i :
  ~ (- Z.of_nat len <= i < Z.of_nat len) -> py_index len i = None.
Proof.
  intros H. unfold py_index.
  destruct (Z.leb_spec 0 i), (Z.ltb_spec i (Z.of_nat len)),
    (Z.ltb_spec i 0), (Z.leb_spec (- Z.of_nat len) i); simpl; (done || lia).
Qed.

Lemma getitem_valid {A} (l : list A) i :
  - Z.of_nat (length l) <= i < Z.of_nat (length l) ->
  exists x, l !! Z.to_nat (i mod Z.of_nat (length l)) = Some x /\ getitem l i = Ret x.
Proof.
  intros H. unfold getitem. rewrite py_index_valid by done.
  destruct (lookup_lt_is_Some_2 l (Z.to_nat (i mod Z.of_nat (length l)))) as [x Hx].
  - pose proof (Z.mod_pos_bound i (Z.of_nat (length l))). lia.
  - exists x. by rewrite Hx.
Qed.

Lemma getitem_invalid {A} (l : list A) i :
  ~ (- Z.of_nat (length l) <= i < Z.of_nat (length l)) -> getitem l i = Raise IndexError.
Proof. intros H. unfold getitem. by rewrite py_index_invalid. Qed.

Section Indices.

Variable cfg : Config.
Hypothesis Hcfg : valid_config cfg.

Lemma wrapped_in_scope i j :
  indexable cfg i j -> in_scope cfg (i mod LINES cfg) (j mod COLUMNS cfg) = true.
Proof using Hcfg.
  intros _. destruct Hcfg. apply in_scope_iff.
  pose proof (Z.mod_pos_bound i (LINES cfg)).
  pose proof (Z.mod_pos_bound j (COLUMNS cfg)). lia.
Qed.

Lemma get_box_indexable b i j :
  shaped cfg b -> indexable cfg i j ->
  get_box b i j = Ret (box_at b (i mod LINES cfg) (j mod COLUMNS cfg)).
Proof using Hcfg.
  intros Hb [Hi Hj]. pose proof Hb as [Hl Hr]. destruct Hcfg as [HL HC].
  unfold get_box, box_at.
  destruct (getitem_valid b i) as (row & Hrow & ->); [lia|]. simpl.
  rewrite Forall_forall in Hr.
  assert (length row = Z.to_nat (COLUMNS cfg)) as Hlen
    by (eapply Hr, list_elem_of_lookup_2; eauto).
  destruct (getitem_valid row j) as (x & Hx & ->); [lia|].
  rewrite Hl, Z2Nat.id in Hrow by lia. rewrite Hlen, Z2Nat.id in Hx by lia.
  by rewrite Hrow, Hx.
Qed.

Lemma get_box_not_indexable b i j :
  shaped cfg b -> ~ indexable cfg i j -> get_box b i j = Raise IndexError.
Proof using Hcfg.
  intros [Hl Hr] H. destruct Hcfg as [HL HC]. unfold get_box.
  destruct (Z_le_dec (- LINES cfg) i), (Z_lt_dec i (LINES cfg));
    try (rewrite getitem_invalid by lia; done).
  destruct (getitem_valid b i) as (row & Hrow & ->); [lia|]. simpl.
  rewrite Forall_forall in Hr.
  assert (length row = Z.to_nat (COLUMNS cfg)) as Hlen
    by (eapply Hr, list_elem_of_lookup_2; eauto).
  apply getitem_invalid. unfold indexable in H. lia.
Qed.

Lemma set_box_indexable b i j v :
  shaped cfg b -> indexable cfg i j ->
  set_box b i j v = Ret (upd b (i mod LINES cfg) (j mod COLUMNS cfg) v).
Proof using Hcfg.
  intros Hb [Hi Hj]. pose proof Hb as [Hl Hr]. destruct Hcfg as [HL HC].
  pose proof (Z.mod_pos_bound i (LINES cfg)).
  pose proof (Z.mod_pos_bound j (COLUMNS cfg)).
  rewrite <- (set_box_in_scope cfg) by (done || apply in_scope_iff; lia).
  unfold set_box.
  destruct (getitem_valid b i) as (row & Hrow & ->); [lia|]. simpl.
  rewrite Hl, Z2Nat.id in Hrow by lia.
  rewrite (getitem_lookup b (i mod LINES cfg) row) by (lia || done). simpl.
  rewrite Forall_forall in Hr.
  assert (length row = Z.to_nat (COLUMNS cfg)) as Hlen
    by (eapply Hr, list_elem_of_lookup_2; eauto).
  unfold setitem. rewrite !py_index_valid by (rewrite ?length_insert; lia).
  rewrite Hlen, Hl, !Z2Nat.id, !Z.mod_mod by lia. done.
Qed.

Lemma complete_box_indexable g bit i j p :
  shaped cfg (board g) -> indexable cfg i j ->
  let c := complete cfg g bit (i mod LINES cfg) (j mod COLUMNS cfg) p in
  complete_box cfg g bit i j p =
    Ret (mkGame (board c) (score_min c) (score_max c) (filled_box c) (Some (i, j, p))).
Proof using Hcfg.
  intros Hb Hij. pose proof (wrapped_in_scope i j Hij) as Hs.
  pose proof Hs as Hs'. apply in_scope_iff in Hs'.
  unfold complete_box, complete, edges_at, owner_at.
  rewrite get_box_indexable by done. simpl.
  rewrite set_box_indexable by done. simpl.
  rewrite get_box_indexable by (done || by apply shaped_upd). simpl.
  rewrite (box_at_upd cfg) by (done || lia). rewrite !Z.eqb_refl. simpl.
  destruct (_ =? 15); [|done].
  rewrite set_box_indexable by (done || by apply shaped_upd). simpl.
  assert (forall v1 v2, upd (upd (board g) (i mod LINES cfg) (j mod COLUMNS cfg) v1)
                            (i mod LINES cfg) (j mod COLUMNS cfg) v2
                        = upd (board g) (i mod LINES cfg) (j mod COLUMNS cfg) v2) as ->.
  { intros v1 v2. unfold upd. rewrite list_alter_alter_eq. apply list_alter_ext; [|done].
    intros row _. simpl. apply list_insert_insert_eq. }
  by destruct (sym_eqb p (MIN cfg)).
Qed.

End Indices.

(** X1. [complete_box] and [add_segment] do not test that their own box is on
    the board. On a board of the configured size an index pair outside
    [-LINES, LINES) x [-COLUMNS, COLUMNS) raises IndexError; inside it the
    calls return, a negative index addressing the box counted from the end
    (line [i mod LINES], column [j mod COLUMNS]) while [last_segment] records
    the index as it was given. *)
Theorem box_index_bounds cfg g d i j p :
  valid_config cfg -> shaped cfg (board g) ->
  (~ indexable cfg i j ->
     complete_box cfg g (d0 d) i j p = Raise IndexError /\
     add_segment cfg g d i j p = Raise IndexError) /\
  (indexable cfg i j ->
     (exists g',
        complete_box cfg g (d0 d) i j p = Ret g' /\
        board g' = board (complete cfg g (d0 d) (i mod LINES cfg) (j mod COLUMNS cfg) p) /\
        last_segment g' = Some (i, j, p)) /\
     (exists r, add_segment cfg g d i j p = Ret r)).
Proof.
  intros Hcfg Hb. split; intros Hij.
  - unfold add_segment, complete_box. by rewrite !(get_box_not_indexable cfg) by done.
  - pose proof (complete_box_indexable cfg Hcfg g (d0 d) i j p Hb Hij) as Hc.
    simpl in Hc. split; [rewrite Hc; eauto|].
    unfold add_segment. rewrite (get_box_indexable cfg) by done. simpl.
    destruct (_ =? 0); [|eauto]. rewrite Hc. simpl.
    destruct (in_scope cfg (i + d1 d) (j + d2 d)) eqn:Hn; [|eauto].
    rewrite complete_box_in_scope by (simpl; by apply complete_shaped || done).
    simpl. eauto.
Qed.

Lemma box_index_bounds_witness :
  (exists g',
     complete_box cfg_1x2 (new_Game cfg_1x2) (d0 dir_up) (-1) (-1) SymX = Ret g' /\
     board g' = board (complete cfg_1x2 (new_Game cfg_1x2) (d0 dir_up) 0 1 SymX) /\
     last_segment g' = Some (-1, -1, SymX)) /\
  add_segment cfg_1x2 (new_Game cfg_1x2) dir_up 1 0 SymX = Raise IndexError.
Proof.
  assert (valid_config cfg_1x2) as Hcfg by (unfold valid_config; simpl; lia).
  assert (shaped cfg_1x2 (board (new_Game cfg_1x2))) as Hb
    by (split; [reflexivity|repeat constructor]).
  split.
  - apply (proj2 (box_index_bounds cfg_1x2 (new_Game cfg_1x2) dir_up (-1) (-1) SymX Hcfg Hb)).
    unfold indexable. simpl. lia.
  - apply (proj1 (box_index_bounds cfg_1x2 (new_Game cfg_1x2) dir_up 1 0 SymX Hcfg Hb)).
    unfold indexable. simpl. lia.
Defined.

(** ** Segments stay where they are *)

Section Monotone.

Variable cfg : Config.

Lemma draw_own_bits g d i j p :
  wf cfg g -> In d all_dirs -> in_scope cfg i j = true -> free g d i j = true ->
  free (draw cfg g d i j p) d i j = false /\
  (in_scope cfg (i + d1 d) (j + d2 d) = true ->
   free (draw cfg g d i j p) (opposite d) (i + d1 d) (j + d2 d) = false).
Proof.
  intros [Hb Hok Hmir _ _] Hd Hs Hfree. destruct (dir_bits d Hd) as [Hb0 Hb3].
  unfold free. split; [|intros Hn]; apply Z.eqb_neq; intros E.
  - apply (draw_free cfg g d i j p i j (d0 d)) in E as (_ & H & _); try done.
    by destruct H.
  - change (d0 (opposite d)) with (d3 d) in E.
    apply (draw_free cfg g d i j p _ _ (d3 d)) in E as (_ & _ & H); try done.
    destruct H. split; [|done]. by apply neighbour_true.
Qed.

Lemma draw_keeps_bits g d i j p i' j' x :
  wf cfg g -> In d all_dirs -> in_scope cfg i j = true -> free g d i j = true ->
  in_scope cfg i' j' = true -> is_bit x ->
  Z.land (edges_at (board g) i' j') x <> 0 ->
  Z.land (edges_at (board (draw cfg g d i j p)) i' j') x <> 0.
Proof.
  intros [Hb Hok Hmir _ _] Hd Hs Hfree Hs' Hx Hset E.
  apply (draw_free cfg g d i j p i' j' x) in E as (H & _); done.
Qed.

Lemma draw_keeps_owner g d i j p i' j' s :
  wf cfg g -> In d all_dirs -> in_scope cfg i j = true -> free g d i j = true ->
  in_scope cfg i' j' = true ->
  owner_at (board g) i' j' = Some s ->
  owner_at (board (draw cfg g d i j p)) i' j' = Some s.
Proof.
  intros [Hb Hok Hmir _ _] Hd Hs Hfree Hs' Hown.
  destruct (dir_bits d Hd) as [Hb0 Hb3]. pose proof (dir_offset d Hd) as Hoff.
  pose proof Hs' as Hr'. apply in_scope_iff in Hr'.
  pose proof Hfree as Hfree'. unfold free in Hfree'. apply Z.eqb_eq in Hfree'.
  destruct (free_not_full cfg _ _ _ _ Hok Hs Hb0 Hfree') as [_ Hnone].
  assert (owner_at (board (complete cfg g (d0 d) i j p)) i' j' = Some s) as Hown1.
  { rewrite complete_owner by (done || lia).
    destruct (Z.eqb_spec i i') as [<-|]; simpl; [|done].
    destruct (Z.eqb_spec j j') as [<-|]; simpl; [|done]. congruence. }
  unfold draw. destruct (in_scope cfg (i + d1 d) (j + d2 d)) eqn:Hn; [|done].
  rewrite complete_owner by (done || lia || by apply complete_shaped).
  destruct (Z.eqb_spec (i + d1 d) i') as [<-|]; simpl; [|done].
  destruct (Z.eqb_spec (j + d2 d) j') as [<-|]; simpl; [|done].
  assert (Z.land (edges_at (board g) (i + d1 d) (j + d2 d)) (d3 d) = 0) as Hfn
    by (by apply (Hmir d i j Hd Hs Hn)).
  destruct (free_not_full cfg _ _ _ _ Hok Hn Hb3 Hfn) as [_ Hnone'].
  congruence.
Qed.

End Monotone.

(** X2. A segment can be placed once. After [add_segment] has drawn the
    segment [d] of a box, a second call for the same segment returns [None]
    whoever plays, and so does the call that names the segment from the box
    on its other side. *)
Theorem segment_placed_once cfg g d i j p q g' :
  wf cfg g -> In d all_dirs -> in_scope cfg i j = true ->
  add_segment cfg g d i j p = Ret (Some g') ->
  add_segment cfg g' d i j q = Ret None /\
  (in_scope cfg (i + d1 d) (j + d2 d) = true ->
   add_segment cfg g' (opposite d) (i + d1 d) (j + d2 d) q = Ret None).
Proof.
  intros Hwf Hd Hs Hadd. pose proof (wf_shaped _ _ Hwf) as Hb.
  rewrite add_segment_in_scope in Hadd by done.
  destruct (free g d i j) eqn:Hfree; [|discriminate]. injection Hadd as <-.
  destruct (draw_own_bits cfg g d i j p Hwf Hd Hs Hfree) as [H1 H2].
  split; [|intros Hn]; rewrite add_segment_in_scope by (done || by apply draw_shaped).
  - by rewrite H1.
  - by rewrite H2.
Qed.

Lemma segment_placed_once_witness :
  add_segment cfg_1x2 game_1x2_top dir_up 0 0 SymO = Ret None /\
  (in_scope cfg_1x2 (0 + d1 dir_up) (0 + d2 dir_up) = true ->
   add_segment cfg_1x2 game_1x2_top (opposite dir_up) (0 + d1 dir_up) (0 + d2 dir_up) SymO
   = Ret None).
Proof.
  apply (segment_placed_once cfg_1x2 (new_Game cfg_1x2) dir_up 0 0 SymX SymO game_1x2_top).
  - apply new_Game_wf.
  - simpl. tauto.
  - reflexivity.
  - reflexivity.
Defined.

(** X3. A move only adds to the board: whatever sequence of moves is played
    from a well-formed game, every segment recorded in a box stays recorded
    and every box that has an owner keeps that owner. *)
Theorem moves_only_add cfg g g' i j :
  valid_config cfg -> wf cfg g -> rtc (step cfg) g g' ->
  in_scope cfg i j = true ->
  (forall x, is_bit x ->
     Z.land (edges_at (board g) i j) x <> 0 -> Z.land (edges_at (board g') i j) x <> 0) /\
  (forall s, owner_at (board g) i j = Some s -> owner_at (board g') i j = Some s).
Proof.
  intros Hcfg Hwf Hsteps Hs. induction Hsteps as [g|g g1 g2 Hstep _ IH]; [done|].
  pose proof (step_wf cfg Hcfg g g1 Hwf Hstep) as Hwf1.
  destruct (IH Hwf1) as [IHb IHo].
  destruct (step_cases cfg Hcfg g g1 (wf_shaped _ _ Hwf) Hstep)
    as [(d & i0 & j0 & p & Hd & Hs0 & Hfree & _ & ->)| ->].
  - split.
    + intros x Hx Hset. apply IHb; [done|]. by apply draw_keeps_bits.
    + intros s Hown. apply IHo. by apply draw_keeps_owner.
  - split; [intros x Hx Hset; by apply IHb|intros s Hown; by apply IHo].
Qed.

Lemma moves_only_add_witness :
  Z.land (edges_at (board (mkGame [[(15, Some SymO); (9, None)]] 0 1 true
                                  (Some (0, 1, SymX)))) 0 0) 8 <> 0 /\
  owner_at (board (mkGame [[(15, Some SymO); (9, None)]] 0 1 true
                          (Some (0, 1, SymX)))) 0 0 = Some SymO.
Proof.
  assert (valid_config cfg_1x2) as Hcfg by (unfold valid_config; simpl; lia).
  assert (wf cfg_1x2 (game search_child)) as Hwf.
  { change (wf cfg_1x2
              (draw cfg_1x2
                 (draw cfg_1x2
                    (draw cfg_1x2 (draw cfg_1x2 (new_Game cfg_1x2) dir_up 0 0 SymX)
                          dir_left 0 0 SymO) dir_down 0 0 SymX) dir_left 0 1 SymO)).
    repeat (apply draw_wf; [|simpl; tauto|reflexivity|reflexivity]).
    apply new_Game_wf. }
  assert (rtc (step cfg_1x2) (game search_child)
              (mkGame [[(15, Some SymO); (9, None)]] 0 1 true (Some (0, 1, SymX)))) as Hsteps.
  { apply rtc_once.
    apply (step_add cfg_1x2 _ dir_up 0 1 SymX); [simpl; tauto|reflexivity|reflexivity]. }
  destruct (moves_only_add cfg_1x2 (game search_child)
              (mkGame [[(15, Some SymO); (9, None)]] 0 1 true (Some (0, 1, SymX)))
              0 0 Hcfg Hwf Hsteps eq_refl) as [Hbits Hown].
  split.
  - apply (Hbits 8); [unfold is_bit; tauto|discriminate].
  - apply (Hown SymO). reflexivity.
Defined.

(** ** The end of the game *)

Lemma zsum_full {A} (f : A -> Z) l hi :
  (forall x, x ∈ l -> f x <= hi) ->
  zsum f l <= hi * Z.of_nat (length l) /\
  (zsum f l = hi * Z.of_nat (length l) -> forall x, x ∈ l -> f x = hi).
Proof.
  induction l as [|a l IH]; intros Hle; simpl.
  - split; [lia|]. intros _ x Hx. by apply elem_of_nil in Hx.
  - destruct IH as [IH1 IH2]; [intros x Hx; apply Hle; by apply list_elem_of_further|].
    pose proof (Hle a (list_elem_of_here _ _)) as Ha. split; [lia|].
    intros E x Hx. apply elem_of_cons in Hx as [->|Hx]; [lia|]. apply IH2; [lia|done].
Qed.

Lemma final_sum cfg g :
  final cfg g <> NotFinal <-> score_min g + score_max g = LINES cfg * COLUMNS cfg.
Proof.
  unfold final.
  destruct (Z.eqb_spec (score_min g + score_max g) (LINES cfg * COLUMNS cfg)); simpl.
  - destruct (_ =? _); [|destruct (_ >? _)]; split; (done || congruence).
  - split; [done|lia].
Qed.

Section EndOfGame.

Variable cfg : Config.
Hypothesis Hcfg : valid_config cfg.

Lemma all_boxes_full g i j :
  wf cfg g -> score_min g + score_max g = LINES cfg * COLUMNS cfg ->
  in_scope cfg i j = true -> edges_at (board g) i j = 15.
Proof using Hcfg.
  intros [[Hl Hr] Hok Hmir (_ & _ & Hsum) _] Hfull Hs. destruct Hcfg as [HL HC].
  rewrite Hsum in Hfull. unfold owned_boxes in Hfull. rewrite Forall_forall in Hr.
  destruct (shaped_lookup cfg (board g) i j (conj Hl (proj2 (Forall_forall _ _) Hr)) Hs)
    as (row & x & Hrow & Hx & Hbox).
  assert (forall row, row ∈ board g -> zsum owned row <= COLUMNS cfg) as Hrows.
  { intros r Hin. pose proof (zsum_bounds owned r 0 1 (fun x _ => owned_range x)).
    rewrite (Hr r Hin) in *. lia. }
  destruct (zsum_full (zsum owned) (board g) (COLUMNS cfg) Hrows) as [_ Hall].
  assert (zsum owned row = COLUMNS cfg) as Erow.
  { apply Hall; [rewrite Hl; lia|by eapply list_elem_of_lookup_2]. }
  destruct (zsum_full owned row 1 (fun x _ => proj2 (owned_range x))) as [_ Hall'].
  assert (owned x = 1) as Ex.
  { apply Hall'; [|by eapply list_elem_of_lookup_2].
    rewrite (Hr row) by (by eapply list_elem_of_lookup_2). lia. }
  destruct (Hok i j Hs) as [Hrange Hown]. apply land_15_full; [done|].
  apply Hown. unfold owner_at, box_at. rewrite Hrow, Hx. unfold owned in Ex.
  destruct (snd x); [done|lia].
Qed.

Lemma final_no_free g d i j :
  wf cfg g -> score_min g + score_max g = LINES cfg * COLUMNS cfg ->
  In d all_dirs -> in_scope cfg i j = true -> free g d i j = false.
Proof using Hcfg.
  intros Hwf Hfull Hd Hs. unfold free. rewrite (all_boxes_full g i j) by done.
  destruct (dir_bits d Hd) as [Hb0 _]. rewrite land_bit_full by done.
  apply Z.eqb_neq. destruct Hb0 as [-> | [-> | [-> | ->]]]; discriminate.
Qed.

Lemma filter_nil_all {A} (f : A -> bool) l :
  (forall x, In x l -> f x = false) -> List.filter f l = [].
Proof.
  induction l as [|a l IH]; simpl; intros H; [done|].
  rewrite (H a) by auto. apply IH. auto.
Qed.

End EndOfGame.

(** X4. On a well-formed game, the game is final (the scores add up to
    [LINES * COLUMNS]) exactly when [State.moves] returns the empty list,
    which is exactly when no segment of the grid is left undrawn: every call
    of [add_segment] in [Game.moves] then returns [None]. *)
Theorem final_iff_no_moves cfg st :
  valid_config cfg -> wf cfg (game st) ->
  (final cfg (game st) <> NotFinal <-> State_moves cfg st = Ret []) /\
  (final cfg (game st) <> NotFinal <-> undrawn_segments cfg (board (game st)) = []) /\
  (final cfg (game st) <> NotFinal ->
   exists games, Game_moves cfg (game st) (current_player st) = Ret games /\
                 Forall (fun o => o = None) games).
Proof.
  intros Hcfg Hwf. pose proof (wf_shaped _ _ Hwf) as Hb.
  pose proof (free_segments_undrawn cfg Hcfg _ Hwf) as Hperm.
  rewrite State_moves_free_slots by done.
  set (slots := List.filter _ (move_slots cfg)) in *.
  assert (final cfg (game st) <> NotFinal <-> slots = []) as Hslots.
  { rewrite final_sum. split.
    - intros Hfull. apply filter_nil_all. intros [[d i] j] Hin. simpl.
      destruct (move_slots_in_scope cfg Hcfg _ Hin) as [Hd Hs].
      by apply (final_no_free cfg Hcfg).
    - intros E. destruct (wf_scores _ _ Hwf) as (_ & _ & Hsum).
      pose proof (owned_boxes_bounds cfg _ Hb) as Hown.
      destruct (Z.eq_dec (score_min (game st) + score_max (game st))
                  (LINES cfg * COLUMNS cfg)) as [|Hne]; [done|].
      destruct (free_slot_exists cfg Hcfg (game st) Hwf) as (d & i & j & Hin & Hfree).
      { destruct Hcfg. lia. }
      assert (In (d, i, j) slots) as H by (apply filter_In; by split).
      rewrite E in H. destruct H. }
  split; [|split].
  - rewrite Hslots. split; [by intros ->|]. intros [= E]. by destruct slots.
  - rewrite Hslots. split.
    + intros E. rewrite E in Hperm. simpl in Hperm.
      by apply Permutation_nil in Hperm.
    + intros E. rewrite E in Hperm. apply Permutation_sym, Permutation_nil in Hperm.
      by destruct slots.
  - intros Hfin. rewrite Game_moves_shaped by done. eexists. split; [done|].
    apply Forall_forall. intros o Ho. apply list_elem_of_In, in_map_iff in Ho
      as ([[d i] j] & <- & Hin).
    destruct (move_slots_in_scope cfg Hcfg _ Hin) as [Hd Hs]. simpl in Hd, Hs.
    unfold slot_move. rewrite (final_no_free cfg Hcfg); try done. by apply final_sum.
Qed.

Lemma final_iff_no_moves_witness :
  final cfg_1x2 (new_Game cfg_1x2) <> NotFinal <->
  State_moves cfg_1x2 (new_State (new_Game cfg_1x2) SymX 3) = Ret [].
Proof.
  apply (final_iff_no_moves cfg_1x2 (new_State (new_Game cfg_1x2) SymX 3)).
  - unfold valid_config. simpl. lia.
  - apply new_Game_wf.
Defined.

(** ** The two players make the same moves *)

(** X5. The human player and the move generator place segments in the same
    way: a game that [check_position] produces for an accepted pair of
    coordinates is one of the games that [Game.moves] lists for the human
    player, and every game of that list is produced by [check_position] for
    some pair of coordinates. *)
Theorem human_moves_are_generated cfg st :
  valid_config cfg -> wf cfg (game st) ->
  exists games,
    Game_moves cfg (game st) (MIN cfg) = Ret games /\
    (forall line column st',
       check_position cfg line column st = Ret (true, st') ->
       In (Some (game st')) games) /\
    (forall g', In (Some g') games ->
       exists line column,
         check_position cfg line column st = Ret (true, with_game st g')).
Proof.
  intros Hcfg Hwf. pose proof (wf_shaped _ _ Hwf) as Hb.
  rewrite Game_moves_shaped by done. eexists. split; [done|]. split.
  - intros line column st' Hc. destruct (on_lattice cfg line column) eqn:Hl.
    + rewrite check_position_lattice in Hc by done.
      pose proof (slot_of_in_move_slots cfg Hcfg line column Hl) as Hin.
      apply in_map_iff. exists (slot_of cfg line column). split; [|done].
      destruct (slot_of cfg line column) as [[d i] j]. simpl.
      destruct (free (game st) d i j); simplify_eq. done.
    + rewrite check_position_off in Hc by done. simplify_eq.
  - intros g' Hin. apply in_map_iff in Hin as ([[d i] j] & Hmove & Hin).
    destruct (slot_of_segment cfg Hcfg d i j Hin) as [Hl Hslot].
    exists (2 * i + 1 + d1 d), (2 * j + 1 + d2 d).
    rewrite check_position_lattice, Hslot by done.
    simpl in Hmove. destruct (free (game st) d i j); simplify_eq. done.
Qed.

Lemma human_moves_are_generated_witness :
  exists games,
    Game_moves cfg_1x2 game_1x2_top (MIN cfg_1x2) = Ret games /\
    (forall line column st',
       check_position cfg_1x2 line column (new_State game_1x2_top SymX 3)
       = Ret (true, st') ->
       In (Some (game st')) games).
Proof.
  assert (valid_config cfg_1x2) as Hcfg by (unfold valid_config; simpl; lia).
  assert (wf cfg_1x2 game_1x2_top) as Hwf.
  { apply (draw_wf cfg_1x2 (new_Game cfg_1x2) dir_up 0 0 SymX);
      [apply new_Game_wf|simpl; tauto|reflexivity|reflexivity]. }
  destruct (human_moves_are_generated cfg_1x2 (new_State game_1x2_top SymX 3) Hcfg Hwf)
    as (games & H1 & H2 & _).
  exists games. split; [exact H1|exact H2].
Defined.

(** ** The value of a node of the search *)

Lemma extremum_loop_first (is_max : bool) best l x k :
  score best = Some k ->
  extremum_loop (if is_max then Z.gtb else Z.ltb) best l = Ret x ->
  exists v pre post,
    score x = Some v /\ best :: l = pre ++ x :: post /\
    Forall (fun c => exists w, score c = Some w /\ if is_max then w < v else v < w) pre /\
    Forall (fun c => exists w, score c = Some w /\ if is_max then w <= v else v <= w) post.
Proof.
  revert best k. induction l as [|y l IH]; simpl; intros best k Hk H.
  - injection H as <-. exists k, [], []. by repeat split.
  - rewrite Hk in H. destruct (score y) as [ky|] eqn:Hy; [|discriminate].
    set (better := if is_max then Z.gtb else Z.ltb) in *.
    assert (better ky k = true -> if is_max then k < ky else ky < k) as Hbt.
    { unfold better. destruct is_max; [rewrite Z.gtb_ltb|]; apply Z.ltb_lt. }
    assert (better ky k = false -> if is_max then ky <= k else k <= ky) as Hbf.
    { unfold better. destruct is_max; [rewrite Z.gtb_ltb|]; apply Z.ltb_ge. }
    destruct (better ky k) eqn:Hb.
    + destruct (IH y ky Hy H) as (v & pre & post & Hv & Hsplit & Hpre & Hpost).
      exists v, (best :: pre), post. split; [done|]. split; [by rewrite Hsplit|].
      split; [|done]. constructor; [|done]. exists k. split; [done|].
      specialize (Hbt eq_refl).
      destruct pre as [|y' pre']; simplify_eq/=.
      * destruct is_max; lia.
      * apply Forall_cons in Hpre as [(w & Hw & Hlt) _]. simplify_eq.
        destruct is_max; lia.
    + destruct (IH best k Hk H) as (v & pre & post & Hv & Hsplit & Hpre & Hpost).
      specialize (Hbf eq_refl).
      destruct pre as [|b' pre']; simplify_eq/=.
      * eexists _, [], (y :: _). split; [done|]. split; [done|]. split; [done|].
        constructor; [|done]. exists ky. split; [done|]. destruct is_max; lia.
      * eexists v, (_ :: y :: pre'), post. split; [done|]. split; [done|].
        split; [|done]. apply Forall_cons in Hpre as [Hb' Hpre].
        constructor; [done|]. constructor; [|done].
        destruct Hb' as (w & Hw & Hlt). simplify_eq.
        exists ky. split; [done|]. destruct is_max; lia.
Qed.

Lemma min_max_node cfg fuel n state r :
  is_leaf cfg state = false -> min_max cfg fuel (S n) state = Ret r ->
  exists moves next v pre post,
    State_moves cfg state = Ret moves /\
    Forall2 (fun m c => min_max cfg fuel n m = Ret c) moves (possible_moves r) /\
    next_state r = Some next /\ score r = Some v /\ score next = Some v /\
    possible_moves r = pre ++ next :: post /\
    Forall (fun c => exists w, score c = Some w /\
                     if sym_eqb (current_player state) (MAX cfg) then w < v else v < w)
           pre /\
    Forall (fun c => exists w, score c = Some w /\
                     if sym_eqb (current_player state) (MAX cfg) then w <= v else v <= w)
           post.
Proof.
  intros Hleaf H. simpl in H. rewrite Hleaf in H.
  apply bind_Ret in H as (moves & Hmoves & H). apply bind_Ret in H as (rs & Hrs & H).
  apply bind_Ret in H as (next & Hnext & [= <-]). simpl.
  apply map_outcome_Forall2 in Hrs.
  set (is_max := sym_eqb (current_player state) (MAX cfg)) in *.
  assert (exists r1 rs', rs = r1 :: rs' /\
            extremum_loop (if is_max then Z.gtb else Z.ltb) r1 rs' = Ret next)
    as (r1 & rs' & -> & Hx).
  { destruct rs as [|r1 rs']; [by destruct is_max|]. exists r1, rs'.
    split; [done|]. by destruct is_max. }
  assert (exists k, score r1 = Some k) as [k Hk].
  { inversion Hrs as [|m ? ms ? Hm _]; subst. by eapply min_max_scored. }
  destruct (extremum_loop_first is_max r1 rs' next k Hk Hx)
    as (v & pre & post & Hv & Hsplit & Hpre & Hpost).
  exists moves, next, v, pre, post. by repeat split.
Qed.

(** X6. At a node that is not a leaf [min_max] scores every child that
    [State.moves] lists, keeps the scored children in [possible_moves], and
    chooses among them the first one whose score is the largest when MAX is
    to move, the smallest when MIN is to move: the children before the chosen
    one are strictly worse, those after it are not better. The node takes
    the score of the chosen child. *)
Theorem min_max_chooses_first_extremum cfg fuel n state r :
  is_leaf cfg state = false -> min_max cfg fuel (S n) state = Ret r ->
  exists moves next v pre post,
    State_moves cfg state = Ret moves /\
    Forall2 (fun m c => min_max cfg fuel n m = Ret c) moves (possible_moves r) /\
    next_state r = Some next /\ score r = Some v /\ score next = Some v /\
    possible_moves r = pre ++ next :: post /\
    (current_player state = MAX cfg ->
       Forall (fun c => exists w, score c = Some w /\ w < v) pre /\
       Forall (fun c => exists w, score c = Some w /\ w <= v) post) /\
    (current_player state <> MAX cfg ->
       Forall (fun c => exists w, score c = Some w /\ v < w) pre /\
       Forall (fun c => exists w, score c = Some w /\ v <= w) post).
Proof.
  intros Hleaf H.
  destruct (min_max_node cfg fuel n state r Hleaf H)
    as (moves & next & v & pre & post & H1 & H2 & H3 & H4 & H5 & H6 & Hpre & Hpost).
  exists moves, next, v, pre, post. repeat (split; [done|]).
  destruct (sym_eqb (current_player state) (MAX cfg)) eqn:E.
  - split; [done|]. intros Hne. apply sym_eqb_eq in E. done.
  - split; [|done]. intros He. apply sym_eqb_eq in He. congruence.
Qed.

Lemma min_max_chooses_first_extremum_witness :
  exists r moves next v pre post,
    min_max cfg_1x2 736 2 search_root = Ret r /\
    State_moves cfg_1x2 search_root = Ret moves /\
    next_state r = Some next /\ score r = Some v /\
    possible_moves r = pre ++ next :: post.
Proof.
  assert (exists r, min_max cfg_1x2 736 2 search_root = Ret r) as [r Hr]
    by (eexists; vm_compute; reflexivity).
  destruct (min_max_chooses_first_extremum cfg_1x2 736 1 search_root r)
    as (moves & next & v & pre & post & H1 & _ & H3 & H4 & _ & H6 & _);
    [reflexivity|exact Hr|].
  exists r, moves, next, v, pre, post. repeat split; assumption.
Defined.

(** ** The turn of the computer *)

Lemma not_leaf cfg state :
  0 < depth state -> final cfg (game state) = NotFinal -> is_leaf cfg state = false.
Proof.
  intros Hd Hf. unfold is_leaf. rewrite Hf. simpl. rewrite orb_false_r.
  apply Z.eqb_neq. lia.
Qed.

Section Computer.

Variable cfg : Config.
Hypothesis Hcfg : valid_config cfg.
Variable fuel : nat.
Hypothesis Hfuel : 15 * (LINES cfg * COLUMNS cfg) + 1 <= Z.of_nat fuel.

Lemma computer_turn_move n state algorithm_type :
  wf cfg (game state) -> 0 < depth state <= Z.of_nat n ->
  final cfg (game state) = NotFinal ->
  exists r next d i j,
    min_max cfg fuel n state = Ret r /\ next_state r = Some next /\
    computer_turn cfg fuel n state algorithm_type = Ret (with_game r (game next)) /\
    In (d, i, j) (move_slots cfg) /\ free (game state) d i j = true /\
    game next = draw cfg (game state) d i j (current_player state) /\
    current_player r = current_player state /\ depth r = depth state.
Proof using Hcfg Hfuel.
  intros Hwf Hd Hnf. pose proof (not_leaf cfg state (proj1 Hd) Hnf) as Hleaf.
  destruct (alpha_beta_returns cfg Hcfg fuel Hfuel n state (-5000) 5000)
    as (r & Hab & Hmm); [lia|done|lia|left; lia|].
  destruct n as [|n]; [lia|].
  destruct (min_max_node cfg fuel n state r Hleaf Hmm)
    as (moves & next & v & pre & post & Hmoves & Hrs & Hnext & _ & _ & Hsplit & _).
  assert (In next (possible_moves r)) as Hin
    by (rewrite Hsplit; apply in_app_iff; simpl; auto).
  destruct (Forall2_In_r _ _ _ _ Hrs Hin) as (m & Hm & Hmr).
  destruct (min_max_frame cfg fuel n m next Hmr) as (Hg & _ & _).
  rewrite State_moves_free_slots in Hmoves by (done || apply Hwf).
  injection Hmoves as <-. apply in_map_iff in Hm as ([[d i] j] & <- & Hslot).
  apply filter_In in Hslot as [Hslot Hfree]. simpl in Hfree, Hg.
  destruct (min_max_frame cfg fuel (S n) state r Hmm) as (_ & Hp & Hdp).
  exists r, next, d, i, j. split; [done|]. split; [done|]. split; [|done].
  unfold computer_turn. destruct (String.eqb algorithm_type "1").
  - by rewrite Hmm; simpl; rewrite Hnext.
  - by rewrite Hab; simpl; rewrite Hnext.
Qed.

End Computer.

Lemma search_root_wf : wf cfg_1x2 (game search_root).
Proof.
  change (wf cfg_1x2
            (draw cfg_1x2 (draw cfg_1x2 (draw cfg_1x2 (new_Game cfg_1x2) dir_up 0 0 SymX)
                                 dir_left 0 0 SymO) dir_down 0 0 SymX)).
  repeat (apply draw_wf; [|simpl; tauto|reflexivity|reflexivity]).
  apply new_Game_wf.
Qed.

(** X7. On a well-formed game that is not final, searched at least one ply
    deep, [computer_turn] raises nothing and returns the state with its game
    replaced by the result of one call of [add_segment] for the current
    player on a segment that was free; the player and the depth of the state
    are unchanged. The state it returns does not depend on the algorithm
    chosen: minimax and alpha-beta from the window (-5000, 5000) play the
    same move. *)
Theorem computer_turn_plays_a_move cfg fuel n state algorithm_type :
  valid_config cfg -> 15 * (LINES cfg * COLUMNS cfg) + 1 <= Z.of_nat fuel ->
  wf cfg (game state) -> 0 < depth state <= Z.of_nat n ->
  final cfg (game state) = NotFinal ->
  exists state' d i j,
    computer_turn cfg fuel n state algorithm_type = Ret state' /\
    In d all_dirs /\ in_scope cfg i j = true /\
    add_segment cfg (game state) d i j (current_player state) = Ret (Some (game state')) /\
    current_player state' = current_player state /\ depth state' = depth state /\
    forall other_type, computer_turn cfg fuel n state other_type = Ret state'.
Proof.
  intros Hcfg Hfuel Hwf Hd Hnf.
  destruct (computer_turn_move cfg Hcfg fuel Hfuel n state algorithm_type Hwf Hd Hnf)
    as (r & next & d & i & j & Hmm & Hnext & Hturn & Hslot & Hfree & Hg & Hp & Hdp).
  destruct (move_slots_in_scope cfg Hcfg _ Hslot) as [Hdir Hs]. simpl in Hdir, Hs.
  exists (with_game r (game next)), d, i, j. split; [done|]. split; [done|].
  split; [done|]. split; [|split; [done|split; [done|]]].
  - simpl. rewrite add_segment_in_scope, Hfree, Hg by (done || apply Hwf). done.
  - intros other_type.
    destruct (computer_turn_move cfg Hcfg fuel Hfuel n state other_type Hwf Hd Hnf)
      as (r' & next' & _ & _ & _ & Hmm' & Hnext' & Hturn' & _).
    rewrite Hturn'. congruence.
Qed.

Lemma computer_turn_plays_a_move_witness :
  exists state' d i j,
    computer_turn cfg_1x2 736 2 search_root "1" = Ret state' /\
    In d all_dirs /\ in_scope cfg_1x2 i j = true /\
    add_segment cfg_1x2 (game search_root) d i j SymO = Ret (Some (game state')) /\
    computer_turn cfg_1x2 736 2 search_root "2" = Ret state'.
Proof.
  destruct (computer_turn_plays_a_move cfg_1x2 736 2 search_root "1")
    as (state' & d & i & j & H1 & H2 & H3 & H4 & _ & _ & H5).
  - unfold valid_config. simpl. lia.
  - simpl. lia.
  - apply search_root_wf.
  - simpl. lia.
  - reflexivity.
  - exists state', d, i, j. split; [exact H1|]. split; [exact H2|]. split; [exact H3|].
    split; [exact H4|]. apply H5.
Defined.

(** ** The turn of the human player *)

Section Player.

Variable cfg : Config.
Hypothesis Hcfg : valid_config cfg.
Variable py_int : string -> option Z.

Lemma player_turn_cases inputs state :
  shaped cfg (board (game state)) ->
  player_turn cfg py_int inputs state = EOFError \/
  (exists rest, player_turn cfg py_int inputs state = Got None rest /\
                (length rest < length inputs)%nat) \/
  (exists rest line column d i j,
     player_turn cfg py_int inputs state
     = Got (Some (with_game state (draw cfg (game state) d i j (MIN cfg)))) rest /\
     (length rest < length inputs)%nat /\
     on_lattice cfg line column = true /\ slot_of cfg line column = (d, i, j) /\
     free (game state) d i j = true).
Proof using Hcfg.
  intros Hb. induction inputs as [inputs IH'] using (induction_ltof1 _ (@length _)).
  unfold ltof in IH'.
  assert (forall l, (length l < length inputs)%nat ->
            player_turn cfg py_int l state = EOFError \/
            (exists rest, player_turn cfg py_int l state = Got None rest /\
                          (length rest < length inputs)%nat) \/
            (exists rest line column d i j,
               player_turn cfg py_int l state
               = Got (Some (with_game state (draw cfg (game state) d i j (MIN cfg)))) rest /\
               (length rest < length inputs)%nat /\
               on_lattice cfg line column = true /\ slot_of cfg line column = (d, i, j) /\
               free (game state) d i j = true)) as IH.
  { intros l Hl. destruct (IH' l Hl) as [H|[(rest & H & Hr)|(rest & H)]]; [by left| |].
    - right. left. exists rest. split; [done|lia].
    - right. right. destruct H as (line & column & d & i & j & H & Hr & H').
      exists rest, line, column, d, i, j. split; [done|]. split; [lia|done]. }
  clear IH'. rename IH into IH'.
  destruct inputs as [|s1 rest]; [by left|]. simpl.
  destruct (py_int s1) as [line|]; [|apply IH'; simpl; lia].
  destruct (line =? -1).
  { right. left. exists rest. split; [done|simpl; lia]. }
  destruct rest as [|s2 rest']; [by left|].
  destruct (py_int s2) as [column|]; [|apply IH'; simpl; lia].
  destruct (column =? -1).
  { right. left. exists rest'. split; [done|simpl; lia]. }
  destruct (on_lattice cfg line column) eqn:Hl.
  - rewrite check_position_lattice by done.
    destruct (slot_of cfg line column) as [[d i] j] eqn:Hslot.
    destruct (free (game state) d i j) eqn:Hfree.
    + right. right. exists rest', line, column, d, i, j.
      split; [done|]. split; [simpl; lia|done].
    + apply IH'. simpl. lia.
  - rewrite check_position_off by done. apply IH'. simpl. lia.
Qed.

End Player.

(** X8. On a game whose board has the configured shape [player_turn] raises
    nothing of its own, whatever is typed. It either ends with the EOFError
    of [input] because no line is left, or returns [None] because -1 was
    typed, or returns the state with one segment added
    for the human player: a pair of coordinates that [check_position]
    accepts on the state as it was given, so that the attempts rejected
    before left no trace. A call that returns has read at least one line. *)
Theorem player_turn_result cfg py_int inputs state :
  valid_config cfg -> shaped cfg (board (game state)) ->
  player_turn cfg py_int inputs state = EOFError \/
  (exists rest, player_turn cfg py_int inputs state = Got None rest /\
                (length rest < length inputs)%nat) \/
  (exists rest line column state',
     player_turn cfg py_int inputs state = Got (Some state') rest /\
     (length rest < length inputs)%nat /\
     check_position cfg line column state = Ret (true, state') /\
     exists d i j, In d all_dirs /\ in_scope cfg i j = true /\
       add_segment cfg (game state) d i j (MIN cfg) = Ret (Some (game state'))).
Proof.
  intros Hcfg Hb.
  destruct (player_turn_cases cfg Hcfg py_int inputs state Hb)
    as [H|[H|(rest & line & column & d & i & j & H & Hr & Hl & Hslot & Hfree)]];
    [by left|by right; left|].
  right. right. exists rest, line, column. eexists. split; [done|]. split; [done|].
  split.
  - by rewrite check_position_lattice, Hslot, Hfree.
  - pose proof (slot_of_in_scope cfg Hcfg line column Hl) as Hs. rewrite Hslot in Hs.
    destruct Hs as (Hd & Hs & _). exists d, i, j. split; [done|]. split; [done|].
    simpl. by rewrite add_segment_in_scope, Hfree.
Qed.

Lemma player_turn_result_witness :
  player_turn cfg_1x2 decimal ["x"; "0"; "1"; "two"; "1"; "0"]
              (new_State game_1x2_top SymX 3) = EOFError \/
  (exists rest,
     player_turn cfg_1x2 decimal ["x"; "0"; "1"; "two"; "1"; "0"]
                 (new_State game_1x2_top SymX 3) = Got None rest /\
     (length rest < 6)%nat) \/
  (exists rest line column state',
     player_turn cfg_1x2 decimal ["x"; "0"; "1"; "two"; "1"; "0"]
                 (new_State game_1x2_top SymX 3) = Got (Some state') rest /\
     (length rest < 6)%nat /\
     check_position cfg_1x2 line column (new_State game_1x2_top SymX 3)
     = Ret (true, state') /\
     exists d i j, In d all_dirs /\ in_scope cfg_1x2 i j = true /\
       add_segment cfg_1x2 game_1x2_top d i j (MIN cfg_1x2) = Ret (Some (game state'))).
Proof.
  apply (player_turn_result cfg_1x2 decimal ["x"; "0"; "1"; "two"; "1"; "0"]
           (new_State game_1x2_top SymX 3)).
  - unfold valid_config. simpl. lia.
  - split; [reflexivity|]. repeat constructor.
Defined.

(** ** The two displays *)

Lemma string_app_assoc (a b c : string) : (a +:+ b) +:+ c = a +:+ (b +:+ c).
Proof.
  induction a as [|x a IH]; [done|].
  change (String x ((a +:+ b) +:+ c) = String x (a +:+ (b +:+ c))). by rewrite IH.
Qed.

Lemma string_app_nil_r (a : string) : a +:+ "" = a.
Proof.
  induction a as [|x a IH]; [done|].
  change (String x (a +:+ "") = String x a). by rewrite IH.
Qed.

Lemma string_of_list_ascii_app l1 l2 :
  String.string_of_list_ascii (l1 ++ l2)
  = String.string_of_list_ascii l1 +:+ String.string_of_list_ascii l2.
Proof.
  induction l1 as [|x l1 IH]; [done|].
  change (String x (String.string_of_list_ascii (l1 ++ l2))
          = String x (String.string_of_list_ascii l1 +:+ String.string_of_list_ascii l2)).
  by rewrite IH.
Qed.

Lemma for_each_append {A} (l : list A) (body : string -> A -> outcome string)
    (text : A -> string) sir :
  (forall s x, In x l -> body s x = Ret (s +:+ text x)) ->
  for_each l body sir = Ret (sir +:+ foldr String.append "" (map text l)).
Proof.
  revert sir. induction l as [|x l IH]; intros sir H; simpl.
  - by rewrite string_app_nil_r.
  - rewrite H by (by left). simpl. rewrite IH by (intros; apply H; by right).
    by rewrite string_app_assoc.
Qed.

Lemma for_each_collect {A B C} (l : list A)
    (body : list B * list C -> A -> outcome (list B * list C))
    (f : A -> B) (h : A -> list C) acc1 acc2 :
  (forall a1 a2 x, In x l -> body (a1, a2) x = Ret (a1 ++ [f x], a2 ++ h x)) ->
  for_each l body (acc1, acc2) = Ret (acc1 ++ map f l, acc2 ++ flat_map h l).
Proof.
  revert acc1 acc2. induction l as [|x l IH]; intros acc1 acc2 H; simpl.
  - by rewrite !app_nil_r.
  - rewrite H by (by left). simpl. rewrite IH by (intros; apply H; by right).
    by rewrite <- !app_assoc.
Qed.

Lemma py_range_succ n : 0 <= n -> py_range (n + 1) = py_range n ++ [n].
Proof.
  intros Hn. unfold py_range. rewrite Z2Nat.inj_add by lia.
  change (Z.to_nat 1) with 1%nat. rewrite seq_app, map_app. simpl.
  by rewrite Z2Nat.id by lia.
Qed.

Lemma py_range_double n :
  0 <= n ->
  py_range (2 * n + 1) = flat_map (fun i => [2 * i; 2 * i + 1]) (py_range n) ++ [2 * n].
Proof.
  intros Hn. rewrite <- (Z2Nat.id n) by lia. generalize (Z.to_nat n) as k. clear.
  induction k as [|k IH].
  - done.
  - replace (2 * Z.of_nat (S k) + 1) with (2 * Z.of_nat k + 1 + 1 + 1) by lia.
    rewrite (py_range_succ (2 * Z.of_nat k + 1 + 1)),
            (py_range_succ (2 * Z.of_nat k + 1)) by lia. rewrite IH.
    replace (Z.of_nat (S k)) with (Z.of_nat k + 1) by lia.
    rewrite (py_range_succ (Z.of_nat k)) by lia. rewrite flat_map_app. simpl.
    rewrite <- !app_assoc. simpl. repeat f_equal; lia.
Qed.

Lemma string_of_pairs (c : Z -> ascii) l :
  String.string_of_list_ascii (map c (flat_map (fun j => [2 * j; 2 * j + 1]) l))
  = foldr String.append "" (map (fun j => String (c (2 * j)) (String (c (2 * j + 1)) "")) l).
Proof.
  induction l as [|j l IH]; [done|]. simpl flat_map. simpl map. simpl foldr.
  rewrite <- IH. done.
Qed.

Lemma string_concat_cons sep x xs :
  xs <> [] -> String.concat sep (x :: xs) = x +:+ sep +:+ String.concat sep xs.
Proof. by destruct xs. Qed.

Lemma string_concat_pairs sep (r : Z -> string) l z :
  String.concat sep (map r (flat_map (fun i => [2 * i; 2 * i + 1]) l ++ [z]))
  = foldr String.append ""
      (map (fun i => r (2 * i) +:+ sep +:+ r (2 * i + 1) +:+ sep) l) +:+ r z.
Proof.
  induction l as [|i l IH]; [done|]. simpl flat_map. simpl app. simpl map.
  rewrite !string_concat_cons.
  - rewrite IH. simpl foldr. rewrite !string_app_assoc. reflexivity.
  - rewrite map_app. intros E. apply app_eq_nil in E as [_ E]. discriminate.
  - done.
Qed.

Lemma foldr_append_ext {A} (f h : A -> string) l :
  (forall x, In x l -> f x = h x) ->
  foldr String.append "" (map f l) = foldr String.append "" (map h l).
Proof. intros H. by rewrite (map_ext_in f h l H). Qed.

Section Display.

Variable cfg : Config.
Hypothesis Hcfg : valid_config cfg.

Lemma picture_char_dot b line column :
  line mod 2 = 0 -> column mod 2 = 0 -> picture_char cfg b line column = "*"%char.
Proof. intros H1 H2. unfold picture_char. by rewrite H1, H2. Qed.

Lemma segment_drawn_up g i j :
  wf cfg g -> in_scope cfg i j = true ->
  segment_drawn cfg (board g) (2 * i) (2 * j + 1)
  = negb (Z.land (edges_at (board g) i j) 8 =? 0).
Proof using Hcfg.
  intros Hwf Hs.
  assert (In (dir_up, i, j) (move_slots cfg)) as Hin by (apply in_move_slots; tauto).
  pose proof (free_slot_undrawn cfg Hcfg g dir_up i j Hwf Hin) as H.
  unfold free in H. simpl_dirs. rewrite <- H. f_equal; lia.
Qed.

Lemma segment_drawn_left g i j :
  wf cfg g -> in_scope cfg i j = true ->
  segment_drawn cfg (board g) (2 * i + 1) (2 * j)
  = negb (Z.land (edges_at (board g) i j) 1 =? 0).
Proof using Hcfg.
  intros Hwf Hs.
  assert (In (dir_left, i, j) (move_slots cfg)) as Hin by (apply in_move_slots; tauto).
  pose proof (free_slot_undrawn cfg Hcfg g dir_left i j Hwf Hin) as H.
  unfold free in H. simpl_dirs. rewrite <- H. f_equal; lia.
Qed.

Lemma segment_drawn_right g i :
  wf cfg g -> 0 <= i < LINES cfg ->
  segment_drawn cfg (board g) (2 * i + 1) (2 * COLUMNS cfg)
  = negb (Z.land (edges_at (board g) i (COLUMNS cfg - 1)) 4 =? 0).
Proof using Hcfg.
  intros Hwf Hi. destruct Hcfg as [HL HC].
  assert (In (dir_right, i, COLUMNS cfg - 1) (move_slots cfg)) as Hin.
  { apply in_move_slots; [done|]. split; [apply in_scope_iff; lia|tauto]. }
  pose proof (free_slot_undrawn cfg Hcfg g dir_right i (COLUMNS cfg - 1) Hwf Hin) as H.
  unfold free in H. simpl_dirs. rewrite <- H. f_equal; lia.
Qed.

Lemma segment_drawn_down g j :
  wf cfg g -> 0 <= j < COLUMNS cfg ->
  segment_drawn cfg (board g) (2 * LINES cfg) (2 * j + 1)
  = negb (Z.land (edges_at (board g) (LINES cfg - 1) j) 2 =? 0).
Proof using Hcfg.
  intros Hwf Hj. destruct Hcfg as [HL HC].
  assert (In (dir_down, LINES cfg - 1, j) (move_slots cfg)) as Hin.
  { apply in_move_slots; [done|]. split; [apply in_scope_iff; lia|tauto]. }
  pose proof (free_slot_undrawn cfg Hcfg g dir_down (LINES cfg - 1) j Hwf Hin) as H.
  unfold free in H. simpl_dirs. rewrite <- H. f_equal; lia.
Qed.

Lemma picture_line (c : Z -> ascii) :
  String.string_of_list_ascii (map c (py_range (2 * COLUMNS cfg + 1)))
  = foldr String.append ""
      (map (fun j => String (c (2 * j)) (String (c (2 * j + 1)) ""))
           (py_range (COLUMNS cfg)))
    +:+ String (c (2 * COLUMNS cfg)) "".
Proof using Hcfg.
  destruct Hcfg as [_ HC]. rewrite py_range_double by lia.
  rewrite map_app, string_of_list_ascii_app, string_of_pairs. done.
Qed.

Lemma Game_str_picture g :
  wf cfg g -> Game_str cfg g = Ret (String.concat newline (picture cfg (board g))).
Proof using Hcfg.
  intros Hwf. pose proof (wf_shaped _ _ Hwf) as Hb. destruct Hcfg as [HL HC].
  set (top := fun i j : Z =>
         String (picture_char cfg (board g) (2 * i) (2 * j))
                (String (picture_char cfg (board g) (2 * i) (2 * j + 1)) "")).
  set (mid := fun i j : Z =>
         String (picture_char cfg (board g) (2 * i + 1) (2 * j))
                (String (picture_char cfg (board g) (2 * i + 1) (2 * j + 1)) "")).
  set (row := fun i : Z =>
         foldr String.append "" (map (top i) (py_range (COLUMNS cfg)))
         +:+ ("*" +:+ newline)
         +:+ foldr String.append "" (map (mid i) (py_range (COLUMNS cfg)))
         +:+ (String (picture_char cfg (board g) (2 * i + 1) (2 * COLUMNS cfg)) "" +:+ newline)).
  unfold Game_str.
  rewrite (for_each_append _ _ row).
  2:{ intros s i Hi. apply in_py_range in Hi.
      rewrite (for_each_append _ _ (top i)).
      2:{ intros s' j Hj. apply in_py_range in Hj.
          assert (in_scope cfg i j = true) as Hs by (apply in_scope_iff; lia).
          rewrite (get_box_in_scope cfg) by done. simpl. do 2 f_equal. unfold top.
          rewrite picture_char_dot by zdiv.
          unfold picture_char. replace ((2 * i) mod 2) with 0 by zdiv.
          replace ((2 * j + 1) mod 2) with 1 by zdiv. simpl.
          rewrite segment_drawn_up by done. unfold edges_at.
          by destruct (_ =? 0). }
      simpl.
      rewrite (for_each_append _ _ (mid i)).
      2:{ intros s' j Hj. apply in_py_range in Hj.
          assert (in_scope cfg i j = true) as Hs by (apply in_scope_iff; lia).
          rewrite !(get_box_in_scope cfg) by done. simpl.
          rewrite string_app_assoc. do 2 f_equal. unfold mid, picture_char.
          replace ((2 * i + 1) mod 2) with 1 by zdiv.
          replace ((2 * j) mod 2) with 0 by zdiv.
          replace ((2 * j + 1) mod 2) with 1 by zdiv. simpl.
          replace ((2 * i + 1) / 2) with i by zdiv.
          replace ((2 * j + 1) / 2) with j by zdiv.
          rewrite segment_drawn_left by done. unfold edges_at, owner_at.
          destruct (_ =? 0); simpl; by destruct (snd (box_at (board g) i j)) as [[|]|]. }
      simpl.
      assert (in_scope cfg i (COLUMNS cfg - 1) = true) as Hs by (apply in_scope_iff; lia).
      rewrite (get_box_in_scope cfg) by done. simpl.
      unfold row. rewrite !string_app_assoc. repeat f_equal. unfold picture_char.
      replace ((2 * i + 1) mod 2) with 1 by zdiv.
      replace ((2 * COLUMNS cfg) mod 2) with 0 by zdiv. simpl.
      rewrite segment_drawn_right by (done || lia). unfold edges_at.
      by destruct (_ =? 0). }
  simpl.
  rewrite (for_each_append _ _ (top (LINES cfg))).
  2:{ intros s' j Hj. apply in_py_range in Hj.
      assert (in_scope cfg (LINES cfg - 1) j = true) as Hs by (apply in_scope_iff; lia).
      rewrite (get_box_in_scope cfg) by done. simpl. do 2 f_equal. unfold top.
      rewrite picture_char_dot by zdiv.
      unfold picture_char. replace ((2 * LINES cfg) mod 2) with 0 by zdiv.
      replace ((2 * j + 1) mod 2) with 1 by zdiv. simpl.
      rewrite segment_drawn_down by (done || lia). unfold edges_at.
      by destruct (_ =? 0). }
  simpl. f_equal. unfold picture. rewrite (py_range_double (LINES cfg)) by lia.
  rewrite string_concat_pairs. rewrite !picture_line.
  rewrite (picture_char_dot (board g) (2 * LINES cfg) (2 * COLUMNS cfg)) by zdiv.
  fold (top (LINES cfg)).
  change ("" +:+ foldr String.append "" (map row (py_range (LINES cfg))))
    with (foldr String.append "" (map row (py_range (LINES cfg)))).
  rewrite !string_app_assoc. f_equal.
  apply foldr_append_ext. intros i Hi. rewrite !picture_line.
  rewrite (picture_char_dot (board g) (2 * i) (2 * COLUMNS cfg)) by zdiv.
  unfold row. fold (top i). fold (mid i). rewrite !string_app_assoc. reflexivity.
Qed.

Lemma display_box_picture g line column :
  wf cfg g -> 0 <= line <= 2 * LINES cfg -> 0 <= column <= 2 * COLUMNS cfg ->
  display_box cfg (board g) line column
  = Ret (option_map (fun image => (image, (column * box_length, line * box_length)))
                    (picture_image cfg (board g) line column)).
Proof using Hcfg.
  intros Hwf Hl Hc. pose proof (wf_shaped _ _ Hwf) as Hb. destruct Hcfg as [HL HC].
  unfold display_box, picture_image.
  destruct (Z.eqb_spec (line mod 2) 0) as [El|El];
    destruct (Z.eqb_spec (column mod 2) 0) as [Ec|Ec]; simpl; [done| | |].
  - assert (on_lattice cfg line column = true) as Hon by (apply on_lattice_iff; zdiv).
    rewrite (segment_drawn_slot cfg Hcfg g line column Hwf Hon). unfold slot_of, free.
    destruct (Z.eqb_spec line (2 * LINES cfg)) as [E|E].
    + rewrite (bit_clear_in_scope cfg) by (done || apply in_scope_iff; zdiv). simpl. simpl_dirs.
      replace (line / 2 - 1) with (LINES cfg - 1) by zdiv.
      destruct (_ =? 0); simpl; [|done].
      replace (line mod 2 =? column mod 2) with false
        by (symmetry; apply Z.eqb_neq; zdiv). done.
    + replace (line mod 2 =? 0) with true by (symmetry; by apply Z.eqb_eq).
      rewrite (bit_clear_in_scope cfg) by (done || apply in_scope_iff; zdiv). simpl. simpl_dirs.
      destruct (_ =? 0); simpl; [|done].
      replace (line mod 2 =? column mod 2) with false
        by (symmetry; apply Z.eqb_neq; zdiv). done.
  - assert (on_lattice cfg line column = true) as Hon by (apply on_lattice_iff; zdiv).
    rewrite (segment_drawn_slot cfg Hcfg g line column Hwf Hon). unfold slot_of, free.
    replace (line =? 2 * LINES cfg) with false by (symmetry; apply Z.eqb_neq; zdiv).
    replace (line mod 2 =? 0) with false by (symmetry; by apply Z.eqb_neq).
    destruct (Z.eqb_spec column (2 * COLUMNS cfg)) as [E|E].
    + rewrite (bit_clear_in_scope cfg) by (done || apply in_scope_iff; zdiv). simpl. simpl_dirs.
      replace (column / 2 - 1) with (COLUMNS cfg - 1) by zdiv.
      destruct (_ =? 0); simpl; [|done].
      replace (line mod 2 =? column mod 2) with false
        by (symmetry; apply Z.eqb_neq; zdiv). done.
    + rewrite (bit_clear_in_scope cfg) by (done || apply in_scope_iff; zdiv). simpl. simpl_dirs.
      destruct (_ =? 0); simpl; [|done].
      replace (line mod 2 =? column mod 2) with false
        by (symmetry; apply Z.eqb_neq; zdiv). done.
  - replace (line mod 2 =? column mod 2) with true by (symmetry; apply Z.eqb_eq; zdiv).
    replace (column mod 2 =? 1) with true by (symmetry; apply Z.eqb_eq; zdiv). simpl.
    rewrite (get_box_in_scope cfg) by (done || apply in_scope_iff; zdiv). simpl.
    unfold owner_at. by destruct (snd (box_at (board g) (line / 2) (column / 2))) as [[|]|].
Qed.

Lemma display_game_board_picture g :
  wf cfg g ->
  display_game_board cfg (board g)
  = Ret (map (fun line =>
                map (fun column =>
                       (column * (box_length + 1), line * (box_length + 1),
                        box_length, box_length))
                    (py_range (2 * COLUMNS cfg + 1)))
             (py_range (2 * LINES cfg + 1)),
         flat_map (fun line =>
                     flat_map (fun column =>
                                 option_list
                                   (option_map
                                      (fun image =>
                                         (image, (column * box_length, line * box_length)))
                                      (picture_image cfg (board g) line column)))
                              (py_range (2 * COLUMNS cfg + 1)))
                  (py_range (2 * LINES cfg + 1))).
Proof using Hcfg.
  intros Hwf. unfold display_game_board.
  rewrite (for_each_collect _ _
             (fun line =>
                map (fun column =>
                       (column * (box_length + 1), line * (box_length + 1),
                        box_length, box_length))
                    (py_range (2 * COLUMNS cfg + 1)))
             (fun line =>
                flat_map (fun column =>
                            option_list
                              (option_map
                                 (fun image =>
                                    (image, (column * box_length, line * box_length)))
                                 (picture_image cfg (board g) line column)))
                         (py_range (2 * COLUMNS cfg + 1)))); [done|].
  intros boxes screen line Hline. apply in_py_range in Hline.
  rewrite (for_each_collect _ _
             (fun column =>
                (column * (box_length + 1), line * (box_length + 1),
                 box_length, box_length))
             (fun column =>
                option_list
                  (option_map
                     (fun image => (image, (column * box_length, line * box_length)))
                     (picture_image cfg (board g) line column)))); [done|].
  intros box_line screen' column Hcolumn. apply in_py_range in Hcolumn.
  by rewrite display_box_picture by (done || lia).
Qed.

End Display.

(** X9. The text that [Game.__str__] (and so [State.__str__]) builds for a
    well-formed game is the picture of the game on the lattice that the
    player's coordinates address: [2 * LINES + 1] lines of
    [2 * COLUMNS + 1] characters joined by newlines, with a star at every
    dot, [-] or [|] exactly where a segment is drawn, and the owner's symbol
    in the middle of every owned box. *)
Theorem Game_str_is_picture cfg g :
  valid_config cfg -> wf cfg g ->
  Game_str cfg g = Ret (String.concat newline (picture cfg (board g))) /\
  (forall state, game state = g ->
     State_str cfg state = Ret (String.concat newline (picture cfg (board g)))).
Proof.
  intros Hcfg Hwf. split; [by apply Game_str_picture|].
  intros state <-. by apply Game_str_picture.
Qed.

Lemma Game_str_is_picture_witness :
  Game_str cfg_1x2 game_1x2_top = Ret ("*-* *" +:+ newline +:+ "     " +:+ newline +:+ "* * *").
Proof.
  refine (eq_trans (proj1 (Game_str_is_picture cfg_1x2 game_1x2_top _ _)) _).
  - unfold valid_config. simpl. lia.
  - apply (draw_wf cfg_1x2 (new_Game cfg_1x2) dir_up 0 0 SymX);
      [apply new_Game_wf|simpl; tauto|reflexivity|reflexivity].
  - reflexivity.
Defined.

(** X10. On a well-formed game [display_box] puts on the screen, at the
    point [(line, column)] of the lattice, the image of the picture of the
    game: the dot, the line of a drawn segment, the symbol of the owner of a
    box, or nothing; and [display_game_board] raises nothing, shows these
    images for every point of the lattice in reading order and returns one
    area for every point. *)
Theorem display_is_picture cfg g :
  valid_config cfg -> wf cfg g ->
  (forall line column,
     0 <= line <= 2 * LINES cfg -> 0 <= column <= 2 * COLUMNS cfg ->
     display_box cfg (board g) line column
     = Ret (option_map (fun image => (image, (column * box_length, line * box_length)))
                       (picture_image cfg (board g) line column))) /\
  exists boxes,
    display_game_board cfg (board g)
    = Ret (boxes,
           flat_map (fun line =>
                       flat_map (fun column =>
                                   option_list
                                     (option_map
                                        (fun image =>
                                           (image, (column * box_length, line * box_length)))
                                        (picture_image cfg (board g) line column)))
                                (py_range (2 * COLUMNS cfg + 1)))
                    (py_range (2 * LINES cfg + 1))) /\
    Z.of_nat (length boxes) = 2 * LINES cfg + 1 /\
    Forall (fun box_line => Z.of_nat (length box_line) = 2 * COLUMNS cfg + 1) boxes.
Proof.
  intros Hcfg Hwf. split; [intros; by apply display_box_picture|].
  rewrite display_game_board_picture by done. eexists. split; [done|].
  assert (forall n, 0 <= n -> Z.of_nat (length (py_range n)) = n) as Hlen.
  { intros n Hn. unfold py_range. rewrite length_map, length_seq. lia. }
  destruct Hcfg as [HL HC]. split.
  - rewrite length_map. apply Hlen. lia.
  - apply Forall_forall. intros box_line Hin.
    apply list_elem_of_In, in_map_iff in Hin as (line & <- & _).
    rewrite length_map. apply Hlen. lia.
Qed.

Lemma display_is_picture_witness :
  display_box cfg_1x2 (board game_1x2_top) 0 1 = Ret (Some (img_horizontal_line, (50, 0))) /\
  display_box cfg_1x2 (board game_1x2_top) 0 3 = Ret None.
Proof.
  assert (valid_config cfg_1x2) as Hcfg by (unfold valid_config; simpl; lia).
  assert (wf cfg_1x2 game_1x2_top) as Hwf.
  { apply (draw_wf cfg_1x2 (new_Game cfg_1x2) dir_up 0 0 SymX);
      [apply new_Game_wf|simpl; tauto|reflexivity|reflexivity]. }
  split.
  - refine (eq_trans (proj1 (display_is_picture cfg_1x2 game_1x2_top Hcfg Hwf) 0 1 _ _) _);
      [simpl; lia|simpl; lia|reflexivity].
  - reflexivity.
Defined.

(** ** A whole game on the console *)

Lemma filter_remove_one {A} (f f' : A -> bool) l x :
  NoDup l -> In x l -> f x = true -> f' x = false ->
  (forall y, In y l -> y <> x -> f' y = f y) ->
  (length (List.filter f' l) + 1 = length (List.filter f l))%nat.
Proof.
  induction l as [|a l IH]; intros Hnd Hin Hx Hx' Hother; [destruct Hin|].
  apply NoDup_cons in Hnd as [Ha Hnd]. simpl. destruct Hin as [->|Hin].
  - rewrite Hx, Hx'. simpl.
    rewrite (filter_ext_in f' f l); [lia|].
    intros y Hy. apply Hother; [by right|]. intros ->. apply Ha. by apply list_elem_of_In.
  - assert (a <> x) as Hne by (intros ->; apply Ha; by apply list_elem_of_In).
    rewrite (Hother a) by (done || by left).
    specialize (IH Hnd Hin Hx Hx' (fun y Hy => Hother y (or_intror Hy))).
    destruct (f a); simpl; lia.
Qed.

Section Play.

Variable cfg : Config.
Hypothesis Hcfg : valid_config cfg.

Lemma undrawn_free_slots g :
  wf cfg g ->
  length (undrawn_segments cfg (board g))
  = length (List.filter (fun s : Dir * Z * Z => free g (fst (fst s)) (snd (fst s)) (snd s))
                        (move_slots cfg)).
Proof using Hcfg.
  intros Hwf. rewrite <- (Permutation_length (free_segments_undrawn cfg Hcfg g Hwf)).
  by rewrite length_map.
Qed.

Lemma undrawn_after_move g d i j p :
  wf cfg g -> In (d, i, j) (move_slots cfg) -> free g d i j = true ->
  (length (undrawn_segments cfg (board (draw cfg g d i j p))) + 1
   = length (undrawn_segments cfg (board g)))%nat.
Proof using Hcfg.
  intros Hwf Hin Hfree.
  destruct (move_slots_in_scope cfg Hcfg _ Hin) as [Hd Hs]. simpl in Hd, Hs.
  pose proof (draw_wf cfg g d i j p Hwf Hd Hs Hfree) as Hwf'.
  rewrite !undrawn_free_slots by done.
  assert (forall s, In s (move_slots cfg) ->
            negb (free (draw cfg g d i j p) (fst (fst s)) (snd (fst s)) (snd s))
            = negb (free g (fst (fst s)) (snd (fst s)) (snd s))
              || ((fst (slot_segment s) =? fst (slot_segment (d, i, j)))
                  && (snd (slot_segment s) =? snd (slot_segment (d, i, j))))) as Hnew.
  { intros [[d' i'] j'] Hin'. simpl.
    rewrite <- !(free_slot_undrawn cfg Hcfg) by done.
    destruct (slot_of_segment cfg Hcfg d' i' j' Hin') as [Hon _].
    apply on_lattice_iff in Hon as (_ & _ & Hodd).
    by rewrite segment_drawn_draw by done. }
  apply (filter_remove_one _ _ _ (d, i, j)); try done.
  - apply NoDup_move_slots; done.
  - specialize (Hnew _ Hin). simpl in Hnew. rewrite Hfree, !Z.eqb_refl in Hnew.
    simpl in Hnew. by apply negb_true_iff.
  - intros [[d' i'] j'] Hin' Hne. specialize (Hnew _ Hin'). simpl in Hnew |- *.
    destruct (slot_of_segment cfg Hcfg d' i' j' Hin') as [_ Hslot'].
    destruct (slot_of_segment cfg Hcfg d i j Hin) as [_ Hslot].
    replace ((2 * i' + 1 + d1 d' =? 2 * i + 1 + d1 d)
             && (2 * j' + 1 + d2 d' =? 2 * j + 1 + d2 d)) with false in Hnew.
    + rewrite orb_false_r in Hnew.
      destruct (free (draw cfg g d i j p) d' i' j'), (free g d' i' j'); done.
    + symmetry. apply andb_false_iff.
      destruct (Z.eqb_spec (2 * i' + 1 + d1 d') (2 * i + 1 + d1 d)) as [E1|]; [|by left].
      destruct (Z.eqb_spec (2 * j' + 1 + d2 d') (2 * j + 1 + d2 d)) as [E2|]; [|by right].
      rewrite E1, E2 in Hslot'. congruence.
Qed.

Lemma undrawn_none_final g :
  wf cfg g -> (undrawn_segments cfg (board g) = [] <-> final cfg g <> NotFinal).
Proof using Hcfg.
  intros Hwf. rewrite final_sum. split.
  - intros E. destruct (wf_scores _ _ Hwf) as (_ & _ & Hsum).
    pose proof (owned_boxes_bounds cfg _ (wf_shaped _ _ Hwf)) as Hown.
    destruct (Z.eq_dec (score_min g + score_max g) (LINES cfg * COLUMNS cfg))
      as [|Hne]; [done|].
    destruct (free_slot_exists cfg Hcfg g Hwf) as (d & i & j & Hin & Hfree).
    { destruct Hcfg. lia. }
    pose proof (undrawn_free_slots g Hwf) as Hlen. rewrite E in Hlen.
    assert (In (d, i, j)
              (List.filter (fun s : Dir * Z * Z =>
                              free g (fst (fst s)) (snd (fst s)) (snd s))
                           (move_slots cfg))) as H by (apply filter_In; by split).
    destruct (List.filter _ (move_slots cfg)); [destruct H|discriminate].
  - intros Hfull. pose proof (undrawn_free_slots g Hwf) as Hlen.
    rewrite filter_nil_all in Hlen.
    + by destruct (undrawn_segments cfg (board g)).
    + intros [[d i] j] Hin. simpl.
      destruct (move_slots_in_scope cfg Hcfg _ Hin) as [Hd Hs].
      by apply (final_no_free cfg Hcfg).
Qed.

End Play.

Section Run.

Variable cfg : Config.
Hypothesis Hcfg : valid_config cfg.
Variable fuel : nat.
Hypothesis Hfuel : 15 * (LINES cfg * COLUMNS cfg) + 1 <= Z.of_nat fuel.
Variable py_int : string -> option Z.
Variable n : nat.
Variable algorithm_type : string.

Lemma displays_return state :
  wf cfg (game state) ->
  exists text,
    (let* boxes := display_game_board cfg (board (game state)) in State_str cfg state)
    = Ret text.
Proof using Hcfg.
  intros Hwf. rewrite display_game_board_picture by done. simpl.
  unfold State_str. rewrite Game_str_picture by done. eauto.
Qed.

Lemma end_of_turn_wf state : wf cfg (game state) -> wf cfg (game (end_of_turn cfg state)).
Proof. intros [? ? ? ? ?]. by split. Qed.

Lemma final_end_of_turn state :
  final cfg (game (end_of_turn cfg state)) = final cfg (game state).
Proof. done. Qed.

Lemma run_algorithm_total turns inputs state player_moves computer_moves :
  wf cfg (game state) -> 0 < depth state <= Z.of_nat n ->
  final cfg (game state) = NotFinal ->
  (length (undrawn_segments cfg (board (game state))) <= turns)%nat ->
  run_algorithm cfg py_int turns fuel n algorithm_type inputs state
                player_moves computer_moves = EOFError \/
  exists player_moves' computer_moves' state' rest,
    run_algorithm cfg py_int turns fuel n algorithm_type inputs state
                  player_moves computer_moves
    = Got (player_moves', computer_moves', state') rest /\
    wf cfg (game state') /\ rtc (step cfg) (game state) (game state') /\
    player_moves <= player_moves' /\ computer_moves <= computer_moves' /\
    ((final cfg (game state') <> NotFinal /\
      player_moves' + computer_moves'
      = player_moves + computer_moves
        + Z.of_nat (length (undrawn_segments cfg (board (game state))))) \/
     (final cfg (game state') = NotFinal /\ current_player state' = MIN cfg /\
      player_moves' + computer_moves'
      + Z.of_nat (length (undrawn_segments cfg (board (game state'))))
      = player_moves + computer_moves
        + Z.of_nat (length (undrawn_segments cfg (board (game state)))) + 1)).
Proof using Hcfg Hfuel.
  revert inputs state player_moves computer_moves.
  induction turns as [|turns IH]; intros inputs state pm cm Hwf Hd Hnf Hturns.
  { assert (undrawn_segments cfg (board (game state)) = []) as E
      by (destruct (undrawn_segments cfg (board (game state))); [done|simpl in Hturns; lia]).
    apply (undrawn_none_final cfg Hcfg) in E; done. }
  (* what happens once a segment has been placed *)
  assert (forall st1 d i j p rest pm1 cm1,
            In (d, i, j) (move_slots cfg) -> free (game state) d i j = true ->
            game st1 = draw cfg (game state) d i j p -> depth st1 = depth state ->
            pm <= pm1 -> cm <= cm1 -> pm1 + cm1 = pm + cm + 1 ->
            let continue :=
              match (let* boxes := display_game_board cfg (board (game st1)) in
                     State_str cfg st1) with
              | Ret _ =>
                  if print_if_final cfg st1
                  then Got (pm1, cm1, end_of_turn cfg st1) rest
                  else run_algorithm cfg py_int turns fuel n algorithm_type rest
                                     (end_of_turn cfg st1) pm1 cm1
              | Raise e => Failed e
              | OutOfFuel => NoFuel
              end in
            continue = EOFError \/
            exists pm' cm' state' rest',
              continue = Got (pm', cm', state') rest' /\
              wf cfg (game state') /\ rtc (step cfg) (game state) (game state') /\
              pm <= pm' /\ cm <= cm' /\
              ((final cfg (game state') <> NotFinal /\
                pm' + cm'
                = pm + cm + Z.of_nat (length (undrawn_segments cfg (board (game state))))) \/
               (final cfg (game state') = NotFinal /\ current_player state' = MIN cfg /\
                pm' + cm' + Z.of_nat (length (undrawn_segments cfg (board (game state'))))
                = pm + cm
                  + Z.of_nat (length (undrawn_segments cfg (board (game state)))) + 1)))
    as Hnext.
  { intros st1 d i j p rest pm1 cm1 Hin Hfree Hg Hdp Hpm Hcm Hsum continue.
    destruct (move_slots_in_scope cfg Hcfg _ Hin) as [Hdir Hs]. simpl in Hdir, Hs.
    assert (wf cfg (game st1)) as Hwf1 by (rewrite Hg; by apply draw_wf).
    pose proof (undrawn_after_move cfg Hcfg (game state) d i j p Hwf Hin Hfree) as Hlen.
    rewrite <- Hg in Hlen.
    assert (step cfg (game state) (game st1)) as Hstep.
    { apply (step_add cfg _ d i j p); [done|done|].
      rewrite add_segment_in_scope, Hfree, Hg by (done || apply Hwf). done. }
    assert (step cfg (game st1) (game (end_of_turn cfg st1))) as Hreset
      by apply step_reset.
    pose proof (end_of_turn_wf st1 Hwf1) as Hwf2.
    unfold continue. destruct (displays_return st1 Hwf1) as [text ->].
    unfold print_if_final. destruct (final cfg (game st1)) eqn:Hf1; simpl.
    - destruct (IH rest (end_of_turn cfg st1) pm1 cm1)
        as [->|(pm' & cm' & state' & rest' & -> & Hwf' & Hsteps & Hpm' & Hcm' & Hend)].
      { done. }
      { simpl. lia. }
      { by rewrite final_end_of_turn. }
      { simpl. lia. }
      { by left. }
      right. exists pm', cm', state', rest'. split; [done|]. split; [done|].
      split; [by eapply rtc_l; [|eapply rtc_l]|]. split; [lia|]. split; [lia|].
      simpl in Hend. destruct Hend as [[? ?]|(? & ? & ?)]; [left|right];
        repeat split; (done || lia).
    - right. exists pm1, cm1, (end_of_turn cfg st1), rest. split; [done|].
      split; [done|]. split; [by eapply rtc_l; [|eapply rtc_once]|].
      split; [done|]. split; [done|]. left.
      assert (final cfg (game st1) <> NotFinal) as Hfin by congruence.
      apply (undrawn_none_final cfg Hcfg _ Hwf1) in Hfin. rewrite Hfin in Hlen.
      split; [by rewrite final_end_of_turn, Hf1|]. simpl in Hlen. lia.
    - right. exists pm1, cm1, (end_of_turn cfg st1), rest. split; [done|].
      split; [done|]. split; [by eapply rtc_l; [|eapply rtc_once]|].
      split; [done|]. split; [done|]. left.
      assert (final cfg (game st1) <> NotFinal) as Hfin by congruence.
      apply (undrawn_none_final cfg Hcfg _ Hwf1) in Hfin. rewrite Hfin in Hlen.
      split; [by rewrite final_end_of_turn, Hf1|]. simpl in Hlen. lia. }
  cbn [run_algorithm]. destruct (sym_eqb (current_player state) (MIN cfg)) eqn:Hp.
  - destruct (player_turn_cases cfg Hcfg py_int inputs state (wf_shaped _ _ Hwf))
      as [->|[(rest & -> & _)
             |(rest & line & column & d & i & j & -> & _ & Hon & Hslot & Hfree)]].
    + by left.
    + right. exists (pm + 1), cm, state, rest. split; [done|]. split; [done|].
      split; [done|]. split; [lia|]. split; [lia|]. right.
      split; [done|]. split; [by apply sym_eqb_eq|lia].
    + apply (Hnext _ d i j (MIN cfg)); try done; try lia.
      rewrite <- Hslot. by apply slot_of_in_move_slots.
  - destruct (computer_turn_move cfg Hcfg fuel Hfuel n state algorithm_type Hwf Hd Hnf)
      as (r & next & d & i & j & _ & _ & -> & Hin & Hfree & Hg & _ & Hdp).
    cbn [bind of_outcome]. apply (Hnext _ d i j (current_player state)); try done; lia.
Qed.

End Run.

(** X11. A game on the console raises nothing of its own. From a well-formed
    game that is not final, searched at least one ply deep, [run_algorithm]
    either ends with the EOFError of [input] because no line is left, or
    stops because the player typed -1 (that turn of the
    player is counted although no segment was placed), or goes on until the
    game is final. Every other turn places exactly one segment: when the
    game is played to the end the two counters have grown together by the
    number of segments that were undrawn at the start. *)
Theorem run_algorithm_plays_the_game cfg py_int turns fuel n algorithm_type inputs state
    player_moves computer_moves :
  valid_config cfg -> 15 * (LINES cfg * COLUMNS cfg) + 1 <= Z.of_nat fuel ->
  wf cfg (game state) -> 0 < depth state <= Z.of_nat n ->
  final cfg (game state) = NotFinal ->
  (length (undrawn_segments cfg (board (game state))) <= turns)%nat ->
  run_algorithm cfg py_int turns fuel n algorithm_type inputs state
                player_moves computer_moves = EOFError \/
  exists player_moves' computer_moves' state' rest,
    run_algorithm cfg py_int turns fuel n algorithm_type inputs state
                  player_moves computer_moves
    = Got (player_moves', computer_moves', state') rest /\
    wf cfg (game state') /\ rtc (step cfg) (game state) (game state') /\
    player_moves <= player_moves' /\ computer_moves <= computer_moves' /\
    ((final cfg (game state') <> NotFinal /\
      player_moves' + computer_moves'
      = player_moves + computer_moves
        + Z.of_nat (length (undrawn_segments cfg (board (game state))))) \/
     (final cfg (game state') = NotFinal /\ current_player state' = MIN cfg /\
      player_moves' + computer_moves'
      + Z.of_nat (length (undrawn_segments cfg (board (game state'))))
      = player_moves + computer_moves
        + Z.of_nat (length (undrawn_segments cfg (board (game state)))) + 1)).
Proof. intros Hcfg Hfuel. by apply run_algorithm_total. Qed.

Lemma run_algorithm_plays_the_game_witness :
  run_algorithm cfg_1x1 decimal 4 16 1 "2" ["0"; "1"; "1"; "2"]
                (new_State (new_Game cfg_1x1) SymX 1) 0 0 = EOFError \/
  exists player_moves' computer_moves' state' rest,
    run_algorithm cfg_1x1 decimal 4 16 1 "2" ["0"; "1"; "1"; "2"]
                  (new_State (new_Game cfg_1x1) SymX 1) 0 0
    = Got (player_moves', computer_moves', state') rest /\
    wf cfg_1x1 (game state') /\
    rtc (step cfg_1x1) (new_Game cfg_1x1) (game state') /\
    0 <= player_moves' /\ 0 <= computer_moves' /\
    ((final cfg_1x1 (game state') <> NotFinal /\
      player_moves' + computer_moves'
      = 0 + 0 + Z.of_nat (length (undrawn_segments cfg_1x1 (board (new_Game cfg_1x1))))) \/
     (final cfg_1x1 (game state') = NotFinal /\ current_player state' = MIN cfg_1x1 /\
      player_moves' + computer_moves'
      + Z.of_nat (length (undrawn_segments cfg_1x1 (board (game state'))))
      = 0 + 0 + Z.of_nat (length (undrawn_segments cfg_1x1 (board (new_Game cfg_1x1)))) + 1)).
Proof.
  apply (run_algorithm_plays_the_game cfg_1x1 decimal 4 16 1 "2" ["0"; "1"; "1"; "2"]
           (new_State (new_Game cfg_1x1) SymX 1) 0 0).
  - unfold valid_config. simpl. lia.
  - simpl. lia.
  - apply new_Game_wf.
  - simpl. lia.
  - reflexivity.
  - vm_compute. lia.
Defined.

(** ** The settings of a game *)

Lemma read_difficulty_range inputs :
  match read_difficulty inputs with
  | Got difficulty rest => 1 <= difficulty <= 3 /\ (length rest < length inputs)%nat
  | EOFError => True
  | Failed _ | NoFuel => False
  end.
Proof.
  induction inputs as [|s rest IH]; simpl; [done|].
  destruct (String.eqb s "1"); [split; [lia|simpl; lia]|].
  destruct (String.eqb s "2"); [split; [lia|simpl; lia]|].
  destruct (String.eqb s "3"); [split; [lia|simpl; lia]|].
  destruct (read_difficulty rest) as [d rest'| | |]; try done.
  destruct IH. split; [done|simpl; lia].
Qed.

Lemma read_lines_and_columns_range py_int inputs :
  match read_lines_and_columns py_int inputs with
  | Got (lines, columns) rest =>
      1 <= lines <= 7 /\ 1 <= columns <= 7 /\ (length rest < length inputs)%nat
  | EOFError => True
  | Failed _ | NoFuel => False
  end.
Proof.
  induction inputs as [inputs IH] using (induction_ltof1 _ (@length _)).
  unfold ltof in IH.
  assert (forall l, (length l < length inputs)%nat ->
            match read_lines_and_columns py_int l with
            | Got (lines, columns) rest =>
                1 <= lines <= 7 /\ 1 <= columns <= 7 /\ (length rest < length inputs)%nat
            | EOFError => True
            | Failed _ | NoFuel => False
            end) as IH'.
  { intros l Hl. specialize (IH l Hl).
    destruct (read_lines_and_columns py_int l) as [[lines columns] rest| | |]; try done.
    destruct IH as (? & ? & ?). repeat split; lia. }
  destruct inputs as [|s1 rest]; simpl; [done|].
  destruct (py_int s1) as [lines|]; [|apply IH'; simpl; lia].
  destruct rest as [|s2 rest']; [done|].
  destruct (py_int s2) as [columns|]; [|apply IH'; simpl; lia].
  destruct (Z.ltb_spec lines 2); simpl; [apply IH'; simpl; lia|].
  destruct (Z.ltb_spec columns 2); simpl; [apply IH'; simpl; lia|].
  rewrite !Z.gtb_ltb.
  destruct (Z.ltb_spec 8 lines); simpl; [apply IH'; simpl; lia|].
  destruct (Z.ltb_spec 8 columns); simpl; [apply IH'; simpl; lia|].
  repeat split; lia.
Qed.

(** X12. [read_difficulty] raises nothing and returns only 1, 2 or 3: the
    first line typed that is one of these numerals, read as a number. The
    search of the first turn therefore never starts at depth 0. *)
Theorem read_difficulty_spec inputs :
  match read_difficulty inputs with
  | Got difficulty rest =>
      1 <= difficulty <= 3 /\
      exists skipped s,
        inputs = skipped ++ s :: rest /\
        (s = "1" /\ difficulty = 1 \/ s = "2" /\ difficulty = 2
         \/ s = "3" /\ difficulty = 3) /\
        Forall (fun s => s <> "1" /\ s <> "2" /\ s <> "3") skipped
  | EOFError => Forall (fun s => s <> "1" /\ s <> "2" /\ s <> "3") inputs
  | Failed _ | NoFuel => False
  end.
Proof.
  induction inputs as [|s rest IH]; simpl; [done|].
  destruct (String.eqb_spec s "1") as [->|H1];
    [split; [lia|]; exists [], "1"; split; [done|]; split; [tauto|done]|].
  destruct (String.eqb_spec s "2") as [->|H2];
    [split; [lia|]; exists [], "2"; split; [done|]; split; [tauto|done]|].
  destruct (String.eqb_spec s "3") as [->|H3];
    [split; [lia|]; exists [], "3"; split; [done|]; split; [tauto|done]|].
  destruct (read_difficulty rest) as [d rest'| | |]; try done.
  - destruct IH as (Hd & skipped & s' & -> & Hs' & Hsk). split; [done|].
    exists (s :: skipped), s'. split; [done|]. split; [done|]. by constructor.
  - by constructor.
Qed.

(** X13. [read_lines_and_columns] raises nothing and sets [Game.LINES] and
    [Game.COLUMNS] only to values between 1 and 7, that is, to a
    configuration for which the properties of the game hold; the pair it
    accepts is two consecutive lines that [int] reads as numbers of dots
    between 2 and 8. *)
Theorem read_lines_and_columns_spec py_int inputs :
  match read_lines_and_columns py_int inputs with
  | Got (lines, columns) rest =>
      (forall human policy, valid_config (mkConfig lines columns human policy)) /\
      exists skipped s1 s2,
        inputs = skipped ++ s1 :: s2 :: rest /\
        py_int s1 = Some (lines + 1) /\ py_int s2 = Some (columns + 1)
  | EOFError => True
  | Failed _ | NoFuel => False
  end.
Proof.
  induction inputs as [inputs IH] using (induction_ltof1 _ (@length _)).
  unfold ltof in IH.
  assert (forall pre l, inputs = pre ++ l -> pre <> [] ->
            match read_lines_and_columns py_int l with
            | Got (lines, columns) rest =>
                (forall human policy, valid_config (mkConfig lines columns human policy)) /\
                exists skipped s1 s2,
                  inputs = skipped ++ s1 :: s2 :: rest /\
                  py_int s1 = Some (lines + 1) /\ py_int s2 = Some (columns + 1)
            | EOFError => True
            | Failed _ | NoFuel => False
            end) as IH'.
  { intros pre l -> Hpre.
    assert (length l < length (pre ++ l))%nat as Hl
      by (rewrite length_app; destruct pre; [done|simpl; lia]).
    specialize (IH l Hl).
    destruct (read_lines_and_columns py_int l) as [[lines columns] rest| | |]; try done.
    destruct IH as (Hv & skipped & s1 & s2 & -> & H1 & H2). split; [done|].
    exists (pre ++ skipped), s1, s2. by rewrite <- app_assoc. }
  destruct inputs as [|s1 rest]; simpl; [done|].
  destruct (py_int s1) as [lines|] eqn:E1; [|by apply (IH' [s1])].
  destruct rest as [|s2 rest']; [done|].
  destruct (py_int s2) as [columns|] eqn:E2; [|by apply (IH' [s1; s2])].
  destruct (Z.ltb_spec lines 2); simpl; [by apply (IH' [s1; s2])|].
  destruct (Z.ltb_spec columns 2); simpl; [by apply (IH' [s1; s2])|].
  rewrite !Z.gtb_ltb.
  destruct (Z.ltb_spec 8 lines); simpl; [by apply (IH' [s1; s2])|].
  destruct (Z.ltb_spec 8 columns); simpl; [by apply (IH' [s1; s2])|].
  split; [intros; unfold valid_config; simpl; lia|].
  exists [], s1, s2. split; [done|]. split; [rewrite E1|rewrite E2]; f_equal; lia.
Qed.

(** ** A game as [main] sets it up *)

Lemma rtc_reachable cfg g g' :
  reachable cfg g -> rtc (step cfg) g g' -> reachable cfg g'.
Proof.
  intros Hr Hsteps. induction Hsteps as [|g1 g2 g3 Hstep _ IH]; [done|].
  apply IH. by eapply reach_step.
Qed.

(** X14. The console game that [main] starts raises nothing of its own.
    When [read_game_type] has returned false (the answer ['no'], so that
    the human plays through [player_turn]), [read_difficulty] a depth and
    [read_lines_and_columns] a size, [run_algorithm], called as [main]
    calls it on [State(Game(), 'X', max_depth)] with both counters at 0,
    either ends with the EOFError of [input] because no line is left, or
    stops on -1, or ends with a final game after exactly
    [2 * LINES * COLUMNS + LINES + COLUMNS] turns. A recursion bound of 3,
    736 passes of the evaluator's loop and 112 turns are enough for every
    size that can be chosen. The graphical game is not covered. *)
Theorem console_game_of_main_plays_out py_int human policy algorithm_type
    typed_depth typed_size typed_type inputs max_depth lines columns
    rest_depth rest_size rest_type :
  read_difficulty typed_depth = Got max_depth rest_depth ->
  read_lines_and_columns py_int typed_size = Got (lines, columns) rest_size ->
  read_game_type typed_type = Got false rest_type ->
  let cfg := mkConfig lines columns human policy in
  let state := new_State (new_Game cfg) SymX max_depth in
  run_algorithm cfg py_int 112 736 3 algorithm_type inputs state 0 0 = EOFError \/
  exists player_moves computer_moves state' rest,
    run_algorithm cfg py_int 112 736 3 algorithm_type inputs state 0 0
    = Got (player_moves, computer_moves, state') rest /\
    reachable cfg (game state') /\
    ((final cfg (game state') <> NotFinal /\
      player_moves + computer_moves = 2 * lines * columns + lines + columns) \/
     (final cfg (game state') = NotFinal /\ current_player state' = human /\
      player_moves + computer_moves
      + Z.of_nat (length (undrawn_segments cfg (board (game state'))))
      = 2 * lines * columns + lines + columns + 1)).
Proof.
  intros Hdepth Hsize _ cfg state.
  pose proof (read_difficulty_range typed_depth) as Hd. rewrite Hdepth in Hd.
  pose proof (read_lines_and_columns_range py_int typed_size) as Hs. rewrite Hsize in Hs.
  destruct Hd as [Hd _]. destruct Hs as (HL & HC & _).
  assert (valid_config cfg) as Hcfg by (unfold valid_config; simpl; lia).
  pose proof (new_Game_wf cfg) as Hwf.
  assert (Z.of_nat (length (undrawn_segments cfg (board (new_Game cfg))))
          = 2 * lines * columns + lines + columns) as Hall.
  { rewrite (undrawn_free_slots cfg Hcfg _ Hwf).
    change (2 * lines * columns + lines + columns)
      with (2 * LINES cfg * COLUMNS cfg + LINES cfg + COLUMNS cfg).
    rewrite <- (length_move_slots cfg Hcfg). f_equal. f_equal.
    rewrite (filter_ext_in _ (fun _ => true)).
    - clear. induction (move_slots cfg) as [|s l IH]; simpl; congruence.
    - intros [[d i] j] Hin. simpl.
      destruct (move_slots_in_scope cfg Hcfg _ Hin) as [_ Hsc]. simpl in Hsc.
      unfold free, edges_at. by rewrite new_Game_lookup. }
  destruct (run_algorithm_total cfg Hcfg 736 ltac:(simpl; nia) py_int 3 algorithm_type
              112 inputs state 0 0)
    as [H|(pm & cm & st' & rest & H & Hwf' & Hsteps & Hpm & Hcm & Hend)].
  - done.
  - simpl. lia.
  - assert (~ final cfg (game state) <> NotFinal) as Hn
      by (rewrite final_sum; simpl; nia).
    destruct (final cfg (game state)); [done| |]; destruct Hn; done.
  - apply Nat2Z.inj_le. change (game state) with (new_Game cfg). rewrite Hall. nia.
  - by left.
  - right. exists pm, cm, st', rest. split; [done|]. split.
    + apply (rtc_reachable cfg (new_Game cfg)); [apply reach_new|done].
    + change (game state) with (new_Game cfg) in Hend. rewrite Hall in Hend.
      destruct Hend as [[Hf Hsum]|(Hf & Hp & Hsum)]; [left|right].
      * split; [done|]. lia.
      * split; [done|]. split; [done|]. lia.
Qed.

Lemma console_game_of_main_plays_out_witness :
  run_algorithm (mkConfig 1 1 SymX 2) decimal 112 736 3 "1" ["0"; "1"; "-1"]
                (new_State (new_Game (mkConfig 1 1 SymX 2)) SymX 3) 0 0 = EOFError \/
  exists player_moves computer_moves state' rest,
    run_algorithm (mkConfig 1 1 SymX 2) decimal 112 736 3 "1" ["0"; "1"; "-1"]
                  (new_State (new_Game (mkConfig 1 1 SymX 2)) SymX 3) 0 0
    = Got (player_moves, computer_moves, state') rest /\
    reachable (mkConfig 1 1 SymX 2) (game state') /\
    ((final (mkConfig 1 1 SymX 2) (game state') <> NotFinal /\
      player_moves + computer_moves = 2 * 1 * 1 + 1 + 1) \/
     (final (mkConfig 1 1 SymX 2) (game state') = NotFinal /\
      current_player state' = SymX /\
      player_moves + computer_moves
      + Z.of_nat (length (undrawn_segments (mkConfig 1 1 SymX 2) (board (game state'))))
      = 2 * 1 * 1 + 1 + 1 + 1)).
Proof.
  apply (console_game_of_main_plays_out decimal SymX 2 "1" ["hard"; "3"] ["2"; "2"]
           ["maybe"; "no"] ["0"; "1"; "-1"] 3 1 1 [] [] []); reflexivity.
Defined.

(** ** The value that the search returns *)

Lemma min_max_leaf_value cfg fuel n state r :
  min_max cfg fuel n state = Ret r ->
  exists v, score r = Some v /\ In (Ret v) (leaf_scores cfg fuel n state).
Proof.
  revert state r. induction n as [|n IH]; intros state r H.
  - simpl in *. destruct (is_leaf cfg state); [|discriminate].
    apply bind_Ret in H as (v & Hv & [= <-]). exists v. rewrite Hv. simpl. auto.
  - destruct (is_leaf cfg state) eqn:Hleaf.
    + simpl in *. rewrite Hleaf in *.
      apply bind_Ret in H as (v & Hv & [= <-]). exists v. rewrite Hv. simpl. auto.
    + destruct (min_max_node cfg fuel n state r Hleaf H)
        as (moves & next & v & pre & post & Hmoves & Hrs & _ & Hv & Hnv & Hsplit & _).
      assert (In next (possible_moves r)) as Hin
        by (rewrite Hsplit; apply in_app_iff; simpl; auto).
      destruct (Forall2_In_r _ _ _ _ Hrs Hin) as (m & Hm & Hmr).
      destruct (IH m next Hmr) as (v' & Hv' & Hleafs).
      exists v. split; [done|]. simpl. rewrite Hleaf, Hmoves.
      apply in_flat_map. exists m. split; [done|]. congruence.
Qed.

Section Value.

Variable cfg : Config.
Hypothesis Hcfg : valid_config cfg.
Variable fuel : nat.

Lemma estimate_score_range g v :
  wf cfg g -> estimate_score cfg fuel g = Ret v -> -100000 <= v <= 100000.
Proof using Hcfg.
  intros Hwf Hv.
  assert (forall w,
            (let* a := open_boxes cfg fuel g (MAX cfg) in
             let* b := open_boxes cfg fuel g (MIN cfg) in Ret (a - b)) = Ret w ->
            -100000 <= w <= 100000) as Hopen.
  { intros w Hw. apply bind_Ret in Hw as (a & Ha & Hw).
    apply bind_Ret in Hw as (b & Hb & [= <-]).
    apply (open_boxes_bound cfg Hcfg fuel g (MAX cfg) Hwf) in Ha.
    apply (open_boxes_bound cfg Hcfg fuel g (MIN cfg) Hwf) in Hb.
    destruct Hcfg. nia. }
  unfold estimate_score in Hv. destruct (final cfg g) as [| |s].
  - by apply Hopen.
  - injection Hv as <-. lia.
  - destruct (sym_eqb s (MAX cfg)); [injection Hv as <-; lia|].
    destruct (sym_eqb s (MIN cfg)); [injection Hv as <-; lia|]. by apply Hopen.
Qed.

Lemma leaf_scores_range n state v :
  wf cfg (game state) -> In (Ret v) (leaf_scores cfg fuel n state) ->
  -100000 <= v <= 100000.
Proof using Hcfg.
  revert state. induction n as [|n IH]; intros state Hwf Hin; simpl in Hin.
  - destruct (is_leaf cfg state); [|destruct Hin].
    destruct Hin as [Hv|[]]. by eapply estimate_score_range.
  - destruct (is_leaf cfg state).
    { destruct Hin as [Hv|[]]. by eapply estimate_score_range. }
    rewrite State_moves_free_slots in Hin by (done || apply Hwf).
    apply in_flat_map in Hin as (m & Hm & Hin).
    apply in_map_iff in Hm as ([[d i] j] & <- & Hslot).
    apply filter_In in Hslot as [Hslot Hfree]. simpl in Hfree.
    destruct (move_slots_in_scope cfg Hcfg _ Hslot) as [Hd Hs]. simpl in Hd, Hs.
    eapply IH; [|exact Hin]. simpl. by apply draw_wf.
Qed.

End Value.

(** X15. The score that [min_max] gives to a state is the static
    evaluation of one of the leaves of the tree it walked: the search adds
    nothing of its own to the evaluations. On a well-formed game it
    therefore lies between -100000 and 100000. *)
Theorem min_max_score_is_a_leaf_evaluation cfg fuel n state r :
  min_max cfg fuel n state = Ret r ->
  exists v, score r = Some v /\ In (Ret v) (leaf_scores cfg fuel n state) /\
            (valid_config cfg -> wf cfg (game state) -> -100000 <= v <= 100000).
Proof.
  intros H. destruct (min_max_leaf_value cfg fuel n state r H) as (v & Hv & Hin).
  exists v. split; [done|]. split; [done|]. intros Hcfg Hwf.
  by eapply leaf_scores_range.
Qed.

Lemma min_max_score_is_a_leaf_evaluation_witness :
  exists r v,
    min_max cfg_1x2 736 2 search_root = Ret r /\ score r = Some v /\
    In (Ret v) (leaf_scores cfg_1x2 736 2 search_root) /\ -100000 <= v <= 100000.
Proof.
  assert (exists r, min_max cfg_1x2 736 2 search_root = Ret r) as [r Hr]
    by (eexists; vm_compute; reflexivity).
  destruct (min_max_score_is_a_leaf_evaluation cfg_1x2 736 2 search_root r Hr)
    as (v & H1 & H2 & H3).
  exists r, v. split; [exact Hr|]. split; [exact H1|]. split; [exact H2|].
  apply H3; [unfold valid_config; simpl; lia|apply search_root_wf].
Defined.

(** ** Whose turn it is in the game that is played *)

(** X16. In [run_algorithm] the flag [filled_box] is false when a turn
    starts: it is false in a new game and the loop resets it after every
    turn. The player of the next turn is then decided by the move alone: the
    turn stays with the player who placed the segment exactly when the
    segment closed a box, and passes to the opponent otherwise. *)
Theorem turn_passes_unless_box_closed cfg state d i j g' moved :
  shaped cfg (board (game state)) -> filled_box (game state) = false ->
  In d all_dirs -> in_scope cfg i j = true ->
  add_segment cfg (game state) d i j (current_player state) = Ret (Some g') ->
  game moved = g' -> current_player moved = current_player state ->
  current_player (end_of_turn cfg moved)
  = (if score_min (game state) + score_max (game state) <? score_min g' + score_max g'
     then current_player state else other cfg (current_player state)) /\
  filled_box (game (end_of_turn cfg moved)) = false /\
  filled_box (new_Game cfg) = false /\
  board (game (end_of_turn cfg moved)) = board g' /\
  score_min (game (end_of_turn cfg moved)) = score_min g' /\
  score_max (game (end_of_turn cfg moved)) = score_max g'.
Proof.
  intros Hb Hflag Hd Hs Hadd Hg Hp.
  rewrite add_segment_in_scope in Hadd by done.
  destruct (free (game state) d i j); [|discriminate]. injection Hadd as <-.
  split; [|simpl; by rewrite Hg]. simpl. unfold next_player. rewrite Hg, Hp.
  pose proof (draw_filled cfg (game state) d i j (current_player state)) as Hfilled.
  simpl in Hfilled. rewrite Hfilled, Hflag. simpl.
  unfold other.
  destruct (sym_MIN_or_MAX cfg (current_player state)) as [-> | ->].
  - rewrite sym_eqb_refl, MAX_MIN_neq. simpl.
    match goal with |- context [Z.ltb ?a ?b] => by destruct (Z.ltb a b) end.
  - rewrite sym_eqb_refl, MIN_MAX_neq. simpl.
    match goal with |- context [Z.ltb ?a ?b] => by destruct (Z.ltb a b) end.
Qed.

Lemma turn_passes_unless_box_closed_witness :
  current_player (end_of_turn cfg_1x2 (new_State game_1x2_top SymX 3)) = SymO.
Proof.
  refine (eq_trans (proj1 (turn_passes_unless_box_closed cfg_1x2
                             (new_State (new_Game cfg_1x2) SymX 3) dir_up 0 0 game_1x2_top
                             (new_State game_1x2_top SymX 3) _ _ _ _ _ _ _)) _).
  - split; [reflexivity|]. repeat constructor.
  - reflexivity.
  - simpl. tauto.
  - reflexivity.
  - reflexivity.
  - reflexivity.
  - reflexivity.
  - reflexivity.
Defined.

(** ** The only exception of the board functions *)

Lemma index_error_only_bind {A B} (m : outcome A) (k : A -> outcome B) :
  index_error_only m -> (forall a, index_error_only (k a)) -> index_error_only (bind m k).
Proof. destruct m; simpl; auto. Qed.

Lemma getitem_index_error {A} (l : list A) i : index_error_only (getitem l i).
Proof. unfold getitem. destruct (py_index _ _); [|done]. by destruct (l !! _). Qed.

Lemma setitem_index_error {A} (l : list A) i x : index_error_only (setitem l i x).
Proof. unfold setitem. by destruct (py_index _ _). Qed.

Lemma get_box_index_error b i j : index_error_only (get_box b i j).
Proof.
  apply index_error_only_bind; [apply getitem_index_error|].
  intros row. apply getitem_index_error.
Qed.

Lemma set_box_index_error b i j v : index_error_only (set_box b i j v).
Proof.
  apply index_error_only_bind; [apply getitem_index_error|]. intros row.
  apply index_error_only_bind; [apply setitem_index_error|]. intros row'.
  apply setitem_index_error.
Qed.

Lemma complete_box_index_error cfg g d i j p :
  index_error_only (complete_box cfg g d i j p).
Proof.
  apply index_error_only_bind; [apply get_box_index_error|]. intros box.
  apply index_error_only_bind; [apply set_box_index_error|]. intros b1.
  apply index_error_only_bind; [apply get_box_index_error|]. intros box1.
  destruct (_ =? 15); [|done].
  apply index_error_only_bind; [apply set_box_index_error|]. intros b2.
  by destruct (sym_eqb _ _).
Qed.

Lemma add_segment_index_error cfg g d i j p :
  index_error_only (add_segment cfg g d i j p).
Proof.
  apply index_error_only_bind; [apply get_box_index_error|]. intros box.
  destruct (_ =? 0); [|done].
  apply index_error_only_bind; [apply complete_box_index_error|]. intros g1.
  destruct (in_scope _ _ _); [|done].
  apply index_error_only_bind; [apply complete_box_index_error|]. done.
Qed.

Lemma map_outcome_index_error {A B} (f : A -> outcome B) l :
  (forall x, index_error_only (f x)) -> index_error_only (map_outcome f l).
Proof.
  intros H. induction l as [|x l IH]; simpl; [done|].
  apply index_error_only_bind; [apply H|]. intros y.
  apply index_error_only_bind; [apply IH|]. done.
Qed.

Lemma find_relative_position_index_error cfg line column b :
  index_error_only (find_relative_position cfg line column b).
Proof.
  unfold find_relative_position, bit_clear.
  repeat (destruct (_ =? _));
    (apply index_error_only_bind;
     [apply index_error_only_bind; [apply get_box_index_error|done]|done]).
Qed.

Lemma complete_if_in_scope_index_error cfg g d i j :
  index_error_only (complete_if_in_scope cfg g d i j).
Proof.
  unfold complete_if_in_scope. destruct (in_scope _ _ _); [|done].
  apply complete_box_index_error.
Qed.

(** Called with integer indices, as [check_position] and [Game.moves] call
    them, the functions that read and write the board return or raise the
    IndexError of a list access. In particular no ValueError comes out of
    [check_position], so that the handler of [player_turn] catches only the
    ValueError of [int]. *)
Lemma board_functions_raise_only_IndexError cfg g d i j p line column state :
  index_error_only (complete_box cfg g (d0 d) i j p) /\
  index_error_only (add_segment cfg g d i j p) /\
  index_error_only (Game_moves cfg g p) /\
  index_error_only (State_moves cfg state) /\
  index_error_only (find_relative_position cfg line column (board g)) /\
  index_error_only (check_position cfg line column state) /\
  check_position cfg line column state <> Raise ValueError.
Proof.
  assert (index_error_only (check_position cfg line column state)) as Hcheck.
  { unfold check_position. destruct (_ && _); [|done].
    apply index_error_only_bind; [apply find_relative_position_index_error|].
    intros [| |]; [| |done];
      (apply index_error_only_bind; [apply complete_if_in_scope_index_error|]; intros g1;
       apply index_error_only_bind; [apply complete_if_in_scope_index_error|]; done). }
  assert (forall q h, index_error_only (Game_moves cfg h q)) as Hmoves.
  { intros q h. apply map_outcome_index_error. intros [[d' i'] j'].
    apply add_segment_index_error. }
  split; [apply complete_box_index_error|]. split; [apply add_segment_index_error|].
  split; [apply Hmoves|]. split; [|split; [|split; [done|]]].
  - apply index_error_only_bind; [apply Hmoves|done].
  - apply find_relative_position_index_error.
  - intros E. rewrite E in Hcheck. discriminate.
Qed.

(** ** What the two evaluation policies count *)

(** X18. [open_boxes_2] returns the score of the player plus the number of
    passes of its loop. For a player who is not the one to move after the
    last segment it is the score itself; for the player to move it is at
    least one more than the score, whether or not a box can be closed, since
    the first pass is counted before any segment is tried. *)
Theorem open_boxes_2_counts_passes cfg fuel g player v :
  valid_config cfg -> wf cfg g ->
  open_boxes_2 cfg fuel g player = Ret v ->
  (to_move g player = false -> v = player_score cfg g player) /\
  (to_move g player = true -> player_score cfg g player + 1 <= v) /\
  player_score cfg g player <= v.
Proof.
  intros Hcfg Hwf Hv.
  pose proof (proj1 (open_boxes_2_bound cfg Hcfg fuel g player Hwf) v Hv) as [Hlow _].
  split; [|split; [|done]]; intros Hto; unfold open_boxes_2 in Hv;
    fold (player_score cfg g player) in Hv; fold (to_move g player) in Hv;
    rewrite Hto in Hv; simpl in Hv.
  - destruct fuel; simpl in Hv; congruence.
  - destruct fuel as [|fuel]; simpl in Hv; [discriminate|].
    destruct (last_segment g) as [s|] eqn:Hlast; [|discriminate].
    destruct (four_directions_wf cfg player g Hwf) as (g' & c' & Hpass & W & L & _);
      [congruence|].
    simpl in Hpass. rewrite Hlast in Hpass. rewrite Hpass in Hv. simpl in Hv.
    apply (open_boxes_2_loop_bound cfg Hcfg fuel player g' c' _ W L) in Hv. lia.
Qed.

Lemma open_boxes_2_counts_passes_witness :
  (to_move game_1x2_top SymO = true -> player_score cfg_1x2 game_1x2_top SymO + 1 <= 1) /\
  (to_move game_1x2_top SymX = false -> 0 = player_score cfg_1x2 game_1x2_top SymX).
Proof.
  assert (valid_config cfg_1x2) as Hcfg by (unfold valid_config; simpl; lia).
  assert (wf cfg_1x2 game_1x2_top) as Hwf.
  { apply (draw_wf cfg_1x2 (new_Game cfg_1x2) dir_up 0 0 SymX);
      [apply new_Game_wf|simpl; tauto|reflexivity|reflexivity]. }
  split.
  - apply (open_boxes_2_counts_passes cfg_1x2 736 game_1x2_top SymO 1 Hcfg Hwf).
    reflexivity.
  - apply (open_boxes_2_counts_passes cfg_1x2 736 game_1x2_top SymX 0 Hcfg Hwf).
    reflexivity.
Defined.

(** X19. With the first policy ([VAR = 1]) the estimate of a player is the
    number of boxes that the opponent does not own, and the evaluation of a
    game that is not final is the score of MAX minus the score of MIN; it
    needs no last segment and never raises. *)
Theorem estimate_score_first_policy cfg fuel g :
  VAR cfg = 1 ->
  open_boxes cfg fuel g (MIN cfg) = Ret (LINES cfg * COLUMNS cfg - score_max g) /\
  open_boxes cfg fuel g (MAX cfg) = Ret (LINES cfg * COLUMNS cfg - score_min g) /\
  (final cfg g = NotFinal -> estimate_score cfg fuel g = Ret (score_max g - score_min g)).
Proof.
  intros Hvar. unfold estimate_score, open_boxes, open_boxes_1. rewrite Hvar. simpl.
  rewrite sym_eqb_refl, MIN_MAX_neq. split; [done|]. split; [done|].
  intros ->. simpl. f_equal. lia.
Qed.

Lemma estimate_score_first_policy_witness :
  estimate_score (mkConfig 1 2 SymX 1) 0 (new_Game (mkConfig 1 2 SymX 1)) = Ret (0 - 0).
Proof.
  apply (estimate_score_first_policy (mkConfig 1 2 SymX 1) 0
           (new_Game (mkConfig 1 2 SymX 1))); reflexivity.
Defined.

(** ** The list that [Game.moves] returns *)

(** X20. On a well-formed game [Game.moves] raises nothing and returns one
    entry for every segment of the grid, [2 * LINES * COLUMNS + LINES +
    COLUMNS] in all and always in the same order: the entry of a segment is
    [None] exactly when the segment is drawn, and otherwise the game that
    [add_segment] makes by drawing it. *)
Theorem Game_moves_one_entry_per_segment cfg g player :
  valid_config cfg -> wf cfg g ->
  exists games,
    Game_moves cfg g player = Ret games /\
    Z.of_nat (length games) = 2 * LINES cfg * COLUMNS cfg + LINES cfg + COLUMNS cfg /\
    map slot_segment (move_slots cfg) ≡ₚ lattice_segments cfg /\
    Forall2 (fun slot entry =>
               (entry = None <->
                segment_drawn cfg (board g) (fst (slot_segment slot))
                              (snd (slot_segment slot)) = true) /\
               add_segment cfg g (fst (fst slot)) (snd (fst slot)) (snd slot) player
               = Ret entry)
            (move_slots cfg) games.
Proof.
  intros Hcfg Hwf. pose proof (wf_shaped _ _ Hwf) as Hb.
  rewrite Game_moves_shaped by done. eexists. split; [done|].
  split; [rewrite length_map; by apply length_move_slots|].
  split; [by apply segments_of_slots|].
  rewrite <- (map_id (move_slots cfg)) at 1. apply Forall2_map_same.
  intros [[d i] j] Hin. simpl.
  destruct (move_slots_in_scope cfg Hcfg _ Hin) as [Hd Hs]. simpl in Hd, Hs.
  rewrite free_slot_undrawn, add_segment_in_scope by done.
  split; [|done]. destruct (free g d i j); simpl; split; (done || discriminate).
Qed.

Lemma Game_moves_one_entry_per_segment_witness :
  exists games,
    Game_moves cfg_1x2 game_1x2_top SymO = Ret games /\
    Z.of_nat (length games) = 2 * LINES cfg_1x2 * COLUMNS cfg_1x2 + LINES cfg_1x2
                              + COLUMNS cfg_1x2.
Proof.
  assert (valid_config cfg_1x2) as Hcfg by (unfold valid_config; simpl; lia).
  assert (wf cfg_1x2 game_1x2_top) as Hwf.
  { apply (draw_wf cfg_1x2 (new_Game cfg_1x2) dir_up 0 0 SymX);
      [apply new_Game_wf|simpl; tauto|reflexivity|reflexivity]. }
  destruct (Game_moves_one_entry_per_segment cfg_1x2 game_1x2_top SymO Hcfg Hwf)
    as (games & H1 & H2 & _).
  exists games. split; [exact H1|exact H2].
Defined.
